(** * advanced-vector: RawMemory<T> and Vector<T> (vector.h)

    A shallow embedding of the two class templates of vector.h and the
    properties of the container that follow from the code.

    - A block of raw storage is a list of slots; a slot is [None] while it is
      uninitialized memory and [Some x] while an object with state [x] lives
      in it.  A [T*] into a block is a position in that list.
    - [size_t] is a [Z] in [0, 2^64); the arithmetic of the code is written
      with its wrap-around ([size_t_add], [size_t_sub], [size_t_mul]).
    - The element type [T] is a parameter.  Its special member functions may
      throw and may read and change an environment [W] (counters, flags);
      [None] is a thrown exception.  A move leaves a moved-from object behind.
      An object has [sizeof_T] bytes, and the number of bytes that RawMemory
      asks operator new for is computed in size_t, as in the code: a block
      has as many slots as the bytes obtained hold objects.
    - An argument of type T&& is a reference: it may be bound to an element
      of the vector itself, which the move then leaves moved-from.
    - Every member function is a function from the object and the environment
      to an [outcome], the object afterwards and the environment afterwards.
      [Threw] is an exception that leaves the function; [Violation] is a
      failed [assert] or an access outside the storage (undefined behaviour).
    - A [Vector] owns its block exclusively, so the block is part of the
      vector's value.
    - The algorithms of <memory> and <algorithm> that the code calls are
      written out as the C++ standard describes them, with the handler of
      the std::uninitialized_* algorithms that destroys what was constructed
      before an exception leaves them.

    The properties come after the definitions: the algorithms on blocks,
    valid vectors, and then the member functions one after the other; the
    last part has the rest of the interface (constructors, destructor,
    Resize, PopBack, operator[]), what an exception leaves behind and how
    the operations compose. *)

From Stdlib Require Import ZArith Lia.
From stdpp Require Import base list.

Local Open Scope Z_scope.

(** ** Outcomes *)

Inductive outcome (A : Type) : Type :=
| Normal (a : A)
| Threw
| Violation.

Arguments Normal {A} a.
Arguments Threw {A}.
Arguments Violation {A}.

(** ** size_t *)

Definition size_t_modulus : Z := 2 ^ 64.

Definition size_t_add (a b : Z) : Z := (a + b) mod size_t_modulus.
Definition size_t_sub (a b : Z) : Z := (a - b) mod size_t_modulus.
Definition size_t_mul (a b : Z) : Z := (a * b) mod size_t_modulus.

(** ** The element type

    The template parameter [T] with what the container uses of it:
    - [default_ctor]  T()
    - [copy_ctor s]   T(const T& s): the new object
    - [move_ctor s]   T(T&& s): the new object and what is left of [s]
    - [copy_assign d s]  d = s: the new state of [d]
    - [move_assign d s]  d = std::move(s): the new states of [d] and [s]
    - [dtor x]        ~T(), which does not throw
    - the two type traits CopyOrMove branches on
    - [sizeof_T]      sizeof(T), a size_t that is not 0
    - [operator_new bytes]  operator new(bytes); [false] is
      std::bad_alloc *)

Class Element (T W : Type) : Type := {
  default_ctor : W -> option T * W;
  copy_ctor : T -> W -> option T * W;
  move_ctor : T -> W -> option (T * T) * W;
  copy_assign : T -> T -> W -> option T * W;
  move_assign : T -> T -> W -> option (T * T) * W;
  dtor : T -> W -> W;
  is_nothrow_move_constructible : bool;
  is_copy_constructible : bool;
  sizeof_T : Z;
  sizeof_T_range : 0 < sizeof_T < size_t_modulus;
  operator_new : Z -> W -> bool * W
}.

Section AdvancedVector.

Context {T W : Type} `{E : Element T W}.

(** A block of storage: its slots. *)
Local Abbreviation block := (list (option T)).

(** A constructor call with its arguments bound: T(args...). *)
Definition ctor : Type := W -> option T * W.

(** ** Objects in raw storage *)

(** new (b + i) T(args...) *)
Definition placement_new (b : block) (i : nat) (args : ctor) (w : W)
  : outcome unit * block * W :=
  if (i <? length b)%nat then
    match args w with
    | (Some x, w1) => (Normal tt, <[i := Some x]> b, w1)
    | (None, w1) => (Threw, b, w1)
    end
  else (Violation, b, w).

(** std::destroy_at(b + i), (b + i)->~T() *)
Definition destroy_at (b : block) (i : nat) (w : W) : option (block * W) :=
  match b !! i with
  | Some (Some x) => Some (<[i := None]> b, dtor x w)
  | _ => None
  end.

(** std::destroy_n(b + first, n) *)
Fixpoint destroy_n (b : block) (first n : nat) (w : W) : option (block * W) :=
  match n with
  | O => Some (b, w)
  | S n' =>
    match destroy_at b first w with
    | Some (b1, w1) => destroy_n b1 (S first) n' w1
    | None => None
    end
  end.

(** The handler of the std::uninitialized_* algorithms:
    catch (...) { std::destroy(d_first, current); throw; } *)
Definition unwind (b : block) (d_first current : nat) (w : W)
  : outcome unit * block * W :=
  match destroy_n b d_first (current - d_first) w with
  | Some (b1, w1) => (Threw, b1, w1)
  | None => (Violation, b, w)
  end.

(** std::uninitialized_value_construct_n(b + d_first, n); [current] runs
    from [d_first]. *)
Fixpoint uninitialized_value_construct_loop
  (b : block) (d_first current n : nat) (w : W) : outcome unit * block * W :=
  match n with
  | O => (Normal tt, b, w)
  | S n' =>
    match placement_new b current default_ctor w with
    | (Normal _, b1, w1) =>
      uninitialized_value_construct_loop b1 d_first (S current) n' w1
    | (Threw, b1, w1) => unwind b1 d_first current w1
    | (Violation, b1, w1) => (Violation, b1, w1)
    end
  end.

Definition uninitialized_value_construct_n (b : block) (d_first n : nat) (w : W)
  : outcome unit * block * W :=
  uninitialized_value_construct_loop b d_first d_first n w.

(** std::uninitialized_copy_n(from + first, n, to + d_first); the source is
    read only. *)
Fixpoint uninitialized_copy_loop
  (from : block) (first n : nat) (to : block) (d_first current : nat) (w : W)
  : outcome unit * block * W :=
  match n with
  | O => (Normal tt, to, w)
  | S n' =>
    match from !! first with
    | Some (Some x) =>
      match placement_new to current (copy_ctor x) w with
      | (Normal _, to1, w1) =>
        uninitialized_copy_loop from (S first) n' to1 d_first (S current) w1
      | (Threw, to1, w1) => unwind to1 d_first current w1
      | (Violation, to1, w1) => (Violation, to1, w1)
      end
    | _ => (Violation, to, w)
    end
  end.

Definition uninitialized_copy_n
  (from : block) (first n : nat) (to : block) (d_first : nat) (w : W)
  : outcome unit * block * W :=
  uninitialized_copy_loop from first n to d_first d_first w.

(** std::uninitialized_move_n(from + first, n, to + d_first), between two
    different blocks; every moved element of the source is left moved-from. *)
Fixpoint uninitialized_move_loop
  (from : block) (first n : nat) (to : block) (d_first current : nat) (w : W)
  : outcome unit * (block * block) * W :=
  match n with
  | O => (Normal tt, (from, to), w)
  | S n' =>
    match from !! first with
    | Some (Some x) =>
      if (current <? length to)%nat then
        match move_ctor x w with
        | (Some (y, x'), w1) =>
          uninitialized_move_loop (<[first := Some x']> from) (S first) n'
            (<[current := Some y]> to) d_first (S current) w1
        | (None, w1) =>
          match unwind to d_first current w1 with
          | (o, to1, w2) => (o, (from, to1), w2)
          end
        end
      else (Violation, (from, to), w)
    | _ => (Violation, (from, to), w)
    end
  end.

Definition uninitialized_move_n
  (from : block) (first n : nat) (to : block) (d_first : nat) (w : W)
  : outcome unit * (block * block) * W :=
  uninitialized_move_loop from first n to d_first d_first w.

(** std::copy_n(from + first, n, to + d_first): copy assignment onto live
    objects of another block. *)
Fixpoint copy_n (from : block) (first n : nat) (to : block) (d_first : nat) (w : W)
  : outcome unit * block * W :=
  match n with
  | O => (Normal tt, to, w)
  | S n' =>
    match from !! first, to !! d_first with
    | Some (Some s), Some (Some d) =>
      match copy_assign d s w with
      | (Some d', w1) =>
        copy_n from (S first) n' (<[d_first := Some d']> to) (S d_first) w1
      | (None, w1) => (Threw, to, w1)
      end
    | _, _ => (Violation, to, w)
    end
  end.

(** std::move(b + first, b + first + n, b + d_first) inside one block:
    each element is move-assigned to the slot d_first, d_first + 1, ... *)
Fixpoint move_loop (b : block) (first n d_first : nat) (w : W)
  : outcome unit * block * W :=
  match n with
  | O => (Normal tt, b, w)
  | S n' =>
    match b !! first, b !! d_first with
    | Some (Some s), Some (Some d) =>
      match move_assign d s w with
      | (Some (d', s'), w1) =>
        move_loop (<[first := Some s']> (<[d_first := Some d']> b))
                  (S first) n' (S d_first) w1
      | (None, w1) => (Threw, b, w1)
      end
    | _, _ => (Violation, b, w)
    end
  end.

(** std::move(b + first, b + last, b + d_first): a range whose end is before
    its start is undefined. *)
Definition move_range (b : block) (first last d_first : nat) (w : W)
  : outcome unit * block * W :=
  if (first <=? last)%nat then move_loop b first (last - first) d_first w
  else (Violation, b, w).

(** std::move_backward(b + first, b + first + n, b + d_last) inside one
    block: from the last element down, each is move-assigned to the slot
    d_last - 1, d_last - 2, ... *)
Fixpoint move_backward_loop (b : block) (first n d_last : nat) (w : W)
  : outcome unit * block * W :=
  match n with
  | O => (Normal tt, b, w)
  | S n' =>
    match d_last with
    | O => (Violation, b, w)
    | S d_prev =>
      match b !! (first + n')%nat, b !! d_prev with
      | Some (Some s), Some (Some d) =>
        match move_assign d s w with
        | (Some (d', s'), w1) =>
          move_backward_loop
            (<[(first + n')%nat := Some s']> (<[d_prev := Some d']> b))
            first n' d_prev w1
        | (None, w1) => (Threw, b, w1)
        end
      | _, _ => (Violation, b, w)
      end
    end
  end.

Definition move_backward (b : block) (first last d_last : nat) (w : W)
  : outcome unit * block * W :=
  if (first <=? last)%nat then move_backward_loop b first (last - first) d_last w
  else (Violation, b, w).

(** ** RawMemory<T> *)

Record RawMemory : Type := mkRawMemory {
  buffer_ : block;     (* T* buffer_: the block it points to; [] is nullptr *)
  capacity_ : Z        (* size_t capacity_ *)
}.

(** RawMemory() = default *)
Definition RawMemory_default : RawMemory :=
  {| buffer_ := []; capacity_ := 0 |}.

(** static T* Allocate(size_t n): operator new(n * sizeof(T)), the product
    being a size_t.  The block obtained has room for as many objects as its
    bytes hold, which is fewer than [n] when the product has wrapped
    around. *)
Definition Allocate (n : Z) (w : W) : option block * W :=
  if negb (n =? 0) then
    let bytes := size_t_mul n sizeof_T in
    match operator_new bytes w with
    | (true, w1) => (Some (replicate (Z.to_nat (bytes / sizeof_T)) None), w1)
    | (false, w1) => (None, w1)
    end
  else (Some [], w).

(** explicit RawMemory(size_t capacity) *)
Definition RawMemory_new (capacity : Z) (w : W) : option RawMemory * W :=
  match Allocate capacity w with
  | (Some b, w1) => (Some {| buffer_ := b; capacity_ := capacity |}, w1)
  | (None, w1) => (None, w1)
  end.

(** void Move(RawMemory&& other): the pair is (this, other) afterwards. *)
Definition RawMemory_Move (this other : RawMemory) : RawMemory * RawMemory :=
  ({| buffer_ := buffer_ other; capacity_ := capacity_ other |},
   {| buffer_ := []; capacity_ := 0 |}).

(** T* operator+(size_t offset) *)
Definition RawMemory_plus (m : RawMemory) (offset : Z) : option nat :=
  if offset <=? capacity_ m then Some (Z.to_nat offset) else None.

(** T& operator[](size_t index) *)
Definition RawMemory_at (m : RawMemory) (index : Z) : option nat :=
  if index <? capacity_ m then Some (Z.to_nat index) else None.

(** void Swap(RawMemory& other) *)
Definition RawMemory_Swap (this other : RawMemory) : RawMemory * RawMemory :=
  (other, this).

(** T* GetAddress() *)
Definition GetAddress (m : RawMemory) : nat := 0%nat.

Definition RawMemory_Capacity (m : RawMemory) : Z := capacity_ m.

(** ** Vector<T> *)

Record Vector : Type := mkVector {
  data_ : RawMemory;
  size_ : Z
}.

Definition with_buffer (v : Vector) (b : block) : Vector :=
  {| data_ := {| buffer_ := b; capacity_ := capacity_ (data_ v) |};
     size_ := size_ v |}.

Definition with_size (v : Vector) (n : Z) : Vector :=
  {| data_ := data_ v; size_ := n |}.

Definition Size (v : Vector) : Z := size_ v.
Definition Capacity (v : Vector) : Z := RawMemory_Capacity (data_ v).

(** iterator begin(), iterator end() *)
Definition begin_ (v : Vector) : nat := GetAddress (data_ v).
Definition end_ (v : Vector) : option nat := RawMemory_plus (data_ v) (size_ v).

(** Vector() = default *)
Definition Vector_default : Vector :=
  {| data_ := RawMemory_default; size_ := 0 |}.

(** static void CopyOrMove(T* from, size_t size, T* to): from a block into
    another one; the pair is (source block, destination block) afterwards. *)
Definition CopyOrMove (from : block) (first : nat) (size : Z)
                      (to : block) (d_first : nat) (w : W)
  : outcome unit * (block * block) * W :=
  let '(o, (from1, to1), w1) :=
    if is_nothrow_move_constructible || negb is_copy_constructible then
      uninitialized_move_n from first (Z.to_nat size) to d_first w
    else
      match uninitialized_copy_n from first (Z.to_nat size) to d_first w with
      | (o, to1, w1) => (o, (from, to1), w1)
      end in
  match o with
  | Normal _ =>
    match destroy_n from1 first (Z.to_nat size) w1 with
    | Some (from2, w2) => (Normal tt, (from2, to1), w2)
    | None => (Violation, (from1, to1), w1)
    end
  | _ => (o, (from1, to1), w1)
  end.

(** Leaving a function by the exception or the violation of a callee. *)
Definition propagate {A B : Type} (o : outcome A) : outcome B :=
  match o with
  | Threw => Threw
  | _ => Violation
  end.


(** Vector(const Vector& other) *)
Definition Vector_copy (other : Vector) (w : W) : outcome Vector * W :=
  match RawMemory_new (size_ other) w with
  | (None, w1) => (Threw, w1)
  | (Some data, w1) =>
    match uninitialized_copy_n
            (buffer_ (data_ other)) (GetAddress (data_ other))
            (Z.to_nat (size_ other)) (buffer_ data) (GetAddress data) w1 with
    | (Normal _, b, w2) =>
      (Normal {| data_ := {| buffer_ := b; capacity_ := capacity_ data |};
                 size_ := size_ other |}, w2)
    | (o, _, w2) => (propagate o, w2)
    end
  end.

(** Vector(Vector&& other): the pair is (the new vector, other afterwards). *)
Definition Vector_move (other : Vector) : Vector * Vector :=
  let '(d, od) := RawMemory_Move RawMemory_default (data_ other) in
  ({| data_ := d; size_ := size_ other |}, {| data_ := od; size_ := 0 |}).

(** ~Vector(): destroys the elements; the block is then released. *)
Definition Vector_destroy (v : Vector) (w : W) : option W :=
  match destroy_n (buffer_ (data_ v)) (GetAddress (data_ v))
                  (Z.to_nat (size_ v)) w with
  | Some (_, w1) => Some w1
  | None => None
  end.

(** void Swap(Vector& other): the pair is (this, other) afterwards. *)
Definition Swap (v other : Vector) : Vector * Vector :=
  let '(d, od) := RawMemory_Swap (data_ v) (data_ other) in
  ({| data_ := d; size_ := size_ other |}, {| data_ := od; size_ := size_ v |}).

(** The right-hand side of an assignment: the vector itself or another one. *)
Inductive rhs_ref : Type :=
| This
| Other (rhs : Vector).

(** Vector& operator=(const Vector& rhs) *)
Definition assign_copy (r : rhs_ref) (v : Vector) (w : W)
  : outcome unit * Vector * W :=
  match r with
  | This => (Normal tt, v, w)
  | Other rhs =>
    if Capacity v <? size_ rhs then
      match Vector_copy rhs w with
      | (Normal copy, w1) =>
        let '(v1, copy1) := Swap v copy in
        match Vector_destroy copy1 w1 with
        | Some w2 => (Normal tt, v1, w2)
        | None => (Violation, v1, w1)
        end
      | (o, w1) => (propagate o, v, w1)
      end
    else
      let copy_elem := if size_ rhs <? size_ v then size_ rhs else size_ v in
      match copy_n (buffer_ (data_ rhs)) (GetAddress (data_ rhs))
                   (Z.to_nat copy_elem)
                   (buffer_ (data_ v)) (GetAddress (data_ v)) w with
      | (Normal _, b1, w1) =>
        let end' := (GetAddress (data_ v) + Z.to_nat copy_elem)%nat in
        if size_ rhs <? size_ v then
          match destroy_n b1 end' (Z.to_nat (size_t_sub (size_ v) (size_ rhs))) w1 with
          | Some (b2, w2) =>
            (Normal tt, with_size (with_buffer v b2) (size_ rhs), w2)
          | None => (Violation, with_buffer v b1, w1)
          end
        else
          match uninitialized_copy_n
                  (buffer_ (data_ rhs))
                  (GetAddress (data_ rhs) + Z.to_nat (size_ v))%nat
                  (Z.to_nat (size_t_sub (size_ rhs) (size_ v))) b1 end' w1 with
          | (Normal _, b2, w2) =>
            (Normal tt, with_size (with_buffer v b2) (size_ rhs), w2)
          | (o, b2, w2) => (propagate o, with_buffer v b2, w2)
          end
      | (o, b1, w1) => (propagate o, with_buffer v b1, w1)
      end
  end.

(** Vector& operator=(Vector&& rhs) noexcept: the pair is (this, rhs). *)
Definition assign_move (rhs v : Vector) : Vector * Vector := Swap v rhs.

(** void Reserve(size_t new_capacity) *)
Definition Reserve (new_capacity : Z) (v : Vector) (w : W)
  : outcome unit * Vector * W :=
  if new_capacity <=? RawMemory_Capacity (data_ v) then (Normal tt, v, w)
  else
    match RawMemory_new new_capacity w with
    | (None, w1) => (Threw, v, w1)
    | (Some new_data, w1) =>
      match CopyOrMove (buffer_ (data_ v)) (GetAddress (data_ v)) (size_ v)
                       (buffer_ new_data) (GetAddress new_data) w1 with
      | (Normal _, (ob, nb), w2) =>
        let '(d, _) :=
          RawMemory_Swap {| buffer_ := ob; capacity_ := capacity_ (data_ v) |}
                         {| buffer_ := nb; capacity_ := capacity_ new_data |} in
        (Normal tt, {| data_ := d; size_ := size_ v |}, w2)
      | (o, (ob, _), w2) => (propagate o, with_buffer v ob, w2)
      end
    end.

(** void Resize(size_t new_size) *)
Definition Resize (new_size : Z) (v : Vector) (w : W)
  : outcome unit * Vector * W :=
  if new_size <? size_ v then
    match destroy_n (buffer_ (data_ v))
                    (GetAddress (data_ v) + Z.to_nat new_size)%nat
                    (Z.to_nat (size_t_sub (size_ v) new_size)) w with
    | Some (b, w1) => (Normal tt, with_size (with_buffer v b) new_size, w1)
    | None => (Violation, v, w)
    end
  else if size_ v <? new_size then
    match Reserve new_size v w with
    | (Normal _, v1, w1) =>
      match uninitialized_value_construct_n
              (buffer_ (data_ v1))
              (GetAddress (data_ v1) + Z.to_nat (size_ v1))%nat
              (Z.to_nat (size_t_sub new_size (size_ v1))) w1 with
      | (Normal _, b, w2) =>
        (Normal tt, with_size (with_buffer v1 b) new_size, w2)
      | (o, b, w2) => (propagate o, with_buffer v1 b, w2)
      end
    | (o, v1, w1) => (propagate o, v1, w1)
    end
  else (Normal tt, with_size v new_size, w).

(** *** The arguments of a constructor call

    A constructor call T(args...) whose arguments are no objects of the
    vector is a function of the environment, a [ctor].  An argument of type
    T&& is a reference, and the object it is bound to may be an element of
    the vector itself, as in v.PushBack(std::move(v[0])): T's move
    constructor then leaves that element moved-from. *)

(** The object that a T&& is bound to: an object outside the vector, with
    its state, or the element of the vector at the position [p]. *)
Inductive rvalue_ref : Type :=
| OutsideObject (value : T)
| ElementAt (p : nat).

(** The arguments of T(args...): arguments outside the vector, or
    std::move of the element at the position [p]. *)
Inductive arguments : Type :=
| Outside (args : ctor)
| MoveElement (p : nat).

(** T(std::move(value)) for an object outside the vector; what is left of
    that object is the caller's. *)
Definition move_from (value : T) : ctor :=
  fun w =>
    match move_ctor value w with
    | (Some (y, _), w1) => (Some y, w1)
    | (None, w1) => (None, w1)
    end.

(** std::move(value) passed on as the argument of a constructor call. *)
Definition forward_rvalue (r : rvalue_ref) : arguments :=
  match r with
  | OutsideObject value => Outside (move_from value)
  | ElementAt p => MoveElement p
  end.

(** T(args...) while the block of the vector is [own]: the new object and
    the block afterwards.  A move from an element that is not alive is
    undefined. *)
Definition construct (a : arguments) (own : block) (w : W)
  : outcome (T * block) * W :=
  match a with
  | Outside args =>
    match args w with
    | (Some x, w1) => (Normal (x, own), w1)
    | (None, w1) => (Threw, w1)
    end
  | MoveElement p =>
    match own !! p with
    | Some (Some s) =>
      match move_ctor s w with
      | (Some (x, s'), w1) => (Normal (x, <[p := Some s']> own), w1)
      | (None, w1) => (Threw, w1)
      end
    | _ => (Violation, w)
    end
  end.

(** The body shared, but for the constructor call, by PushBack(const T&),
    PushBack(T&&) and EmplaceBack(Args&&...). *)
Definition append (a : arguments) (v : Vector) (w : W)
  : outcome unit * Vector * W :=
  if size_ v =? Capacity v then
    match RawMemory_new
            (if size_ v =? 0 then 1 else size_t_mul (size_ v) 2) w with
    | (None, w1) => (Threw, v, w1)
    | (Some new_data, w1) =>
      match RawMemory_plus new_data (size_ v) with
      | None => (Violation, v, w1)
      | Some p =>
        (* new (new_data + size_) T(args...) *)
        if (p <? length (buffer_ new_data))%nat then
          match construct a (buffer_ (data_ v)) w1 with
          | (Normal (x, b), w2) =>
            match CopyOrMove b (GetAddress (data_ v)) (size_ v)
                             (<[p := Some x]> (buffer_ new_data))
                             (GetAddress new_data) w2 with
            | (Normal _, (ob, nb1), w3) =>
              let '(d, _) :=
                RawMemory_Swap
                  {| buffer_ := ob; capacity_ := capacity_ (data_ v) |}
                  {| buffer_ := nb1; capacity_ := capacity_ new_data |} in
              (Normal tt, {| data_ := d; size_ := size_t_add (size_ v) 1 |}, w3)
            | (o, (ob, _), w3) => (propagate o, with_buffer v ob, w3)
            end
          | (o, w2) => (propagate o, v, w2)
          end
        else (Violation, v, w1)
      end
    end
  else
    match RawMemory_plus (data_ v) (size_ v) with
    | None => (Violation, v, w)
    | Some p =>
      (* new (data_ + size_) T(args...) *)
      if (p <? length (buffer_ (data_ v)))%nat then
        match construct a (buffer_ (data_ v)) w with
        | (Normal (x, b), w1) =>
          (Normal tt,
           with_size (with_buffer v (<[p := Some x]> b))
                     (size_t_add (size_ v) 1), w1)
        | (o, w1) => (propagate o, v, w1)
        end
      else (Violation, v, w)
    end.

(** void PushBack(const T& value): the copy is made before anything in the
    vector changes, so that a reference to an element is as good as its
    value. *)
Definition PushBack (value : T) (v : Vector) (w : W)
  : outcome unit * Vector * W :=
  append (Outside (copy_ctor value)) v w.

(** void PushBack(T&& value) *)
Definition PushBack_move (value : rvalue_ref) (v : Vector) (w : W)
  : outcome unit * Vector * W :=
  append (forward_rvalue value) v w.

(** T& EmplaceBack(Args&&... args): returns data_[size_ - 1]. *)
Definition EmplaceBack (a : arguments) (v : Vector) (w : W)
  : outcome nat * Vector * W :=
  match append a v w with
  | (Normal _, v1, w1) =>
    match RawMemory_at (data_ v1) (size_t_sub (size_ v1) 1) with
    | Some p => (Normal p, v1, w1)
    | None => (Violation, v1, w1)
    end
  | (o, v1, w1) => (propagate o, v1, w1)
  end.

(** void PopBack() noexcept *)
Definition PopBack (v : Vector) (w : W) : outcome unit * Vector * W :=
  if 0 <? size_ v then
    match RawMemory_plus (data_ v) (size_t_sub (size_ v) 1) with
    | Some p =>
      match destroy_at (buffer_ (data_ v)) p w with
      | Some (b, w1) =>
        (Normal tt, with_size (with_buffer v b) (size_t_sub (size_ v) 1), w1)
      | None => (Violation, v, w)
      end
    | None => (Violation, v, w)
    end
  else (Violation, v, w).

(** static_cast<size_t>(pos - begin()) *)
Definition index_of (v : Vector) (pos : nat) : Z :=
  (Z.of_nat pos - Z.of_nat (begin_ v)) mod size_t_modulus.

(** The reallocating branch of Emplace: size_ == Capacity(). *)
Definition Emplace_realloc (pos : nat) (a : arguments) (v : Vector) (w : W)
  : outcome nat * Vector * W :=
  let index := index_of v pos in
  match RawMemory_new
          (if size_ v =? 0 then 1 else size_t_mul (size_ v) 2) w with
  | (None, w1) => (Threw, v, w1)
  | (Some new_data, w1) =>
    match RawMemory_plus new_data index with
    | None => (Violation, v, w1)
    | Some p =>
      (* new (new_data + index) T(args...) *)
      if (p <? length (buffer_ new_data))%nat then
        match construct a (buffer_ (data_ v)) w1 with
        | (Normal (x, b), w2) =>
          (* try { CopyOrMove(data_.GetAddress(), index,
                              new_data.GetAddress()); } *)
          match CopyOrMove b (GetAddress (data_ v)) index
                           (<[p := Some x]> (buffer_ new_data))
                           (GetAddress new_data) w2 with
          | (Normal _, (ob, nb1), w3) =>
            match RawMemory_plus (data_ v) index,
                  RawMemory_plus new_data (size_t_add index 1) with
            | Some src, Some dst =>
              (* try { CopyOrMove(data_ + index, size_ - index,
                                  new_data + (index + 1)); } *)
              match CopyOrMove ob src (size_t_sub (size_ v) index)
                               nb1 dst w3 with
              | (Normal _, (ob1, nb2), w4) =>
                let '(d, _) :=
                  RawMemory_Swap
                    {| buffer_ := ob1; capacity_ := capacity_ (data_ v) |}
                    {| buffer_ := nb2; capacity_ := capacity_ new_data |} in
                let v1 := {| data_ := d; size_ := size_t_add (size_ v) 1 |} in
                (Normal (begin_ v1 + Z.to_nat index)%nat, v1, w4)
              | (Threw, (ob1, nb2), w4) =>
                (* catch (...) { std::destroy_n(new_data.GetAddress(),
                                                index + 1); throw; } *)
                match destroy_n nb2 (GetAddress new_data)
                                (Z.to_nat (size_t_add index 1)) w4 with
                | Some (_, w5) => (Threw, with_buffer v ob1, w5)
                | None => (Violation, with_buffer v ob1, w4)
                end
              | (Violation, (ob1, _), w4) => (Violation, with_buffer v ob1, w4)
              end
            | _, _ => (Violation, with_buffer v ob, w3)
            end
          | (Threw, (ob, nb1), w3) =>
            (* catch (...) { new_data[index].~T(); throw; } *)
            match RawMemory_at new_data index with
            | Some q =>
              match destroy_at nb1 q w3 with
              | Some (_, w4) => (Threw, with_buffer v ob, w4)
              | None => (Violation, with_buffer v ob, w3)
              end
            | None => (Violation, with_buffer v ob, w3)
            end
          | (Violation, (ob, _), w3) => (Violation, with_buffer v ob, w3)
          end
        | (o, w2) => (propagate o, v, w2)
        end
      else (Violation, v, w1)
    end
  end.

(** The branch of Emplace that has room: size_ < Capacity().  The
    temporary is destroyed when its scope is left, by return or by
    exception. *)
Definition Emplace_inplace (pos : nat) (a : arguments) (v : Vector) (w : W)
  : outcome nat * Vector * W :=
  let index := index_of v pos in
  match construct a (buffer_ (data_ v)) w with   (* T temp_elem(args...); *)
  | (Normal (temp, b), w1) =>
    (* new (end()) T(std::move(data_[size_ - 1])); *)
    match end_ v, RawMemory_at (data_ v) (size_t_sub (size_ v) 1) with
    | Some e, Some lastp =>
      match b !! lastp with
      | Some (Some last) =>
        if (e <? length b)%nat then
          match move_ctor last w1 with
          | (Some (y, last'), w2) =>
            let b1 := <[e := Some y]> (<[lastp := Some last']> b) in
            (* std::move_backward(begin() + index, end() - 1, end()); *)
            match move_backward b1 (begin_ v + Z.to_nat index)%nat
                                (e - 1)%nat e w2 with
            | (Normal _, b2, w3) =>
              (* data_[index] = std::move(temp_elem); *)
              match RawMemory_at (data_ v) index with
              | Some q =>
                match b2 !! q with
                | Some (Some d) =>
                  match move_assign d temp w3 with
                  | (Some (d', temp'), w4) =>
                    let v1 := with_size (with_buffer v (<[q := Some d']> b2))
                                        (size_t_add (size_ v) 1) in
                    (Normal (begin_ v1 + Z.to_nat index)%nat, v1,
                     dtor temp' w4)
                  | (None, w4) => (Threw, with_buffer v b2, dtor temp w4)
                  end
                | _ => (Violation, with_buffer v b2, w3)
                end
              | None => (Violation, with_buffer v b2, w3)
              end
            | (o, b2, w3) => (propagate o, with_buffer v b2, dtor temp w3)
            end
          | (None, w2) => (Threw, with_buffer v b, dtor temp w2)
          end
        else (Violation, with_buffer v b, w1)
      | _ => (Violation, with_buffer v b, w1)
      end
    | _, _ => (Violation, with_buffer v b, w1)
    end
  | (o, w1) => (propagate o, v, w1)
  end.

(** iterator Emplace(const_iterator pos, Args&&... args) *)
Definition Emplace (pos : nat) (a : arguments) (v : Vector) (w : W)
  : outcome nat * Vector * W :=
  match end_ v with
  | None => (Violation, v, w)
  | Some e =>
    if (pos =? e)%nat then EmplaceBack a v w
    else if size_ v =? Capacity v then Emplace_realloc pos a v w
    else Emplace_inplace pos a v w
  end.

(** iterator Erase(const_iterator pos) *)
Definition Erase (pos : nat) (v : Vector) (w : W)
  : outcome nat * Vector * W :=
  if 0 <? size_ v then
    let index := index_of v pos in
    match end_ v with
    | Some e =>
      match move_range (buffer_ (data_ v))
                       (begin_ v + Z.to_nat index + 1)%nat e
                       (begin_ v + Z.to_nat index)%nat w with
      | (Normal _, b1, w1) =>
        match RawMemory_at (data_ v) (size_t_sub (size_ v) 1) with
        | Some q =>
          match destroy_at b1 q w1 with
          | Some (b2, w2) =>
            let v1 := with_size (with_buffer v b2) (size_t_sub (size_ v) 1) in
            (Normal (begin_ v1 + Z.to_nat index)%nat, v1, w2)
          | None => (Violation, with_buffer v b1, w1)
          end
        | None => (Violation, with_buffer v b1, w1)
        end
      | (o, b1, w1) => (propagate o, with_buffer v b1, w1)
      end
    | None => (Violation, v, w)
    end
  else (Violation, v, w).

(** iterator Insert(const_iterator pos, const T& value): as for PushBack,
    the copy is made before anything in the vector changes. *)
Definition Insert (pos : nat) (value : T) (v : Vector) (w : W)
  : outcome nat * Vector * W :=
  Emplace pos (Outside (copy_ctor value)) v w.

(** iterator Insert(const_iterator pos, T&& value) *)
Definition Insert_move (pos : nat) (value : rvalue_ref) (v : Vector) (w : W)
  : outcome nat * Vector * W :=
  Emplace pos (forward_rvalue value) v w.

(** T& operator[](size_t index): the element read through the reference. *)
Definition at_ (v : Vector) (index : Z) : option T :=
  if index <? size_ v then
    match RawMemory_at (data_ v) index with
    | Some p =>
      match buffer_ (data_ v) !! p with
      | Some (Some x) => Some x
      | _ => None
      end
    | None => None
    end
  else None.

(** ** The operations that act on one vector

    The public member functions that change a vector and are neither a move
    nor a swap, as a type, so that a statement can range over all of them. *)

Inductive operation : Type :=
| OpAssignCopy (r : rhs_ref)
| OpReserve (new_capacity : Z)
| OpResize (new_size : Z)
| OpPushBack (value : T)
| OpPushBackMove (value : rvalue_ref)
| OpPopBack
| OpEmplaceBack (a : arguments)
| OpEmplace (pos : nat) (a : arguments)
| OpErase (pos : nat)
| OpInsert (pos : nat) (value : T)
| OpInsertMove (pos : nat) (value : rvalue_ref).

Definition forget {A : Type} (r : outcome A * Vector * W)
  : outcome unit * Vector * W :=
  match r with
  | (Normal _, v, w) => (Normal tt, v, w)
  | (Threw, v, w) => (Threw, v, w)
  | (Violation, v, w) => (Violation, v, w)
  end.

Definition run (op : operation) (v : Vector) (w : W)
  : outcome unit * Vector * W :=
  match op with
  | OpAssignCopy r => assign_copy r v w
  | OpReserve n => Reserve n v w
  | OpResize n => Resize n v w
  | OpPushBack value => PushBack value v w
  | OpPushBackMove value => PushBack_move value v w
  | OpPopBack => PopBack v w
  | OpEmplaceBack a => forget (EmplaceBack a v w)
  | OpEmplace pos a => forget (Emplace pos a v w)
  | OpErase pos => forget (Erase pos v w)
  | OpInsert pos value => forget (Insert pos value v w)
  | OpInsertMove pos value => forget (Insert_move pos value v w)
  end.

(** ** What a vector holds *)

(** The slots [lo, hi) of the block hold live objects. *)
Definition live_range (b : block) (lo hi : nat) : Prop :=
  forall j, (lo <= j < hi)%nat -> exists x, b !! j = Some (Some x).

(** The slots from [first] on hold live objects with the states [xs]. *)
Definition holds (b : block) (first : nat) (xs : list T) : Prop :=
  forall i x, xs !! i = Some x -> b !! (first + i)%nat = Some (Some x).

(** [represents v l]: the vector is in a valid state and holds the
    elements [l]: 0 <= size <= capacity, the block has capacity slots (so
    that their bytes are counted by a size_t), the slots [0, size) hold the
    live objects [l] and the slots [size, capacity) are raw. *)
Record represents (v : Vector) (l : list T) : Prop := {
  rep_size : size_ v = Z.of_nat (length l);
  rep_capacity : size_ v <= capacity_ (data_ v) < size_t_modulus;
  rep_bytes : capacity_ (data_ v) * sizeof_T < size_t_modulus;
  rep_buffer :
    buffer_ (data_ v) =
    (Some <$> l) ++ replicate (Z.to_nat (capacity_ (data_ v)) - length l) None
}.

(** The invariant of the data model. *)
Definition valid (v : Vector) : Prop := exists l, represents v l.

(** The list [l] with [x] put in at the index [pos]. *)
Definition inserted (pos : nat) (x : T) (l : list T) : list T :=
  take pos l ++ x :: drop pos l.

(** The list [l] without the element at the index [pos]. *)
Definition erased (pos : nat) (l : list T) : list T :=
  take pos l ++ drop (S pos) l.

(** The constructor call can construct the object [x]. *)
Definition constructs (args : ctor) (x : T) : Prop :=
  exists w0 w1, args w0 = (Some x, w1).

(** The arguments refer to nothing but live elements of a vector of [n]
    elements. *)
Definition arguments_live (a : arguments) (n : nat) : Prop :=
  match a with
  | Outside _ => True
  | MoveElement p => (p < n)%nat
  end.

(** T(args...) on a vector with the elements [l] can construct [x] and
    leave the vector with the elements [l']: the elements are untouched by
    arguments outside the vector, and an element that is moved from is left
    in some moved-from state. *)
Definition constructed (a : arguments) (l : list T) (x : T) (l' : list T)
  : Prop :=
  match a with
  | Outside args => constructs args x /\ l' = l
  | MoveElement p => l !! p = Some x /\ exists s', l' = <[p := s']> l
  end.

(** ** Growth

    The size and the capacity [n] appends after the empty vector: capacity 0
    for n = 0, and otherwise the power of two with n <= capacity < 2 n. *)
Definition grown (v : Vector) (n : Z) : Prop :=
  size_ v = n /\
  (n = 0 /\ capacity_ (data_ v) = 0 \/
   exists k, 0 <= k <= 63 /\ capacity_ (data_ v) = 2 ^ k /\
             n <= 2 ^ k /\ 2 ^ k < 2 * n).

(** ** Consecutive appends *)

Inductive append_call : Type :=
| ByPushBack (value : T)
| ByPushBackMove (value : rvalue_ref)
| ByEmplaceBack (a : arguments).

Definition do_append (c : append_call) (v : Vector) (w : W)
  : outcome unit * Vector * W :=
  match c with
  | ByPushBack value => PushBack value v w
  | ByPushBackMove value => PushBack_move value v w
  | ByEmplaceBack a => forget (EmplaceBack a v w)
  end.

(** The arguments of the constructor call of an append: T(value),
    T(std::move(value)), T(std::forward<Args>(args)...). *)
Definition call_args (c : append_call) : arguments :=
  match c with
  | ByPushBack value => Outside (copy_ctor value)
  | ByPushBackMove value => forward_rvalue value
  | ByEmplaceBack a => a
  end.

(** The references of consecutive appends to a vector of [n] elements are
    to elements that are alive when the call is made. *)
Fixpoint calls_live (cs : list append_call) (n : nat) : Prop :=
  match cs with
  | [] => True
  | c :: cs' => arguments_live (call_args c) n /\ calls_live cs' (S n)
  end.

(** The calls one after the other, as long as each returns. *)
Fixpoint appends (cs : list append_call) (v : Vector) (w : W)
  : outcome unit * Vector * W :=
  match cs with
  | [] => (Normal tt, v, w)
  | c :: cs' =>
    match do_append c v w with
    | (Normal _, v1, w1) => appends cs' v1 w1
    | r => r
    end
  end.

End AdvancedVector.

(** ** Element types that behave like values

    A copy equals its source; a move and a move assignment carry the
    source's value over; a copy assignment makes the target equal to the
    source.  Any of them may still throw. *)

Class ValueSemantics {T W : Type} (E : Element T W) : Prop := {
  copy_ctor_value :
    forall x w y w', copy_ctor x w = (Some y, w') -> y = x;
  move_ctor_value :
    forall x w y x' w', move_ctor x w = (Some (y, x'), w') -> y = x;
  copy_assign_value :
    forall d s w d' w', copy_assign d s w = (Some d', w') -> d' = s;
  move_assign_value :
    forall d s w d' s' w', move_assign d s w = (Some (d', s'), w') -> d' = s
}.

(** The migration of CopyOrMove cannot throw halfway through a move: the
    elements are copied, or T's move constructor does not throw. *)
Definition migration_safe {T W : Type} (E : Element T W) : Prop :=
  is_nothrow_move_constructible || negb is_copy_constructible = true ->
  forall (x : T) (w : W), fst (move_ctor x w) <> None.

(** Nothing can throw: the allocation succeeds and no special member
    function of T throws. *)
Record nothrow {T W : Type} (E : Element T W) : Prop := {
  nothrow_new : forall n w, fst (operator_new n w) = true;
  nothrow_default : forall w, fst (default_ctor w) <> None;
  nothrow_copy : forall (x : T) w, fst (copy_ctor x w) <> None;
  nothrow_move : forall (x : T) w, fst (move_ctor x w) <> None;
  nothrow_copy_assign : forall (d s : T) w, fst (copy_assign d s w) <> None;
  nothrow_move_assign : forall (d s : T) w, fst (move_assign d s w) <> None
}.

(** The constructor call does not throw. *)
Definition ctor_nothrow {T W : Type} (args : W -> option T * W) : Prop :=
  forall w, fst (args w) <> None.

(** The constructor call with these arguments does not throw. *)
Definition args_nothrow {T W : Type} {E : Element T W}
  (a : @arguments T W) : Prop :=
  match a with
  | Outside args => ctor_nothrow args
  | MoveElement _ => forall (x : T) (w : W), fst (move_ctor x w) <> None
  end.

(** The constructor call of an append does not throw. *)
Definition call_nothrow {T W : Type} {E : Element T W}
  (c : @append_call T W) : Prop :=
  args_nothrow (call_args c).

(** The preconditions of the operations: the bytes of the storage asked
    for are counted by a size_t, a position is in [begin, end] for an
    insertion and in [begin, end) for Erase, PopBack needs an element, the
    source of an assignment is a valid vector, a reference to an element is
    to one that exists. *)
Definition precondition {T W : Type} {E : Element T W}
  (op : @operation T W) (v : @Vector T) : Prop :=
  match op with
  | OpAssignCopy This => True
  | OpAssignCopy (Other rhs) => valid rhs
  | OpReserve n | OpResize n => 0 <= n /\ n * sizeof_T < size_t_modulus
  | OpPushBack _ => True
  | OpPushBackMove r =>
    arguments_live (forward_rvalue r) (Z.to_nat (Size v))
  | OpEmplaceBack a => arguments_live a (Z.to_nat (Size v))
  | OpPopBack => 0 < Size v
  | OpEmplace pos a =>
    Z.of_nat pos <= Size v /\ arguments_live a (Z.to_nat (Size v))
  | OpInsert pos _ => Z.of_nat pos <= Size v
  | OpInsertMove pos r =>
    Z.of_nat pos <= Size v /\
    arguments_live (forward_rvalue r) (Z.to_nat (Size v))
  | OpErase pos => Z.of_nat pos < Size v
  end.

(** ** Concrete element types

    The environment is the log of the values whose destructor ran, the most
    recent first.  A moved-from object holds 0.  An object has 8 bytes. *)

Module Obj.

Definition log : Type := list Z.

(** An int-like type: nothing throws. *)
Definition plain : Element Z log := {|
  default_ctor := fun w => (Some 0, w);
  copy_ctor := fun x w => (Some x, w);
  move_ctor := fun x w => (Some (x, 0), w);
  copy_assign := fun _ s w => (Some s, w);
  move_assign := fun _ s w => (Some (s, 0), w);
  dtor := fun x w => x :: w;
  is_nothrow_move_constructible := true;
  is_copy_constructible := true;
  sizeof_T := 8;
  sizeof_T_range := conj eq_refl eq_refl;
  operator_new := fun _ w => (true, w)
|}.

(** A copyable type whose move constructor may throw, so that CopyOrMove
    copies; copying an object that holds [bad] throws. *)
Definition throwing_copy (bad : Z) : Element Z log := {|
  default_ctor := fun w => (Some 0, w);
  copy_ctor := fun x w => if x =? bad then (None, w) else (Some x, w);
  move_ctor := fun x w => (Some (x, 0), w);
  copy_assign := fun _ s w => if s =? bad then (None, w) else (Some s, w);
  move_assign := fun _ s w => (Some (s, 0), w);
  dtor := fun x w => x :: w;
  is_nothrow_move_constructible := false;
  is_copy_constructible := true;
  sizeof_T := 8;
  sizeof_T_range := conj eq_refl eq_refl;
  operator_new := fun _ w => (true, w)
|}.

(** A move-only type whose move constructor throws on an object that holds
    [bad]; CopyOrMove moves it, there being no copy constructor (the
    [copy_ctor] field is never called). *)
Definition move_only (bad : Z) : Element Z log := {|
  default_ctor := fun w => (Some 0, w);
  copy_ctor := fun x w => (None, w);
  move_ctor := fun x w => if x =? bad then (None, w) else (Some (x, 0), w);
  copy_assign := fun _ s w => (None, w);
  move_assign := fun _ s w => (Some (s, 0), w);
  dtor := fun x w => x :: w;
  is_nothrow_move_constructible := false;
  is_copy_constructible := false;
  sizeof_T := 8;
  sizeof_T_range := conj eq_refl eq_refl;
  operator_new := fun _ w => (true, w)
|}.


(** T(x) from an int. *)
Definition make (x : Z) : log -> option Z * log := fun w => (Some x, w).

(** The vector with the given elements and capacity, for [extra] spare
    slots. *)
Definition vector_of (l : list Z) (extra : nat) : @Vector Z :=
  {| data_ := {| buffer_ := (Some <$> l) ++ replicate extra None;
                 capacity_ := Z.of_nat (length l + extra) |};
     size_ := Z.of_nat (length l) |}.

End Obj.

(** * Properties *)

(** ** size_t arithmetic that does not wrap *)

Lemma size_t_add_small a b :
  0 <= a + b < size_t_modulus -> size_t_add a b = a + b.
Proof. intros H. unfold size_t_add. apply Z.mod_small. exact H. Qed.

Lemma size_t_sub_small a b :
  0 <= a - b < size_t_modulus -> size_t_sub a b = a - b.
Proof. intros H. unfold size_t_sub. apply Z.mod_small. exact H. Qed.

Lemma size_t_mul_small a b :
  0 <= a * b < size_t_modulus -> size_t_mul a b = a * b.
Proof. intros H. unfold size_t_mul. apply Z.mod_small. exact H. Qed.

(** ** Blocks *)

Section Blocks.

Context {T W : Type} {E : Element T W}.

Local Open Scope nat_scope.

Local Abbreviation block := (list (option T)).

Implicit Types (b from to : block) (w : W).

Lemma holds_live b first xs :
  holds b first xs -> live_range b first (first + length xs).
Proof.
  intros H j Hj.
  destruct (lookup_lt_is_Some_2 xs (j - first)) as [x Hx]; [lia|].
  exists x. specialize (H _ _ Hx). replace (first + (j - first)) with j in H by lia.
  exact H.
Qed.

Lemma placement_new_length b i args w o b' w' :
  placement_new b i args w = (o, b', w') -> length b' = length b.
Proof.
  unfold placement_new. intros H.
  destruct (i <? length b); [destruct (args w) as [[x|] w1]|];
    simplify_eq; by rewrite ?length_insert.
Qed.

Lemma destroy_at_spec b i w b' w' :
  destroy_at b i w = Some (b', w') ->
  b' = <[i := None]> b /\ exists x, b !! i = Some (Some x) /\ w' = dtor x w.
Proof.
  unfold destroy_at. intros H.
  destruct (b !! i) as [[x|]|] eqn:Hb; simplify_eq. eauto.
Qed.

Lemma destroy_n_spec n : forall b first w b' w',
  destroy_n b first n w = Some (b', w') ->
  length b' = length b /\
  live_range b first (first + n) /\
  (forall j, first <= j < first + n -> b' !! j = Some None) /\
  (forall j, j < first \/ first + n <= j -> b' !! j = b !! j).
Proof.
  induction n as [|n IH]; intros b first w b' w' H; simpl in H.
  - simplify_eq. unfold live_range. repeat split; intros; try lia; done.
  - destruct (destroy_at b first w) as [[b1 w1]|] eqn:Hd; [|done].
    apply destroy_at_spec in Hd as (-> & x & Hx & ->).
    apply IH in H as (Hlen & Hlive & Hin & Hout).
    rewrite length_insert in Hlen.
    assert (Hlt : first < length b) by (by apply lookup_lt_Some in Hx).
    repeat split; [done| | |].
    + intros j Hj. destruct (decide (j = first)) as [->|Hne]; [eauto|].
      destruct (Hlive j) as [y Hy]; [lia|].
      rewrite list_lookup_insert_ne in Hy by lia. eauto.
    + intros j Hj. destruct (decide (j = first)) as [->|Hne].
      * rewrite Hout by lia. by rewrite list_lookup_insert_eq.
      * apply Hin. lia.
    + intros j Hj. rewrite Hout by lia. by rewrite list_lookup_insert_ne by lia.
Qed.

Lemma destroy_n_total n : forall b first w,
  live_range b first (first + n) ->
  exists b' w', destroy_n b first n w = Some (b', w').
Proof.
  induction n as [|n IH]; intros b first w Hlive; simpl; [eauto|].
  destruct (Hlive first) as [x Hx]; [lia|].
  unfold destroy_at. rewrite Hx.
  apply IH. intros j Hj. destruct (Hlive j) as [y Hy]; [lia|].
  exists y. by rewrite list_lookup_insert_ne by lia.
Qed.

Lemma unwind_spec b d_first current w o b' w' :
  unwind b d_first current w = (o, b', w') ->
  length b' = length b /\ o <> Normal tt /\
  (live_range b d_first current -> o = Threw) /\
  (forall j, j < d_first \/ current <= j -> b' !! j = b !! j).
Proof.
  unfold unwind. intros H.
  destruct (destroy_n b d_first (current - d_first) w) as [[b1 w1]|] eqn:Hd;
    injection H as <- <- <-.
  - apply destroy_n_spec in Hd as (Hlen & _ & _ & Hout).
    split_and!; [done|done|done|]. intros j Hj. apply Hout. lia.
  - split_and!; [done|done| |done].
    intros Hlive.
    destruct (destroy_n_total (current - d_first) b d_first w) as (? & ? & Hs).
    + intros j Hj. apply Hlive. lia.
    + congruence.
Qed.

End Blocks.

(** ** The algorithms of the standard library on blocks *)

Section Algorithms.

Context {T W : Type} {E : Element T W}.

Local Open Scope nat_scope.

Local Abbreviation block := (list (option T)).

Implicit Types (b from to : block) (w : W) (xs : list T).

Lemma holds_nil b first : holds b first [].
Proof. intros i x Hx. by rewrite lookup_nil in Hx. Qed.

Lemma holds_cons b first x xs :
  holds b first (x :: xs) <->
  b !! first = Some (Some x) /\ holds b (S first) xs.
Proof.
  split.
  - intros H. split.
    + specialize (H 0 x eq_refl). by rewrite Nat.add_0_r in H.
    + intros i y Hy. specialize (H (S i) y Hy).
      by replace (S first + i) with (first + S i) by lia.
  - intros [H0 H] [|i] y Hy; simpl in Hy.
    + simplify_eq. by rewrite Nat.add_0_r.
    + replace (first + S i) with (S first + i) by lia. by apply H.
Qed.

Lemma holds_ext b b' first xs :
  holds b first xs ->
  (forall j, first <= j < first + length xs -> b' !! j = b !! j) ->
  holds b' first xs.
Proof.
  intros H Heq i x Hx. rewrite Heq; [by apply H|].
  apply lookup_lt_Some in Hx. lia.
Qed.

Lemma live_range_insert b lo hi i x :
  live_range b lo hi -> i < length b -> live_range (<[i := Some x]> b) lo hi.
Proof.
  intros H Hi j Hj. destruct (decide (j = i)) as [->|Hne].
  - exists x. by rewrite list_lookup_insert_eq.
  - rewrite list_lookup_insert_ne by done. by apply H.
Qed.

Lemma live_range_extend b lo hi x :
  live_range b lo hi -> b !! hi = Some (Some x) -> live_range b lo (S hi).
Proof.
  intros H Hx j Hj. destruct (decide (j = hi)) as [->|Hne]; [eauto|].
  apply H. lia.
Qed.

(** What a run that returned tells about the ranges it went through. *)
Lemma uninitialized_copy_loop_bounds n :
  forall from first to d_first current w to' w',
  uninitialized_copy_loop from first n to d_first current w
    = (Normal tt, to', w') ->
  length to' = length to /\
  (n = 0 \/ current + n <= length to /\ first + n <= length from).
Proof.
  induction n as [|n IH]; intros from first to d_first current w to' w' H;
    simpl in H.
  - simplify_eq. lia.
  - destruct (from !! first) as [[x|]|] eqn:Hf; try done.
    apply lookup_lt_Some in Hf.
    destruct (placement_new to current (copy_ctor x) w) as [[o1 to1] w1] eqn:Hp.
    pose proof (placement_new_length _ _ _ _ _ _ _ Hp) as Hl1.
    unfold placement_new in Hp.
    destruct (current <? length to) eqn:Hc; [|by simplify_eq].
    apply Nat.ltb_lt in Hc.
    destruct o1 as [[]| |]; [|by apply unwind_spec in H as (_ & ? & _ & _)|done].
    apply IH in H as (Hl & Hs). lia.
Qed.

Lemma uninitialized_move_loop_bounds n :
  forall from first to d_first current w from' to' w',
  uninitialized_move_loop from first n to d_first current w
    = (Normal tt, (from', to'), w') ->
  length to' = length to /\ length from' = length from /\
  (n = 0 \/ current + n <= length to /\ first + n <= length from).
Proof.
  induction n as [|n IH]; intros from first to d_first current w from' to' w' H;
    simpl in H.
  - simplify_eq. lia.
  - destruct (from !! first) as [[x|]|] eqn:Hf; try done.
    apply lookup_lt_Some in Hf.
    destruct (current <? length to) eqn:Hc; [|done].
    apply Nat.ltb_lt in Hc.
    destruct (move_ctor x w) as [[[y x']|] w1].
    + apply IH in H as (Hl & Hl' & Hs).
      rewrite !length_insert in *. lia.
    + destruct (unwind to d_first current w1) as [[o1 to1] w2] eqn:Hu.
      apply unwind_spec in Hu as (_ & ? & _ & _). by simplify_eq.
Qed.

(** A throw of the move loop is a throw of T's move constructor. *)
Lemma uninitialized_move_loop_nothrow n :
  (forall (x : T) w, fst (move_ctor x w) <> None) ->
  forall from first to d_first current w o r w',
  uninitialized_move_loop from first n to d_first current w = (o, r, w') ->
  o <> Threw.
Proof.
  intros Hsafe.
  induction n as [|n IH]; intros from first to d_first current w o r w' H;
    simpl in H.
  - by simplify_eq.
  - destruct (from !! first) as [[x|]|]; try by simplify_eq.
    destruct (current <? length to); [|by simplify_eq].
    specialize (Hsafe x w).
    destruct (move_ctor x w) as [[[y x']|] w1]; [by eapply IH|done].
Qed.

Lemma uninitialized_copy_loop_nothrow n :
  (forall (x : T) w, fst (copy_ctor x w) <> None) ->
  forall from first to d_first current w o to' w',
  uninitialized_copy_loop from first n to d_first current w = (o, to', w') ->
  o <> Threw.
Proof.
  intros Hsafe.
  induction n as [|n IH]; intros from first to d_first current w o to' w' H;
    simpl in H.
  - by simplify_eq.
  - destruct (from !! first) as [[x|]|]; try by simplify_eq.
    unfold placement_new in H.
    destruct (current <? length to); [|by simplify_eq].
    specialize (Hsafe x w).
    destruct (copy_ctor x w) as [[y|] w1]; [by eapply IH|done].
Qed.

Lemma uninitialized_value_construct_loop_nothrow n :
  (forall w, fst (default_ctor w) <> None) ->
  forall b d_first current w o b' w',
  uninitialized_value_construct_loop b d_first current n w = (o, b', w') ->
  o <> Threw.
Proof.
  intros Hsafe.
  induction n as [|n IH]; intros b d_first current w o b' w' H; simpl in H.
  - by simplify_eq.
  - unfold placement_new in H.
    destruct (current <? length b); [|by simplify_eq].
    specialize (Hsafe w).
    destruct (default_ctor w) as [[y|] w1]; [by eapply IH|done].
Qed.

Lemma copy_n_nothrow n :
  (forall (d s : T) w, fst (copy_assign d s w) <> None) ->
  forall from first to d_first w o to' w',
  copy_n from first n to d_first w = (o, to', w') -> o <> Threw.
Proof.
  intros Hsafe.
  induction n as [|n IH]; intros from first to d_first w o to' w' H;
    simpl in H.
  - by simplify_eq.
  - destruct (from !! first) as [[s|]|]; try by simplify_eq.
    destruct (to !! d_first) as [[d|]|]; try by simplify_eq.
    specialize (Hsafe d s w).
    destruct (copy_assign d s w) as [[y|] w1]; [by eapply IH|done].
Qed.

Lemma move_loop_nothrow n :
  (forall (d s : T) w, fst (move_assign d s w) <> None) ->
  forall b first d_first w o b' w',
  move_loop b first n d_first w = (o, b', w') -> o <> Threw.
Proof.
  intros Hsafe.
  induction n as [|n IH]; intros b first d_first w o b' w' H; simpl in H.
  - by simplify_eq.
  - destruct (b !! first) as [[s|]|]; try by simplify_eq.
    destruct (b !! d_first) as [[d|]|]; try by simplify_eq.
    specialize (Hsafe d s w).
    destruct (move_assign d s w) as [[[y s']|] w1]; [by eapply IH|done].
Qed.

Lemma move_backward_loop_nothrow n :
  (forall (d s : T) w, fst (move_assign d s w) <> None) ->
  forall b first d_last w o b' w',
  move_backward_loop b first n d_last w = (o, b', w') -> o <> Threw.
Proof.
  intros Hsafe.
  induction n as [|n IH]; intros b first d_last w o b' w' H; simpl in H.
  - by simplify_eq.
  - destruct d_last as [|d_prev]; [by simplify_eq|].
    destruct (b !! (first + n)) as [[s|]|]; try by simplify_eq.
    destruct (b !! d_prev) as [[d|]|]; try by simplify_eq.
    specialize (Hsafe d s w).
    destruct (move_assign d s w) as [[[y s']|] w1]; [by eapply IH|done].
Qed.

Lemma CopyOrMove_nothrow from first size to d_first w o r w' :
  nothrow E ->
  CopyOrMove from first size to d_first w = (o, r, w') -> o <> Threw.
Proof.
  unfold CopyOrMove. intros Hsafe H.
  destruct (is_nothrow_move_constructible || negb is_copy_constructible).
  - destruct (uninitialized_move_n from first (Z.to_nat size) to d_first w)
      as [[o1 [from1 to1]] w1] eqn:Hm.
    apply uninitialized_move_loop_nothrow in Hm; [|apply Hsafe].
    destruct o1 as [[]| |]; try by simplify_eq.
    destruct (destroy_n from1 first (Z.to_nat size) w1) as [[from2 w2]|];
      by simplify_eq.
  - destruct (uninitialized_copy_n from first (Z.to_nat size) to d_first w)
      as [[o1 to1] w1] eqn:Hc.
    apply uninitialized_copy_loop_nothrow in Hc; [|apply Hsafe].
    destruct o1 as [[]| |]; try by simplify_eq.
    destruct (destroy_n from first (Z.to_nat size) w1) as [[from2 w2]|];
      by simplify_eq.
Qed.

Context {V : ValueSemantics E}.

Lemma uninitialized_copy_loop_spec n :
  forall from first to d_first current w xs o to' w',
  uninitialized_copy_loop from first n to d_first current w = (o, to', w') ->
  holds from first xs -> length xs = n ->
  d_first <= current -> current + n <= length to ->
  live_range to d_first current ->
  length to' = length to /\ o <> Violation /\
  (forall j, j < d_first \/ current + n <= j -> to' !! j = to !! j) /\
  (o = Normal tt ->
   holds to' current xs /\ forall j, j < current -> to' !! j = to !! j).
Proof.
  induction n as [|n IH];
    intros from first to d_first current w xs o to' w' H Hh Hn Hd Hb Hlive;
    simpl in H.
  - simplify_eq. destruct xs; [|done].
    split_and!; [done|done|done|]. intros _. split; [apply holds_nil|done].
  - destruct xs as [|x xs]; [done|]. simpl in Hn.
    apply holds_cons in Hh as [Hx Hh]. rewrite Hx in H.
    unfold placement_new in H.
    destruct (current <? length to) eqn:Hc; [|apply Nat.ltb_ge in Hc; lia].
    destruct (copy_ctor x w) as [[y|] w1] eqn:Hy.
    + apply copy_ctor_value in Hy as ->.
      eapply IH in H as (Hl & Hv & Hout & Hok); [|exact Hh|lia|lia| |].
      * rewrite length_insert in Hl. split_and!; [done|done| |].
        -- intros j Hj. rewrite Hout by lia.
           apply list_lookup_insert_ne. lia.
        -- intros ->. destruct Hok as [Hh' Hlow]; [done|].
           split.
           ++ apply holds_cons. split; [|done].
              rewrite Hlow by lia. apply list_lookup_insert_eq. lia.
           ++ intros j Hj. rewrite Hlow by lia.
              apply list_lookup_insert_ne. lia.
      * rewrite length_insert. lia.
      * eapply live_range_extend.
        -- apply live_range_insert; [done|lia].
        -- apply list_lookup_insert_eq. lia.
    + apply unwind_spec in H as (Hl & Hne & Ht & Hout).
      rewrite (Ht Hlive). split_and!; [done|done| |done].
      intros j Hj. apply Hout. lia.
Qed.

Lemma uninitialized_move_loop_spec n :
  forall from first to d_first current w xs o from' to' w',
  uninitialized_move_loop from first n to d_first current w
    = (o, (from', to'), w') ->
  holds from first xs -> length xs = n ->
  d_first <= current -> current + n <= length to ->
  live_range to d_first current ->
  length to' = length to /\ length from' = length from /\ o <> Violation /\
  live_range from' first (first + n) /\
  (forall j, j < first \/ first + n <= j -> from' !! j = from !! j) /\
  (forall j, j < d_first \/ current + n <= j -> to' !! j = to !! j) /\
  (o = Normal tt ->
   holds to' current xs /\ forall j, j < current -> to' !! j = to !! j).
Proof.
  induction n as [|n IH];
    intros from first to d_first current w xs o from' to' w' H Hh Hn Hd Hb Hlive;
    simpl in H.
  - simplify_eq. destruct xs; [|done].
    split_and!; [done|done|done|intros j Hj; lia|done|done|].
    intros _. split; [apply holds_nil|done].
  - destruct xs as [|x xs]; [done|]. simpl in Hn.
    pose proof (holds_live _ _ _ Hh) as Hfl. simpl in Hfl.
    apply holds_cons in Hh as [Hx Hh]. rewrite Hx in H.
    assert (Hfirst : first < length from) by (by apply lookup_lt_Some in Hx).
    destruct (current <? length to) eqn:Hc; [|apply Nat.ltb_ge in Hc; lia].
    destruct (move_ctor x w) as [[[y x']|] w1] eqn:Hy.
    + apply move_ctor_value in Hy as ->.
      eapply IH with (xs := xs) in H
        as (Hl & Hl' & Hv & Hlv & Hfo & Hout & Hok); [| |lia|lia| |].
      * rewrite !length_insert in *.
        split_and!; [done|done|done| | | |].
        -- intros j Hj. destruct (decide (j = first)) as [->|Hne].
           ++ exists x'. rewrite Hfo by lia. by apply list_lookup_insert_eq.
           ++ apply Hlv. lia.
        -- intros j Hj. rewrite Hfo by lia.
           apply list_lookup_insert_ne. lia.
        -- intros j Hj. rewrite Hout by lia.
           apply list_lookup_insert_ne. lia.
        -- intros ->. destruct Hok as [Hh' Hlow]; [done|].
           split.
           ++ apply holds_cons. split; [|done].
              rewrite Hlow by lia. apply list_lookup_insert_eq. lia.
           ++ intros j Hj. rewrite Hlow by lia.
              apply list_lookup_insert_ne. lia.
      * eapply holds_ext; [exact Hh|]. intros j Hj.
        apply list_lookup_insert_ne. lia.
      * rewrite length_insert. lia.
      * eapply live_range_extend.
        -- apply live_range_insert; [done|lia].
        -- apply list_lookup_insert_eq. lia.
    + destruct (unwind to d_first current w1) as [[o1 to1] w2] eqn:Hu.
      simplify_eq.
      apply unwind_spec in Hu as (Hl & Hne & Ht & Hout).
      rewrite (Ht Hlive).
      split_and!; [done|done|done| |done| |done].
      * intros j Hj. apply Hfl. lia.
      * intros j Hj. apply Hout. lia.
Qed.

Lemma holds_snoc b first xs x :
  holds b first (xs ++ [x]) <->
  holds b first xs /\ b !! (first + length xs) = Some (Some x).
Proof.
  split.
  - intros H. split.
    + intros i y Hy. apply H. by apply lookup_app_l_Some.
    + apply H. rewrite lookup_app_r by lia. by rewrite Nat.sub_diag.
  - intros [H Hx] i y Hy.
    destruct (decide (i < length xs)) as [Hi|Hi].
    + rewrite lookup_app_l in Hy by done. by apply H.
    + rewrite lookup_app_r in Hy by lia.
      destruct (i - length xs) as [|k] eqn:Hk; simpl in Hy; [|done].
      simplify_eq. by replace i with (length xs) by lia.
Qed.

Lemma copy_n_spec n :
  forall from first to d_first w xs o to' w',
  copy_n from first n to d_first w = (o, to', w') ->
  holds from first xs -> length xs = n ->
  live_range to d_first (d_first + n) ->
  length to' = length to /\ o <> Violation /\
  live_range to' d_first (d_first + n) /\
  (forall j, j < d_first \/ d_first + n <= j -> to' !! j = to !! j) /\
  (o = Normal tt -> holds to' d_first xs).
Proof.
  induction n as [|n IH];
    intros from first to d_first w xs o to' w' H Hh Hn Hlive; simpl in H.
  - simplify_eq. destruct xs; [|done].
    split_and!; [done|done|done|done|]. intros _. apply holds_nil.
  - destruct xs as [|x xs]; [done|]. simpl in Hn.
    apply holds_cons in Hh as [Hx Hh]. rewrite Hx in H.
    destruct (Hlive d_first) as [d Hd]; [lia|]. rewrite Hd in H.
    assert (Hlt : d_first < length to) by (by apply lookup_lt_Some in Hd).
    destruct (copy_assign d x w) as [[d'|] w1] eqn:Ha.
    + apply copy_assign_value in Ha as ->.
      eapply IH with (xs := xs) in H
        as (Hl & Hv & Hlv & Hout & Hok); [|done|lia|].
      * rewrite length_insert in Hl.
        assert (Hd' : to' !! d_first = Some (Some x)).
        { rewrite Hout by lia. by apply list_lookup_insert_eq. }
        split_and!; [done|done| | |].
        -- intros j Hj. destruct (decide (j = d_first)) as [->|Hne]; [eauto|].
           apply Hlv. lia.
        -- intros j Hj. rewrite Hout by lia.
           apply list_lookup_insert_ne. lia.
        -- intros Ho. apply holds_cons. split; [done|by apply Hok].
      * apply live_range_insert; [|done].
        intros k Hk. apply Hlive. lia.
    + simplify_eq. done.
Qed.

(** std::move of a range one slot to the left. *)
Lemma move_loop_shift_spec n :
  forall b d w xs o b' w',
  move_loop b (S d) n d w = (o, b', w') ->
  holds b (S d) xs -> length xs = n ->
  (exists x0, b !! d = Some (Some x0)) ->
  length b' = length b /\ o <> Violation /\
  live_range b' d (S d + n) /\
  (forall j, j < d \/ S d + n <= j -> b' !! j = b !! j) /\
  (o = Normal tt -> holds b' d xs).
Proof.
  induction n as [|n IH];
    intros b d w xs o b' w' H Hh Hn [x0 Hx0]; simpl in H.
  - simplify_eq. destruct xs; [|done].
    split_and!; [done|done| |done|].
    + intros j Hj. assert (j = d) as -> by lia. eauto.
    + intros _. apply holds_nil.
  - destruct xs as [|x xs]; [done|]. simpl in Hn.
    pose proof (holds_live _ _ _ Hh) as Hsrc. simpl in Hsrc.
    apply holds_cons in Hh as [Hx Hh]. rewrite Hx, Hx0 in H.
    assert (Hlt : S d < length b) by (by apply lookup_lt_Some in Hx).
    destruct (move_assign x0 x w) as [[[d' s']|] w1] eqn:Ha.
    + apply move_assign_value in Ha as ->.
      eapply IH with (xs := xs) in H
        as (Hl & Hv & Hlv & Hout & Hok); [| |lia|].
      * rewrite !length_insert in Hl.
        assert (Hd' : b' !! d = Some (Some x)).
        { rewrite Hout by lia. rewrite list_lookup_insert_ne by lia.
          apply list_lookup_insert_eq. lia. }
        split_and!; [done|done| | |].
        -- intros j Hj. destruct (decide (j = d)) as [->|Hne]; [eauto|].
           apply Hlv. lia.
        -- intros j Hj. rewrite Hout by lia.
           by rewrite !list_lookup_insert_ne by lia.
        -- intros Ho. apply holds_cons. split; [done|by apply Hok].
      * eapply holds_ext; [exact Hh|]. intros j Hj.
        by rewrite !list_lookup_insert_ne by lia.
      * exists s'. apply list_lookup_insert_eq. rewrite length_insert. lia.
    + simplify_eq. split_and!; [done|done| |done|done].
      intros j Hj. destruct (decide (j = d)) as [->|Hne]; [eauto|].
      apply Hsrc. lia.
Qed.

(** std::move_backward of a range one slot to the right. *)
Lemma move_backward_loop_shift_spec n :
  forall b first d_last w xs o b' w',
  move_backward_loop b first n d_last w = (o, b', w') ->
  d_last = S (first + n) ->
  holds b first xs -> length xs = n ->
  (exists y, b !! (first + n) = Some (Some y)) ->
  length b' = length b /\ o <> Violation /\
  live_range b' first (S (first + n)) /\
  (forall j, j < first \/ S (first + n) <= j -> b' !! j = b !! j) /\
  (o = Normal tt -> holds b' (S first) xs).
Proof.
  induction n as [|n IH];
    intros b first d_last w xs o b' w' H -> Hh Hn [y Hy]; simpl in H.
  - simplify_eq. destruct xs; [|done].
    split_and!; [done|done| |done|].
    + intros j Hj. assert (j = first + 0) as -> by lia. eauto.
    + intros _. apply holds_nil.
  - destruct xs as [|x xs _] using rev_ind; [done|].
    rewrite length_app in Hn. simpl in Hn.
    assert (Hlen : length xs = n) by lia.
    pose proof (holds_live _ _ _ Hh) as Hsrc.
    rewrite length_app in Hsrc. simpl in Hsrc.
    apply holds_snoc in Hh as [Hh Hx]. rewrite Hlen in Hx.
    rewrite Hx, Hy in H.
    assert (Hlt : first + S n < length b) by (by apply lookup_lt_Some in Hy).
    destruct (move_assign y x w) as [[[d' s']|] w1] eqn:Ha.
    + apply move_assign_value in Ha as ->.
      eapply IH with (xs := xs) in H
        as (Hl & Hv & Hlv & Hout & Hok); [|lia| |done|].
      * rewrite !length_insert in Hl.
        assert (Hd' : b' !! (first + S n) = Some (Some x)).
        { rewrite Hout by lia. rewrite list_lookup_insert_ne by lia.
          apply list_lookup_insert_eq. lia. }
        split_and!; [done|done| | |].
        -- intros j Hj.
           destruct (decide (j = first + S n)) as [->|Hne]; [eauto|].
           apply Hlv. lia.
        -- intros j Hj. rewrite Hout by lia.
           by rewrite !list_lookup_insert_ne by lia.
        -- intros Ho. apply holds_snoc. split; [by apply Hok|].
           rewrite Hlen. by replace (S first + n) with (first + S n) by lia.
      * eapply holds_ext; [exact Hh|]. intros j Hj.
        by rewrite !list_lookup_insert_ne by lia.
      * exists s'. apply list_lookup_insert_eq. rewrite length_insert. lia.
    + injection H as <- <- <-. split_and!; [done|done| |done|done].
      intros j Hj.
      destruct (decide (j = first + S n)) as [->|Hne]; [eauto|].
      apply Hsrc. lia.
Qed.

(** std::uninitialized_value_construct_n *)
Lemma uninitialized_value_construct_loop_spec n :
  forall b d_first current w o b' w',
  uninitialized_value_construct_loop b d_first current n w = (o, b', w') ->
  current + n <= length b ->
  live_range b d_first current ->
  length b' = length b /\ o <> Violation /\
  (o = Normal tt ->
   live_range b' current (current + n) /\
   forall j, j < current \/ current + n <= j -> b' !! j = b !! j).
Proof.
  induction n as [|n IH]; intros b d_first current w o b' w' H Hb Hlive;
    simpl in H.
  - simplify_eq. split_and!; [done|done|]. intros _.
    split; [intros j Hj; lia|done].
  - unfold placement_new in H.
    destruct (current <? length b) eqn:Hc; [|apply Nat.ltb_ge in Hc; lia].
    destruct (default_ctor w) as [[x|] w1].
    + assert (Hx : <[current := Some x]> b !! current = Some (Some x)).
      { apply list_lookup_insert_eq. lia. }
      eapply IH in H as (Hl & Hv & Hok).
      * rewrite length_insert in Hl. split_and!; [done|done|].
        intros ->. destruct Hok as [Hlv Hout]; [done|].
        split.
        -- intros j Hj. destruct (decide (j = current)) as [->|Hne].
           ++ exists x. by rewrite Hout by lia.
           ++ apply Hlv. lia.
        -- intros j Hj. rewrite Hout by lia.
           apply list_lookup_insert_ne. lia.
      * rewrite length_insert. lia.
      * eapply live_range_extend; [|exact Hx].
        apply live_range_insert; [done|lia].
    + apply unwind_spec in H as (Hl & Hne & Ht & _).
      rewrite (Ht Hlive). done.
Qed.

(** *** CopyOrMove *)

Lemma CopyOrMove_bounds from first size to d_first w from' to' w' :
  CopyOrMove from first size to d_first w = (Normal tt, (from', to'), w') ->
  length to' = length to /\ length from' = length from /\
  (Z.to_nat size = 0 \/
   d_first + Z.to_nat size <= length to /\
   first + Z.to_nat size <= length from).
Proof.
  unfold CopyOrMove. intros H.
  destruct (is_nothrow_move_constructible || negb is_copy_constructible).
  - destruct (uninitialized_move_n from first (Z.to_nat size) to d_first w)
      as [[o [from1 to1]] w1] eqn:Hm.
    destruct o as [[]| |]; try done.
    apply uninitialized_move_loop_bounds in Hm as (Hl & Hl' & Hb).
    destruct (destroy_n from1 first (Z.to_nat size) w1) as [[from2 w2]|] eqn:Hd;
      [|done].
    apply destroy_n_spec in Hd as (Hl2 & _). simplify_eq.
    split_and!; [done|congruence|done].
  - destruct (uninitialized_copy_n from first (Z.to_nat size) to d_first w)
      as [[o to1] w1] eqn:Hc.
    destruct o as [[]| |]; try done.
    apply uninitialized_copy_loop_bounds in Hc as (Hl & Hb).
    destruct (destroy_n from first (Z.to_nat size) w1) as [[from2 w2]|] eqn:Hd;
      [|done].
    apply destroy_n_spec in Hd as (Hl2 & _). simplify_eq.
    split_and!; done.
Qed.

(** When the migration is safe, a throw of CopyOrMove leaves the source
    block as it was. *)
Lemma CopyOrMove_threw from first size to d_first w from' to' w' :
  migration_safe E ->
  CopyOrMove from first size to d_first w = (Threw, (from', to'), w') ->
  from' = from.
Proof.
  unfold CopyOrMove, migration_safe. intros Hsafe H.
  destruct (is_nothrow_move_constructible || negb is_copy_constructible).
  - destruct (uninitialized_move_n from first (Z.to_nat size) to d_first w)
      as [[o [from1 to1]] w1] eqn:Hm.
    apply uninitialized_move_loop_nothrow in Hm; [|by apply Hsafe].
    destruct o as [[]| |]; try done.
    by destruct (destroy_n from1 first (Z.to_nat size) w1) as [[from2 w2]|].
  - destruct (uninitialized_copy_n from first (Z.to_nat size) to d_first w)
      as [[o to1] w1] eqn:Hc.
    destruct o as [[]| |]; try by simplify_eq.
    by destruct (destroy_n from first (Z.to_nat size) w1) as [[from2 w2]|].
Qed.

Lemma CopyOrMove_spec from first size to d_first w xs o from' to' w' :
  CopyOrMove from first size to d_first w = (o, (from', to'), w') ->
  holds from first xs -> length xs = Z.to_nat size ->
  d_first + length xs <= length to ->
  length to' = length to /\ length from' = length from /\ o <> Violation /\
  (forall j, j < first \/ first + length xs <= j -> from' !! j = from !! j) /\
  (forall j, j < d_first \/ d_first + length xs <= j -> to' !! j = to !! j) /\
  (o = Normal tt ->
   holds to' d_first xs /\
   (forall j, first <= j < first + length xs -> from' !! j = Some None)).
Proof.
  unfold CopyOrMove. intros H Hh Hn Hb. rewrite <- Hn in H.
  assert (Hlive0 : live_range to d_first d_first) by (intros j Hj; lia).
  destruct (is_nothrow_move_constructible || negb is_copy_constructible).
  - destruct (uninitialized_move_n from first (length xs) to d_first w)
      as [[o1 [from1 to1]] w1] eqn:Hm.
    eapply uninitialized_move_loop_spec in Hm
      as (Hl & Hl' & Hv & Hlv & Hfo & Hto & Hok); [|done|done|done|lia|done].
    destruct o1 as [[]| |]; [|by simplify_eq|done].
    destruct (destroy_n_total (length xs) from1 first w1 Hlv) as (f2 & w2 & Hd).
    rewrite Hd in H. simplify_eq.
    apply destroy_n_spec in Hd as (Hl2 & _ & Hin & Hout).
    destruct Hok as [Hh' _]; [done|].
    split_and!; [done|congruence|done| |done|].
    + intros j Hj. rewrite Hout by lia. by apply Hfo.
    + intros _. split_and!; done.
  - destruct (uninitialized_copy_n from first (length xs) to d_first w)
      as [[o1 to1] w1] eqn:Hc.
    eapply uninitialized_copy_loop_spec in Hc
      as (Hl & Hv & Hto & Hok); [|done|done|done|lia|done].
    destruct o1 as [[]| |]; [|by simplify_eq|done].
    destruct (destroy_n_total (length xs) from first w1 (holds_live _ _ _ Hh))
      as (f2 & w2 & Hd).
    rewrite Hd in H. simplify_eq.
    apply destroy_n_spec in Hd as (Hl2 & _ & Hin & Hout).
    destruct Hok as [Hh' _]; [done|].
    split_and!; [done|done|done|done|done|].
    intros _. split_and!; done.
Qed.

End Algorithms.

(** ** Valid vectors *)

Section Representation.

Context {T W : Type} {E : Element T W}.

Local Abbreviation block := (list (option T)).

Implicit Types (v : @Vector T) (l : list T) (w : W).

Lemma represents_length v l :
  represents v l ->
  length (buffer_ (data_ v)) = Z.to_nat (capacity_ (data_ v)) /\
  (length l <= Z.to_nat (capacity_ (data_ v)))%nat /\
  Z.to_nat (size_ v) = length l.
Proof.
  intros [Hs Hc Hy Hb]. rewrite Hb, length_app, length_fmap, length_replicate.
  lia.
Qed.

Lemma represents_holds v l : represents v l -> holds (buffer_ (data_ v)) 0 l.
Proof.
  intros [Hs Hc Hy Hb] i x Hx. rewrite Hb. simpl.
  rewrite lookup_app_l by (rewrite length_fmap; by apply lookup_lt_Some in Hx).
  by rewrite list_lookup_fmap, Hx.
Qed.

Lemma represents_raw v l j :
  represents v l ->
  (length l <= j < Z.to_nat (capacity_ (data_ v)))%nat ->
  buffer_ (data_ v) !! j = Some None.
Proof.
  intros [Hs Hc Hy Hb] Hj. rewrite Hb.
  rewrite lookup_app_r by (rewrite length_fmap; lia).
  rewrite length_fmap. apply lookup_replicate_2. lia.
Qed.

Lemma represents_intro v l :
  size_ v = Z.of_nat (length l) ->
  size_ v <= capacity_ (data_ v) /\
    capacity_ (data_ v) * sizeof_T < size_t_modulus ->
  length (buffer_ (data_ v)) = Z.to_nat (capacity_ (data_ v)) ->
  holds (buffer_ (data_ v)) 0 l ->
  (forall j, (length l <= j < length (buffer_ (data_ v)))%nat ->
             buffer_ (data_ v) !! j = Some None) ->
  represents v l.
Proof.
  intros Hs [Hc Hy] Hlen Hh Hraw.
  pose proof (@sizeof_T_range _ _ E) as Hsz.
  split; [done|nia|done|].
  apply list_eq. intros i.
  destruct (decide (i < length l)%nat) as [Hi|Hi].
  - rewrite lookup_app_l by (by rewrite length_fmap).
    rewrite list_lookup_fmap.
    destruct (lookup_lt_is_Some_2 l i Hi) as [x Hx].
    rewrite Hx. apply (Hh i x Hx).
  - rewrite lookup_app_r by (rewrite length_fmap; lia).
    rewrite length_fmap.
    destruct (decide (i < length (buffer_ (data_ v)))%nat) as [Hi'|Hi'].
    + rewrite Hraw by lia. symmetry. apply lookup_replicate_2. lia.
    + rewrite lookup_ge_None_2 by lia. symmetry.
      apply lookup_replicate_None. lia.
Qed.

(** operator[] reads the elements. *)
Lemma represents_at v l i :
  represents v l -> 0 <= i -> at_ v i = l !! Z.to_nat i.
Proof.
  intros H Hi. pose proof (represents_length _ _ H) as (Hlen & Hle & Hsz).
  destruct H as [Hs Hc Hy Hb].
  unfold at_, RawMemory_at.
  destruct (i <? size_ v) eqn:Hlt.
  - apply Z.ltb_lt in Hlt.
    destruct (i <? capacity_ (data_ v)) eqn:Hlt'; [|apply Z.ltb_ge in Hlt'; lia].
    destruct (lookup_lt_is_Some_2 l (Z.to_nat i)) as [x Hx]; [lia|].
    rewrite Hx, Hb, lookup_app_l by (rewrite length_fmap; lia).
    by rewrite list_lookup_fmap, Hx.
  - apply Z.ltb_ge in Hlt. symmetry. apply lookup_ge_None. lia.
Qed.

Lemma represents_default : represents (@Vector_default T) [].
Proof.
  split; simpl; [done|unfold size_t_modulus; lia|by vm_compute|done].
Qed.

(** The slots of a block of n * sizeof(T) bytes, the product being a
    size_t: n of them if the product has not wrapped around, and fewer
    otherwise. *)
Lemma slots_exact n :
  0 <= n -> n * sizeof_T < size_t_modulus ->
  size_t_mul n sizeof_T / sizeof_T = n.
Proof.
  intros Hn Hfit. pose proof (@sizeof_T_range _ _ E) as Hs.
  unfold size_t_mul. rewrite Z.mod_small by nia.
  apply Z.div_mul. lia.
Qed.

Lemma slots_wrapped n :
  0 <= n -> size_t_modulus <= n * sizeof_T ->
  size_t_mul n sizeof_T / sizeof_T < n.
Proof.
  intros Hn Hwrap. pose proof (@sizeof_T_range _ _ E) as Hs.
  unfold size_t_mul.
  assert (Hm : 0 <= (n * sizeof_T) mod size_t_modulus < size_t_modulus)
    by (apply Z.mod_pos_bound; lia).
  apply Z.div_lt_upper_bound; [lia|]. nia.
Qed.

(** The slots of a block of n * sizeof(T) bytes are at most n. *)
Lemma slots_le n :
  0 <= n -> size_t_mul n sizeof_T / sizeof_T <= n.
Proof.
  intros Hn.
  destruct (decide (n * sizeof_T < size_t_modulus)) as [Hfit|Hwrap].
  - by rewrite slots_exact.
  - pose proof (slots_wrapped n Hn ltac:(lia)). lia.
Qed.

(** The bytes of fewer objects are fewer. *)
Lemma bytes_le (a b : Z) :
  0 <= a <= b -> b * sizeof_T < size_t_modulus ->
  a * sizeof_T < size_t_modulus.
Proof. intros Hab Hb. pose proof (@sizeof_T_range _ _ E) as Hs. nia. Qed.

Lemma Allocate_block n w b w' :
  Allocate n w = (Some b, w') -> 0 <= n ->
  b = replicate (Z.to_nat (size_t_mul n sizeof_T / sizeof_T)) None.
Proof.
  unfold Allocate. intros H Hn.
  destruct (n =? 0) eqn:Hz; simpl in H.
  - apply Z.eqb_eq in Hz as ->. by simplify_eq.
  - destruct (operator_new _ w) as [[] w1]; by simplify_eq.
Qed.

Lemma Allocate_spec n w o w' :
  Allocate n w = (o, w') -> 0 <= n /\ n * sizeof_T < size_t_modulus ->
  match o with
  | Some b => b = replicate (Z.to_nat n) None
  | None => True
  end.
Proof.
  intros H [Hn Hfit]. destruct o as [b|]; [|done].
  apply Allocate_block in H as ->; [|done]. by rewrite slots_exact.
Qed.

(** RawMemory(n): the capacity is n whatever the block is. *)
Lemma RawMemory_new_block n w m w' :
  RawMemory_new n w = (Some m, w') -> 0 <= n ->
  m = {| buffer_ :=
           replicate (Z.to_nat (size_t_mul n sizeof_T / sizeof_T)) None;
         capacity_ := n |}.
Proof.
  unfold RawMemory_new. intros H Hn.
  destruct (Allocate n w) as [[b|] w1] eqn:Ha; simplify_eq.
  by apply Allocate_block in Ha as ->.
Qed.

Lemma RawMemory_new_spec n w o w' :
  RawMemory_new n w = (o, w') -> 0 <= n /\ n * sizeof_T < size_t_modulus ->
  match o with
  | Some m => m = {| buffer_ := replicate (Z.to_nat n) None; capacity_ := n |}
  | None => True
  end.
Proof.
  unfold RawMemory_new. intros H Hn.
  destruct (Allocate n w) as [[b|] w1] eqn:Ha; simplify_eq; [|done].
  by apply Allocate_spec in Ha as ->.
Qed.

End Representation.

(** ** The container *)

Section Container.

Context {T W : Type} {E : Element T W}.

Local Abbreviation block := (list (option T)).

Implicit Types (v other rhs : @Vector T) (l : list T) (w : W).
Implicit Types (a : @arguments T W).

(** The bytes of a number of objects are counted by a size_t. *)
Local Ltac fits :=
  first [ lia
        | split; [lia|]; first [lia | eapply bytes_le; [|eassumption]; lia] ].

Lemma with_buffer_same v : with_buffer v (buffer_ (data_ v)) = v.
Proof. by destruct v as [[b c] s]. Qed.

Lemma uninitialized_value_construct_loop_bounds n :
  forall (b : block) d_first current w b' w',
  uninitialized_value_construct_loop b d_first current n w
    = (Normal tt, b', w') ->
  n = 0%nat \/ (current + n <= length b)%nat.
Proof.
  induction n as [|n IH]; intros b d_first current w b' w' H; simpl in H.
  - by left.
  - right. unfold placement_new in H.
    destruct (current <? length b)%nat eqn:Hc; [|done].
    apply Nat.ltb_lt in Hc.
    destruct (default_ctor w) as [[x|] w1].
    + apply IH in H. rewrite length_insert in H. lia.
    + by apply unwind_spec in H as (_ & ? & _ & _).
Qed.

Lemma RawMemory_new_failed n w w' :
  RawMemory_new n w = (None, w') -> ~ nothrow E.
Proof.
  unfold RawMemory_new, Allocate. intros H Hsafe.
  destruct (negb (n =? 0)); [|done].
  pose proof (nothrow_new _ Hsafe (size_t_mul n sizeof_T) w) as Hn.
  destruct (operator_new _ w) as [[] w1]; done.
Qed.

Lemma RawMemory_new_capacity n w m w' :
  RawMemory_new n w = (Some m, w') -> capacity_ m = n.
Proof.
  unfold RawMemory_new. intros H.
  destruct (Allocate n w) as [[b|] w1]; by simplify_eq.
Qed.

Lemma raw_lookup (n j : nat) :
  (j < n)%nat -> replicate n (@None T) !! j = Some None.
Proof. apply lookup_replicate_2. Qed.

(** What a constructor call leaves of the block of the vector. *)
Lemma construct_block a (own : block) w x b w' :
  construct a own w = (Normal (x, b), w') ->
  length b = length own /\
  match a with
  | Outside _ => b = own
  | MoveElement p => exists s', b = <[p := Some s']> own
  end.
Proof.
  unfold construct. intros H. destruct a as [args|p].
  - destruct (args w) as [[y|] w1]; by simplify_eq.
  - destruct (own !! p) as [[s|]|]; [|done|done].
    destruct (move_ctor s w) as [[[y s']|] w1]; [|done].
    simplify_eq. rewrite length_insert. eauto.
Qed.





Context {V : ValueSemantics E}.

Lemma Vector_copy_cases other l w o w' :
  represents other l ->
  Vector_copy other w = (o, w') ->
  match o with
  | Normal v => represents v l /\ Capacity v = Size other
  | Threw => ~ nothrow E
  | Violation => False
  end.
Proof.
  intros Hrep H.
  pose proof (represents_length _ _ Hrep) as (Hlen & Hle & Hsz).
  pose proof (represents_holds _ _ Hrep) as Hh.
  pose proof (rep_capacity _ _ Hrep) as Hcap.
  pose proof (rep_bytes _ _ Hrep) as Hbytes.
  pose proof (rep_size _ _ Hrep) as Hsize.
  unfold Vector_copy in H.
  destruct (RawMemory_new (size_ other) w) as [[data|] w1] eqn:Hnew.
  2:{ simplify_eq. by eapply RawMemory_new_failed. }
  apply RawMemory_new_spec in Hnew as ->; [|fits]. simpl in H.
  destruct (uninitialized_copy_n _ _ _ _ _ w1) as [[o1 b] w2] eqn:Hc.
  pose proof Hc as Hc'.
  eapply uninitialized_copy_loop_spec with (xs := l) in Hc
    as (Hl & Hv & _ & Hok); [|done|done|done| |intros j Hj; lia].
  2:{ rewrite length_replicate. unfold GetAddress. lia. }
  rewrite length_replicate in Hl.
  destruct o1 as [[]| |]; simpl in H; injection H as <- <-; [| |done].
  - destruct Hok as [Hh' Hout]; [done|].
    split; [|done].
    apply represents_intro; simpl; [done|fits|done|done|].
    intros j Hj. lia.
  - intros Hsafe.
    by eapply uninitialized_copy_loop_nothrow in Hc'; [|apply Hsafe].
Qed.

Lemma live_range_holds (b : block) lo n :
  live_range b lo (lo + n) -> exists xs, length xs = n /\ holds b lo xs.
Proof.
  revert lo. induction n as [|n IH]; intros lo Hlive.
  - exists []. split; [done|apply holds_nil].
  - destruct (Hlive lo) as [x Hx]; [lia|].
    destruct (IH (S lo)) as (xs & Hlen & Hxs).
    { intros j Hj. apply Hlive. lia. }
    exists (x :: xs). split; [simpl; lia|]. by apply holds_cons.
Qed.


(** C10: the copy constructor.  The copy holds the elements of the source,
    equal index by index, and its capacity is the size of the source, not
    its capacity; so the copy of a vector with spare capacity has a smaller
    capacity than the source.  The call returns unless the allocation or
    T's copy constructor throws. *)
Theorem copy_construct_spec other l w :
  represents other l ->
  match Vector_copy other w with
  | (Normal v, _) =>
    represents v l /\
    (forall i, 0 <= i -> at_ v i = at_ other i) /\
    Capacity v = Size other /\
    (Size other < Capacity other -> Capacity v < Capacity other)
  | (Threw, _) => ~ nothrow E
  | (Violation, _) => False
  end.
Proof.
  intros Hrep.
  destruct (Vector_copy other w) as [o w'] eqn:H.
  pose proof (Vector_copy_cases _ _ _ _ _ Hrep H) as Hc.
  destruct o as [v| |]; [|done|done].
  destruct Hc as [Hr Hcap].
  split_and!; [done| |done|lia].
  intros i Hi.
  by rewrite (represents_at _ _ _ Hr), (represents_at _ _ _ Hrep).
Qed.

(** A throw of Reserve: that of the allocation leaves the vector as it
    was, and so does that of the migration when the migration is safe. *)
Lemma Reserve_threw n v w v' w' :
  Reserve n v w = (Threw, v', w') ->
  Size v' = Size v /\ Capacity v' = Capacity v /\
  (fst (RawMemory_new n w) = None -> v' = v) /\
  (migration_safe E -> v' = v) /\ ~ nothrow E.
Proof.
  unfold Reserve. intros H.
  destruct (n <=? RawMemory_Capacity (data_ v)); [done|].
  destruct (RawMemory_new n w) as [[new_data|] w1] eqn:Hnew.
  2:{ injection H as <- <-.
      split_and!; [done|done|done|done|by eapply RawMemory_new_failed]. }
  destruct (CopyOrMove _ _ _ _ _ w1) as [[o [ob nb]] w2] eqn:Hm.
  destruct o as [[]| |]; simpl in H; [done| |done].
  injection H as <- <-. split_and!; [done|done|done| |].
  - intros Hsafe. apply CopyOrMove_threw in Hm as ->; [|done].
    apply with_buffer_same.
  - intros Hsafe. by eapply CopyOrMove_nothrow in Hm.
Qed.

Lemma Reserve_cases n v l w :
  represents v l ->
  0 <= n ->
  (n <= Capacity v -> Reserve n v w = (Normal tt, v, w)) /\
  (Capacity v < n ->
   match Reserve n v w with
   | (Normal _, v', _) =>
     Capacity v' = n /\ n <= Capacity v' /\ Size v' = Size v /\
     (n * sizeof_T < size_t_modulus -> represents v' l) /\
     (size_t_modulus <= n * sizeof_T -> ~ valid v')
   | (Threw, v', _) =>
     Size v' = Size v /\ Capacity v' = Capacity v /\
     (fst (RawMemory_new n w) = None -> v' = v) /\
     (migration_safe E -> v' = v) /\ ~ nothrow E
   | (Violation, _, _) => size_t_modulus <= n * sizeof_T
   end).
Proof.
  intros Hrep Hn.
  pose proof (represents_length _ _ Hrep) as (Hlen & Hle & Hsz).
  pose proof (represents_holds _ _ Hrep) as Hh.
  pose proof (rep_capacity _ _ Hrep) as Hcap.
  pose proof (rep_bytes _ _ Hrep) as Hbytes.
  pose proof (rep_size _ _ Hrep) as Hsize.
  split.
  - unfold Reserve, Capacity, RawMemory_Capacity.
    intros Hle'. apply Z.leb_le in Hle'. by rewrite Hle'.
  - intros Hlt.
    destruct (Reserve n v w) as [[o v'] w'] eqn:H.
    destruct o as [[]| |]; [| by eapply Reserve_threw|].
    + (* it returned *)
      unfold Reserve, Capacity, RawMemory_Capacity in *.
      destruct (n <=? capacity_ (data_ v)) eqn:Hc;
        [apply Z.leb_le in Hc; lia|].
      destruct (RawMemory_new n w) as [[new_data|] w1] eqn:Hnew; [|done].
      pose proof (RawMemory_new_capacity _ _ _ _ Hnew) as Hnc.
      destruct (CopyOrMove _ _ _ _ _ w1) as [[o [ob nb]] w2] eqn:Hm.
      destruct o as [[]| |]; simpl in H; [|done|done].
      injection H as <- <-. simpl.
      split_and!; [done|lia|done| |].
      * intros Hfit.
        apply RawMemory_new_spec in Hnew as ->; [|done]. simpl in Hm.
        eapply CopyOrMove_spec with (xs := l) in Hm
          as (Hl & Hl' & Hv & Hfo & Hout & Hok); [|done|done|].
        2:{ rewrite length_replicate. unfold GetAddress. lia. }
        rewrite length_replicate in Hl.
        destruct Hok as (Hh' & _); [done|].
        apply represents_intro; simpl; [done|lia|done|done|].
        intros j Hj. unfold GetAddress in Hout. rewrite Hout by lia.
        apply raw_lookup. lia.
      * intros Hwrap [l' Hr]. pose proof (rep_bytes _ _ Hr) as Hb'.
        simpl in Hb'. lia.
    + (* undefined behaviour *)
      destruct (decide (n * sizeof_T < size_t_modulus)) as [Hfit|]; [|lia].
      exfalso.
      unfold Reserve, Capacity, RawMemory_Capacity in *.
      destruct (n <=? capacity_ (data_ v)); [done|].
      destruct (RawMemory_new n w) as [[new_data|] w1] eqn:Hnew; [|done].
      apply RawMemory_new_spec in Hnew as ->; [|done]. simpl in H.
      destruct (CopyOrMove _ _ _ _ _ w1) as [[o [ob nb]] w2] eqn:Hm.
      eapply CopyOrMove_spec with (xs := l) in Hm
        as (Hl & Hl' & Hv & Hfo & Hout & Hok); [|done|done|].
      2:{ rewrite length_replicate. unfold GetAddress. lia. }
      destruct o as [[]| |]; by simpl in H.
Qed.

(** C7 (amended): Reserve.  With n at most the capacity it does nothing.
    Otherwise, if the n * sizeof(T) bytes it asks for are counted by a
    size_t: when it returns, the capacity is n and the size and the
    elements are unchanged, and its behaviour is not undefined.  When it
    throws, the size and the capacity are what they were; the vector is
    untouched if the exception is that of the allocation, whatever T is,
    and, if it is an exception of the migration, provided the migration is
    safe, i.e. the elements are copied or T's move constructor does not
    throw.  If n * sizeof(T) wraps around, Allocate asks for fewer bytes
    than n objects need: a Reserve that returns then leaves the capacity n
    over a smaller block, which is no valid vector. *)
Theorem Reserve_spec n v l w :
  represents v l ->
  0 <= n ->
  (n <= Capacity v -> Reserve n v w = (Normal tt, v, w)) /\
  (Capacity v < n ->
   match Reserve n v w with
   | (Normal _, v', _) =>
     Capacity v' = n /\ n <= Capacity v' /\ Size v' = Size v /\
     (n * sizeof_T < size_t_modulus -> represents v' l) /\
     (size_t_modulus <= n * sizeof_T -> ~ valid v')
   | (Threw, v', _) =>
     Size v' = Size v /\ Capacity v' = Capacity v /\
     (fst (RawMemory_new n w) = None -> v' = v) /\
     (migration_safe E -> v' = v) /\ ~ nothrow E
   | (Violation, _, _) => size_t_modulus <= n * sizeof_T
   end).
Proof. apply Reserve_cases. Qed.

(** *** Growth by doubling *)

Lemma pow2_le_62 k : 0 <= k <= 62 -> 0 < 2 ^ k <= 4611686018427387904.
Proof.
  intros Hk. split; [apply Z.pow_pos_nonneg; lia|].
  change 4611686018427387904 with (2 ^ 62). apply Z.pow_le_mono_r; lia.
Qed.

Lemma append_grown a v w n v1 w1 :
  grown v n -> 0 <= n ->
  append a v w = (Normal tt, v1, w1) ->
  grown v1 (n + 1).
Proof.
  intros [<- Hcap] Hn. unfold append, Capacity, RawMemory_Capacity.
  assert (Hmod : size_t_modulus = 18446744073709551616) by reflexivity.
  destruct (size_ v =? capacity_ (data_ v)) eqn:Hfull.
  - apply Z.eqb_eq in Hfull.
    destruct (RawMemory_new _ w) as [[new_data|] w2] eqn:Hnew; [|done].
    apply RawMemory_new_capacity in Hnew.
    unfold RawMemory_plus.
    destruct (size_ v <=? capacity_ new_data) eqn:Hfit; [|done].
    apply Z.leb_le in Hfit.
    destruct (_ <? _)%nat; [|done].
    destruct (construct a _ w2) as [[[x b]| |] w3]; try done.
    destruct (CopyOrMove _ _ _ _ _ w3) as [[o2 [ob nb1]] w4].
    destruct o2 as [[]| |]; try done.
    simpl. intros H. simplify_eq. unfold grown. simpl.
    rewrite Hnew in Hfit. rewrite Hnew. clear Hnew.
    destruct Hcap as [[Hz Hc0]|(k & Hk & Hc & Hle & Hlt)].
    + rewrite Hz. simpl. split; [done|]. right. exists 0.
      change (2 ^ 0) with 1. lia.
    + assert (Hnz : (size_ v =? 0) = false) by (apply Z.eqb_neq; lia).
      rewrite Hnz in Hfit. rewrite Hnz.
      assert (Hkk : size_ v = 2 ^ k) by lia.
      unfold size_t_mul in Hfit |- *. rewrite Hmod in Hfit |- *.
      destruct (decide (k = 63)) as [->|Hne].
      * rewrite Hkk in Hfit. vm_compute in Hfit. by destruct Hfit.
      * pose proof (pow2_le_62 k ltac:(lia)) as Hp.
        rewrite Z.mod_small in Hfit by lia. rewrite Z.mod_small by lia.
        rewrite size_t_add_small by lia.
        split; [done|]. right. exists (k + 1).
        rewrite Z.pow_add_r by lia. change (2 ^ 1) with 2. lia.
  - apply Z.eqb_neq in Hfull.
    unfold RawMemory_plus.
    destruct (size_ v <=? capacity_ (data_ v)); [|done].
    destruct (_ <? _)%nat; [|done].
    destruct (construct a _ w) as [[[x b]| |] w2]; try done.
    intros H. simplify_eq. unfold grown. simpl.
    destruct Hcap as [[Hz Hc0]|(k & Hk & Hc & Hle & Hlt)]; [lia|].
    assert (Hp : 0 < 2 ^ k <= 2 ^ 63).
    { split; [apply Z.pow_pos_nonneg; lia|apply Z.pow_le_mono_r; lia]. }
    change (2 ^ 63) with 9223372036854775808 in Hp.
    rewrite size_t_add_small by lia.
    split; [done|]. right. exists k. lia.
Qed.

Lemma do_append_grown c v w n v1 w1 :
  grown v n -> 0 <= n ->
  do_append c v w = (Normal tt, v1, w1) ->
  grown v1 (n + 1).
Proof.
  intros Hg Hn. destruct c as [value|value|a]; simpl.
  - by apply append_grown.
  - by apply append_grown.
  - unfold EmplaceBack.
    destruct (append a v w) as [[o v2] w2] eqn:Ha.
    destruct o as [[]| |]; simpl; try done.
    destruct (RawMemory_at (data_ v2) (size_t_sub (size_ v2) 1)); simpl;
      [|done].
    intros H. simplify_eq. by eapply append_grown.
Qed.

Lemma appends_grown cs : forall v w n v' w',
  grown v n -> 0 <= n ->
  appends cs v w = (Normal tt, v', w') ->
  grown v' (n + Z.of_nat (length cs)).
Proof.
  induction cs as [|c cs IH]; intros v w n v' w' Hg Hn H; simpl in H.
  - simplify_eq. simpl. by rewrite Z.add_0_r.
  - destruct (do_append c v w) as [[o v1] w1] eqn:Hc.
    destruct o as [[]| |]; try done.
    eapply do_append_grown in Hc; [|done|done].
    eapply IH in H; [|done|lia].
    replace (n + Z.of_nat (length (c :: cs)))
      with (n + 1 + Z.of_nat (length cs)) by (simpl length; lia).
    done.
Qed.

(** C2: growth by doubling.  After N >= 1 consecutive appends (push_back
    or emplace_back) to the empty vector, each of which returned, the size
    is N and the capacity is the smallest power of two that is at least
    N. *)
Theorem appends_capacity (cs : list (@append_call T W)) w v' w' :
  cs <> [] ->
  appends cs Vector_default w = (Normal tt, v', w') ->
  Size v' = Z.of_nat (length cs) /\
  exists k, 0 <= k /\
    Capacity v' = 2 ^ k /\
    Z.of_nat (length cs) <= 2 ^ k /\
    forall j, 0 <= j -> Z.of_nat (length cs) <= 2 ^ j -> 2 ^ k <= 2 ^ j.
Proof.
  intros Hne H.
  eapply (appends_grown cs _ _ 0) in H; [|by split; [|left]|lia].
  destruct H as [Hsize Hcap]. split; [done|].
  assert (Hpos : 0 < Z.of_nat (length cs)) by (destruct cs; [done|simpl; lia]).
  destruct Hcap as [[? _]|(k & Hk & Hc & Hle & Hlt)]; [lia|].
  exists k. split_and!; [lia|done|lia|].
  intros j Hj Hnj.
  destruct (decide (k <= j)) as [Hkj|Hkj]; [apply Z.pow_le_mono_r; lia|].
  assert (Hjk : 2 ^ (j + 1) <= 2 ^ k) by (apply Z.pow_le_mono_r; lia).
  rewrite Z.pow_add_r in Hjk by lia. change (2 ^ 1) with 2 in Hjk. lia.
Qed.

(** *** Capacity *)

Lemma Vector_copy_capacity other w v w' :
  Vector_copy other w = (Normal v, w') -> Capacity v = size_ other.
Proof.
  unfold Vector_copy. intros H.
  destruct (RawMemory_new (size_ other) w) as [[data|] w1] eqn:Hnew; [|done].
  apply RawMemory_new_capacity in Hnew.
  destruct (uninitialized_copy_n _ _ _ _ _ w1) as [[o b] w2].
  destruct o as [[]| |]; by simplify_eq.
Qed.

Lemma assign_copy_capacity r v w o v' w' :
  assign_copy r v w = (o, v', w') -> o <> Violation ->
  Capacity v <= Capacity v'.
Proof.
  unfold assign_copy. intros H Ho. destruct r as [|rhs]; [by simplify_eq|].
  destruct (Capacity v <? size_ rhs) eqn:Hlt.
  - apply Z.ltb_lt in Hlt.
    destruct (Vector_copy rhs w) as [[copy| |] w1] eqn:Hc;
      simpl in H; try by simplify_eq.
    apply Vector_copy_capacity in Hc.
    unfold Swap, RawMemory_Swap in H. simpl in H.
    destruct (Vector_destroy _ w1); simplify_eq.
    unfold Capacity in *. simpl. lia.
  - repeat case_match; simplify_eq; done.
Qed.

Lemma Reserve_capacity n v w o v' w' :
  Reserve n v w = (o, v', w') -> o <> Violation ->
  Capacity v <= Capacity v' /\ (o = Normal tt -> n <= Capacity v').
Proof.
  unfold Reserve, Capacity, RawMemory_Capacity. intros H Ho.
  destruct (n <=? capacity_ (data_ v)) eqn:Hle.
  - apply Z.leb_le in Hle. by simplify_eq.
  - apply Z.leb_gt in Hle.
    destruct (RawMemory_new n w) as [[new_data|] w1] eqn:Hnew;
      [|by simplify_eq].
    apply RawMemory_new_capacity in Hnew.
    destruct (CopyOrMove _ _ _ _ _ w1) as [[o1 [ob nb]] w2].
    destruct o1 as [[]| |]; simpl in H; simplify_eq; simpl; try done.
    split; [lia|intros _; lia].
Qed.

Lemma Resize_capacity n v w o v' w' :
  Resize n v w = (o, v', w') -> o <> Violation ->
  Capacity v <= Capacity v'.
Proof.
  unfold Resize. intros H Ho.
  destruct (n <? size_ v).
  - destruct (destroy_n _ _ _ w) as [[b w1]|]; by simplify_eq.
  - destruct (size_ v <? n); [|by simplify_eq].
    destruct (Reserve n v w) as [[o1 v1] w1] eqn:Hr.
    destruct o1 as [[]| |]; simpl in H; try (simplify_eq; done).
    + apply Reserve_capacity in Hr as [Hr _]; [|done].
      destruct (uninitialized_value_construct_n _ _ _ w1) as [[o2 b] w2].
      destruct o2 as [[]| |]; by simplify_eq.
    + apply Reserve_capacity in Hr as [Hr _]; [|done]. by simplify_eq.
Qed.

Lemma append_capacity a v w o v' w' :
  append a v w = (o, v', w') -> o <> Violation ->
  Capacity v <= Capacity v'.
Proof.
  unfold append, Capacity, RawMemory_Capacity. intros H Ho.
  destruct (size_ v =? capacity_ (data_ v)) eqn:Hfull.
  - apply Z.eqb_eq in Hfull.
    destruct (RawMemory_new _ w) as [[new_data|] w1] eqn:Hnew;
      [|by simplify_eq].
    unfold RawMemory_plus in H.
    destruct (size_ v <=? capacity_ new_data) eqn:Hfit; [|by simplify_eq].
    apply Z.leb_le in Hfit.
    destruct (_ <? _)%nat; [|by simplify_eq].
    destruct (construct a _ w1) as [[[x b]| |] w2]; try by simplify_eq.
    destruct (CopyOrMove _ _ _ _ _ w2) as [[o2 [ob nb1]] w3].
    destruct o2 as [[]| |]; simpl in H; simplify_eq; simpl; try done; lia.
  - repeat case_match; simplify_eq; done.
Qed.

Lemma EmplaceBack_capacity a v w o v' w' :
  EmplaceBack a v w = (o, v', w') -> o <> Violation ->
  Capacity v <= Capacity v'.
Proof.
  unfold EmplaceBack. intros H Ho.
  destruct (append a v w) as [[o1 v1] w1] eqn:Ha.
  destruct o1 as [[]| |]; simpl in H.
  - destruct (RawMemory_at _ _); simplify_eq.
    by eapply append_capacity.
  - simplify_eq. by eapply append_capacity.
  - by simplify_eq.
Qed.

Lemma PopBack_capacity v w o v' w' :
  PopBack v w = (o, v', w') -> Capacity v <= Capacity v'.
Proof.
  unfold PopBack. intros H. repeat case_match; simplify_eq; done.
Qed.

Lemma Erase_capacity pos v w o v' w' :
  Erase pos v w = (o, v', w') -> Capacity v <= Capacity v'.
Proof.
  unfold Erase. intros H. repeat case_match; simplify_eq; done.
Qed.

Lemma Emplace_inplace_capacity pos a v w o v' w' :
  Emplace_inplace pos a v w = (o, v', w') -> Capacity v <= Capacity v'.
Proof.
  unfold Emplace_inplace. intros H. repeat case_match; simplify_eq; done.
Qed.

Lemma index_of_bounds v pos : 0 <= index_of v pos < size_t_modulus.
Proof. unfold index_of. apply Z.mod_pos_bound. reflexivity. Qed.

Lemma doubled_bounds (n : Z) :
  0 <= (if n =? 0 then 1 else size_t_mul n 2) < size_t_modulus.
Proof.
  destruct (n =? 0); [by vm_compute|]. unfold size_t_mul.
  apply Z.mod_pos_bound. reflexivity.
Qed.

Lemma Emplace_realloc_capacity pos a v l w o v' w' :
  represents v l -> size_ v = Capacity v ->
  Emplace_realloc pos a v w = (o, v', w') -> o <> Violation ->
  Capacity v <= Capacity v'.
Proof.
  intros Hrep Hfull H Ho.
  pose proof (represents_length _ _ Hrep) as (Hlen & Hle & Hsz).
  pose proof (rep_capacity _ _ Hrep) as Hcap.
  pose proof (rep_bytes _ _ Hrep) as Hbytes.
  pose proof (rep_size _ _ Hrep) as Hsize.
  pose proof (index_of_bounds v pos) as Hidx.
  unfold Capacity, RawMemory_Capacity in *.
  unfold Emplace_realloc in H.
  set (index := index_of v pos) in *.
  set (c := if size_ v =? 0 then 1 else size_t_mul (size_ v) 2) in *.
  assert (Hc : 0 <= c < size_t_modulus) by apply doubled_bounds.
  destruct (RawMemory_new c w) as [[new_data|] w1] eqn:Hnew; [|by simplify_eq].
  apply RawMemory_new_block in Hnew as ->; [|lia].
  pose proof (slots_le c ltac:(lia)) as Hslots.
  set (slots := size_t_mul c sizeof_T / sizeof_T) in *.
  unfold RawMemory_plus, RawMemory_at in H. simpl in H.
  destruct (index <=? c) eqn:Hic; [|by simplify_eq].
  apply Z.leb_le in Hic.
  rewrite length_replicate in H.
  destruct (Z.to_nat index <? Z.to_nat slots)%nat eqn:Hpc; [|by simplify_eq].
  apply Nat.ltb_lt in Hpc.
  destruct (construct a _ w1) as [[[x b]| |] w2] eqn:Hx; try by simplify_eq.
  apply construct_block in Hx as [Hlb _].
  destruct (CopyOrMove _ _ index _ _ w2) as [[o1 [ob nb1]] w3] eqn:Hm1.
  destruct o1 as [[]| |].
  - apply CopyOrMove_bounds in Hm1 as (Hl1 & Hl1' & Hb1).
    rewrite length_insert, length_replicate in Hl1.
    unfold GetAddress in Hb1.
    destruct (index <=? capacity_ (data_ v)) eqn:Hiv; [|by simplify_eq].
    destruct (size_t_add index 1 <=? c) eqn:Hi1; [|by simplify_eq].
    rewrite size_t_add_small in H, Hi1 by lia.
    assert (Hile : index <= size_ v) by lia.
    rewrite size_t_sub_small in H by lia.
    destruct (CopyOrMove ob _ _ nb1 _ w3) as [[o2 [ob1 nb2]] w4] eqn:Hm2.
    destruct o2 as [[]| |].
    + apply CopyOrMove_bounds in Hm2 as (Hl2 & Hl2' & Hb2).
      simpl in H. simplify_eq. simpl. lia.
    + destruct (destroy_n nb2 _ _ w4) as [[? w5]|]; by simplify_eq.
    + by simplify_eq.
  - destruct (index <? c); [|by simplify_eq].
    destruct (destroy_at nb1 _ w3) as [[? w4]|]; by simplify_eq.
  - by simplify_eq.
Qed.

Lemma Emplace_capacity pos a v l w o v' w' :
  represents v l ->
  Emplace pos a v w = (o, v', w') -> o <> Violation ->
  Capacity v <= Capacity v'.
Proof.
  intros Hrep H Ho. unfold Emplace in H.
  destruct (end_ v) as [e|]; [|by simplify_eq].
  destruct (pos =? e)%nat; [by eapply EmplaceBack_capacity|].
  destruct (size_ v =? Capacity v) eqn:Hfull.
  - apply Z.eqb_eq in Hfull. by eapply Emplace_realloc_capacity.
  - by eapply Emplace_inplace_capacity.
Qed.

Lemma forget_eq {A} (r : outcome A * @Vector T * W) o v' w' :
  forget r = (o, v', w') ->
  exists o', r = (o', v', w') /\ (o <> Violation -> o' <> Violation) /\
             (o = Normal tt -> exists t, o' = Normal t).
Proof.
  destruct r as [[[a| |] v1] w1]; simpl; intros H; simplify_eq;
    eexists; split_and!; eauto; done.
Qed.

(** C9: the capacity never decreases.  Whatever a valid vector is asked to
    do (copy assignment, Reserve, Resize, PushBack, PopBack, EmplaceBack,
    Emplace, Erase, Insert), and whether the call returns or throws, the
    capacity afterwards is at least the capacity before.  The exceptions
    are the moves and the swap: a vector that a constructor moved from has
    capacity 0, and Swap and the move assignment, which is a Swap, exchange
    the capacities. *)
Theorem capacity_never_decreases (op : @operation T W) v w :
  valid v ->
  match run op v w with
  | (Violation, _, _) => True
  | (_, v', _) => Capacity v <= Capacity v'
  end /\
  (Capacity (snd (Vector_move v)) = 0 /\
   Capacity (fst (Vector_move v)) = Capacity v) /\
  (forall other,
     Capacity (fst (Swap v other)) = Capacity other /\
     Capacity (snd (Swap v other)) = Capacity v) /\
  (forall rhs,
     Capacity (fst (assign_move rhs v)) = Capacity rhs /\
     Capacity (snd (assign_move rhs v)) = Capacity v).
Proof.
  intros [l Hrep]. split_and!; try done.
  destruct (run op v w) as [[o v'] w'] eqn:Hrun.
  assert (o <> Violation -> Capacity v <= Capacity v') as Hgoal.
  2:{ destruct o as [[]| |]; [by apply Hgoal|by apply Hgoal|done]. }
  intros Ho. destruct op; simpl in Hrun.
  - by eapply assign_copy_capacity.
  - by eapply Reserve_capacity in Hrun as [? _].
  - by eapply Resize_capacity.
  - by eapply append_capacity.
  - by eapply append_capacity.
  - by eapply PopBack_capacity.
  - apply forget_eq in Hrun as (o' & Hrun & Ho' & _).
    eapply EmplaceBack_capacity; eauto.
  - apply forget_eq in Hrun as (o' & Hrun & Ho' & _).
    eapply Emplace_capacity; eauto.
  - apply forget_eq in Hrun as (o' & Hrun & Ho' & _).
    by eapply Erase_capacity.
  - apply forget_eq in Hrun as (o' & Hrun & Ho' & _).
    eapply Emplace_capacity; eauto.
  - apply forget_eq in Hrun as (o' & Hrun & Ho' & _).
    eapply Emplace_capacity; eauto.
Qed.

(** *** Erase *)

Lemma holds_app (b : block) first xs ys :
  holds b first (xs ++ ys) <->
  holds b first xs /\ holds b (first + length xs) ys.
Proof.
  split.
  - intros H. split.
    + intros i x Hx. apply H. by apply lookup_app_l_Some.
    + intros i x Hx. replace (first + length xs + i)%nat
        with (first + (length xs + i))%nat by lia.
      apply H. rewrite lookup_app_r by lia.
      by replace (length xs + i - length xs)%nat with i by lia.
  - intros [Hx Hy] i x Hi.
    destruct (decide (i < length xs)%nat) as [Hlt|Hge].
    + rewrite lookup_app_l in Hi by done. by apply Hx.
    + rewrite lookup_app_r in Hi by lia. apply Hy in Hi.
      by replace (first + length xs + (i - length xs))%nat
        with (first + i)%nat in Hi by lia.
Qed.

Lemma holds_take (b : block) l n : holds b 0 l -> holds b 0 (take n l).
Proof.
  intros H i x Hx. apply lookup_take_Some in Hx as [Hx _]. by apply H.
Qed.

Lemma holds_drop (b : block) l n : holds b 0 l -> holds b n (drop n l).
Proof.
  intros H i x Hx. rewrite lookup_drop in Hx. by apply (H _ _ Hx).
Qed.

Lemma index_of_valid v l pos :
  represents v l -> (pos <= length l)%nat -> index_of v pos = Z.of_nat pos.
Proof.
  intros Hrep Hpos. pose proof (rep_capacity _ _ Hrep).
  pose proof (rep_size _ _ Hrep).
  unfold index_of, begin_, GetAddress. simpl. rewrite Z.sub_0_r.
  apply Z.mod_small. lia.
Qed.

Lemma Erase_nothrow pos v w v' w' :
  nothrow E -> Erase pos v w <> (Threw, v', w').
Proof.
  unfold Erase, move_range. intros Hsafe H.
  destruct (0 <? size_ v); [|done].
  destruct (end_ v) as [e|]; [|done].
  destruct (_ <=? e)%nat; [|done].
  destruct (move_loop _ _ _ _ w) as [[o b1] w1] eqn:Hm.
  apply move_loop_nothrow in Hm; [|apply Hsafe].
  destruct o as [[]| |]; simpl in H; [|done|done].
  destruct (RawMemory_at _ _); [|done].
  by destruct (destroy_at b1 _ w1) as [[? ?]|].
Qed.

Lemma Erase_cases pos v l w :
  represents v l ->
  (pos < length l)%nat ->
  match Erase pos v w with
  | (Normal it, v', _) =>
    represents v' (erased pos l) /\
    it = pos /\
    Size v' = Size v - 1 /\
    Capacity v' = Capacity v /\
    buffer_ (data_ v') !! (length l - 1)%nat = Some None /\
    (Size v = 1 -> represents v' [])
  | (Threw, _, _) => ~ nothrow E
  | (Violation, _, _) => False
  end.
Proof.
  intros Hrep Hpos.
  pose proof (represents_length _ _ Hrep) as (Hlen & Hle & Hsz).
  pose proof (represents_holds _ _ Hrep) as Hh.
  pose proof (rep_capacity _ _ Hrep) as Hcap.
  pose proof (rep_bytes _ _ Hrep) as Hbytes.
  pose proof (rep_size _ _ Hrep) as Hsize.
  destruct (Erase pos v w) as [[o v'] w'] eqn:HE.
  destruct o as [it| |].
  2:{ intros Hsafe. by eapply Erase_nothrow. }
  all: unfold Erase in HE;
    rewrite (index_of_valid _ _ _ Hrep) in HE by lia;
    unfold end_, begin_, GetAddress, RawMemory_plus, RawMemory_at in HE;
    rewrite size_t_sub_small in HE by lia;
    rewrite (proj2 (Z.ltb_lt 0 (size_ v))) in HE by lia;
    rewrite (proj2 (Z.leb_le (size_ v) _)) in HE by lia;
    rewrite (proj2 (Z.ltb_lt (size_ v - 1) _)) in HE by lia;
    unfold move_range in HE;
    rewrite (proj2 (Nat.leb_le _ _)) in HE by lia;
    rewrite Nat2Z.id in HE; simpl in HE;
    replace (pos + 1)%nat with (S pos) in HE by lia;
    destruct (move_loop _ _ _ _ w) as [[o1 b1] w1] eqn:Hm;
    eapply move_loop_shift_spec with (xs := drop (S pos) l) in Hm
      as (Hl1 & Hv1 & Hlv1 & Hout1 & Hok1);
      [|by apply holds_drop|rewrite length_drop; lia
       |by apply (holds_live _ _ _ Hh); lia];
    replace (S pos + (Z.to_nat (size_ v) - S pos))%nat
      with (length l) in * by lia;
    (destruct o1 as [[]| |]; simpl in HE; [|done|done]);
    (destruct (Hlv1 (Z.to_nat (size_ v - 1))) as [z Hz]; [lia|]);
    unfold destroy_at in HE; rewrite Hz in HE;
    try discriminate HE; injection HE as <- <- <-.
  assert (Hq : Z.to_nat (size_ v - 1) = (length l - 1)%nat) by lia.
  rewrite Hq in *.
  assert (Hrep' : represents
            (with_size (with_buffer v (<[(length l - 1)%nat := None]> b1))
                       (size_ v - 1)) (erased pos l)).
  { unfold erased. apply represents_intro; simpl.
    - rewrite length_app, length_take, length_drop. lia.
    - lia.
    - rewrite length_insert. lia.
    - apply holds_app. rewrite length_take.
      replace (0 + pos `min` length l)%nat with pos by lia.
      split.
      + eapply holds_ext; [apply holds_take, Hh|].
        rewrite length_take. intros j Hj.
        rewrite list_lookup_insert_ne by lia. apply Hout1. lia.
      + eapply holds_ext; [by apply Hok1|].
        rewrite length_drop. intros j Hj.
        apply list_lookup_insert_ne. lia.
    - rewrite length_app, length_take, length_drop, length_insert.
      intros j Hj.
      destruct (decide (j = length l - 1)%nat) as [->|Hne].
      + apply list_lookup_insert_eq. lia.
      + rewrite list_lookup_insert_ne by lia. rewrite Hout1 by lia.
        apply (represents_raw _ _ _ Hrep). lia. }
  split_and!; [done|done|unfold Size; simpl; lia|done| |].
  - simpl. apply list_lookup_insert_eq. lia.
  - unfold Size. intros H1.
    assert (length l = 1%nat) as Hl by lia.
    destruct l as [|x [|? ?]]; simplify_eq/=.
    assert (pos = 0%nat) as -> by lia. exact Hrep'.
Qed.


(** *** Appending *)

Lemma construct_nothrow a (own : block) w w' :
  args_nothrow a -> construct a own w <> (Threw, w').
Proof.
  unfold construct. intros Ha H. destruct a as [args|p]; simpl in Ha.
  - specialize (Ha w). by destruct (args w) as [[x|] w1].
  - destruct (own !! p) as [[s|]|]; [|done|done].
    specialize (Ha s w). by destruct (move_ctor s w) as [[[x s']|] w1].
Qed.

Lemma append_nothrow a v w v' w' :
  nothrow E -> args_nothrow a -> append a v w <> (Threw, v', w').
Proof.
  unfold append. intros Hsafe Hargs H.
  destruct (size_ v =? Capacity v).
  - destruct (RawMemory_new _ w) as [[new_data|] w1] eqn:Hnew.
    2:{ by eapply RawMemory_new_failed. }
    destruct (RawMemory_plus new_data (size_ v)) as [p|]; [|done].
    destruct (p <? _)%nat; [|done].
    destruct (construct a _ w1) as [[[x b]| |] w2] eqn:Hx;
      [|by eapply construct_nothrow|done].
    destruct (CopyOrMove _ _ _ _ _ w2) as [[o2 [ob nb1]] w3] eqn:Hc.
    apply CopyOrMove_nothrow in Hc; [|done].
    by destruct o2 as [[]| |].
  - destruct (RawMemory_plus (data_ v) (size_ v)) as [p|]; [|done].
    destruct (p <? _)%nat; [|done].
    destruct (construct a _ w) as [[[x b]| |] w1] eqn:Hx;
      [done|by eapply construct_nothrow|done].
Qed.

(** The capacity that a full vector of [n] elements grows to: more than
    [n], with bytes counted by a size_t, when those of 2 n elements are. *)
Lemma doubled_fits (n : Z) :
  0 <= n -> 2 * n * sizeof_T < size_t_modulus ->
  (if n =? 0 then 1 else size_t_mul n 2) = (if n =? 0 then 1 else 2 * n) /\
  n < (if n =? 0 then 1 else size_t_mul n 2) /\
  (if n =? 0 then 1 else size_t_mul n 2) * sizeof_T < size_t_modulus.
Proof.
  intros Hn Hfit. pose proof (@sizeof_T_range _ _ E) as Hs.
  destruct (n =? 0) eqn:Hz.
  - apply Z.eqb_eq in Hz. lia.
  - apply Z.eqb_neq in Hz. rewrite size_t_mul_small by nia. lia.
Qed.

(** The block that a full vector of [n] elements grows into has room for
    one more element only if the bytes of 2 n elements are counted by a
    size_t. *)
Lemma doubled_slots (n : Z) :
  0 <= n -> n * sizeof_T < size_t_modulus ->
  n < size_t_mul (if n =? 0 then 1 else size_t_mul n 2) sizeof_T / sizeof_T ->
  2 * n * sizeof_T < size_t_modulus.
Proof.
  intros Hn Hfit Hslots. pose proof (@sizeof_T_range _ _ E) as Hs.
  destruct (n =? 0) eqn:Hz; [apply Z.eqb_eq in Hz; lia|].
  apply Z.eqb_neq in Hz.
  destruct (decide (2 * n * sizeof_T < size_t_modulus)) as [|Hwrap]; [done|].
  exfalso.
  destruct (decide (n * 2 < size_t_modulus)) as [Hsmall|Hbig].
  - rewrite (size_t_mul_small n 2) in Hslots by lia.
    unfold size_t_mul in Hslots.
    assert (Heq : n * 2 * sizeof_T =
                  (n * 2 * sizeof_T - size_t_modulus) + 1 * size_t_modulus)
      by lia.
    rewrite Heq, Z.mod_add in Hslots by done.
    rewrite Z.mod_small in Hslots by nia.
    assert ((n * 2 * sizeof_T - size_t_modulus) / sizeof_T < n)
      by (apply Z.div_lt_upper_bound; nia).
    lia.
  - assert (Hc : size_t_mul n 2 < n).
    { unfold size_t_mul.
      assert (Heq : n * 2 = (n * 2 - size_t_modulus) + 1 * size_t_modulus)
        by lia.
      rewrite Heq, Z.mod_add by done. rewrite Z.mod_small by nia. nia. }
    assert (0 <= size_t_mul n 2)
      by (unfold size_t_mul; apply Z.mod_pos_bound; done).
    pose proof (slots_le (size_t_mul n 2) ltac:(lia)). lia.
Qed.

(** A full vector whose appending body returned had room to double. *)
Lemma append_returned_fits a v w v' w' :
  0 <= size_ v -> size_ v * sizeof_T < size_t_modulus ->
  size_ v = Capacity v ->
  append a v w = (Normal tt, v', w') ->
  2 * size_ v * sizeof_T < size_t_modulus.
Proof.
  unfold append. intros Hs Hb Hfull H.
  rewrite (proj2 (Z.eqb_eq _ _) Hfull) in H.
  destruct (RawMemory_new _ w) as [[new_data|] w1] eqn:Hnew; [|done].
  apply RawMemory_new_block in Hnew as ->; [|apply doubled_bounds].
  unfold RawMemory_plus in H. simpl in H.
  destruct (size_ v <=? _); [|done].
  rewrite length_replicate in H.
  destruct (_ <? _)%nat eqn:Hp; [|done]. apply Nat.ltb_lt in Hp.
  apply doubled_slots; [done|done|lia].
Qed.

(** An element that has been moved from is still an element. *)
Lemma represents_moved_from v l p s :
  represents v l -> (p < length l)%nat ->
  represents (with_buffer v (<[p := Some s]> (buffer_ (data_ v))))
             (<[p := s]> l).
Proof.
  intros [Hs Hc Hy Hb] Hp.
  split; simpl; [by rewrite length_insert|done|done|].
  rewrite Hb, length_insert.
  rewrite insert_app_l by (rewrite length_fmap; lia).
  by rewrite list_fmap_insert.
Qed.

Lemma constructed_length a l (x : T) l' :
  constructed a l x l' -> length l' = length l.
Proof.
  destruct a as [args|p]; simpl; [by intros [_ ->]|].
  intros [_ [s' ->]]. by rewrite length_insert.
Qed.

(** The constructor call on a valid vector, with arguments that refer to
    live elements only. *)
Lemma construct_cases a v l w o w' :
  represents v l -> arguments_live a (length l) ->
  construct a (buffer_ (data_ v)) w = (o, w') ->
  match o with
  | Normal (x, b) =>
    exists l', constructed a l x l' /\ length l' = length l /\
               represents (with_buffer v b) l'
  | Threw => ~ args_nothrow a
  | Violation => False
  end.
Proof.
  unfold construct. intros Hrep Hlive H. destruct a as [args|p]; simpl in *.
  - destruct (args w) as [[x|] w1] eqn:Hx; simplify_eq.
    + exists l.
      split_and!; [unfold constructs; eauto|done|done
                  |by rewrite with_buffer_same].
    + intros Ha. specialize (Ha w). by rewrite Hx in Ha.
  - destruct (lookup_lt_is_Some_2 l p Hlive) as [s Hs].
    pose proof (represents_holds _ _ Hrep _ _ Hs) as Hb. simpl in Hb.
    rewrite Hb in H.
    destruct (move_ctor s w) as [[[x s']|] w1] eqn:Hm; simplify_eq.
    + apply move_ctor_value in Hm as ->.
      exists (<[p := s']> l).
      split_and!; [done|by exists s'|by rewrite length_insert
                  |by apply represents_moved_from].
    + intros Ha. specialize (Ha s w). by rewrite Hm in Ha.
Qed.

(** Once the constructor call has made the new element, the appending
    body goes on as it does after a call with arguments outside the
    vector; and it does not depend on the arguments if it does not get to
    the call. *)
Lemma append_construct a v w :
  (forall a', append a' v w = append a v w) \/
  exists w1,
    match construct a (buffer_ (data_ v)) w1 with
    | (Normal (x, b), w2) =>
      append a v w =
      append (Outside (fun _ => (Some x, w2))) (with_buffer v b) w
    | (o, w2) => append a v w = (propagate o, v, w2)
    end.
Proof.
  unfold append, Capacity, RawMemory_Capacity. simpl.
  destruct (size_ v =? capacity_ (data_ v)).
  - destruct (RawMemory_new _ w) as [[new_data|] w1]; [|by left].
    destruct (RawMemory_plus new_data (size_ v)) as [p|]; [|by left].
    destruct (p <? _)%nat; [|by left].
    right. exists w1.
    by destruct (construct a _ w1) as [[[x b]| |] w2].
  - unfold RawMemory_plus. simpl.
    destruct (size_ v <=? capacity_ (data_ v)); [|by left].
    destruct (_ <? _)%nat eqn:Hp; [|by left].
    right. exists w.
    destruct (construct a _ w) as [[[x b]| |] w1] eqn:Hx; [|done|done].
    apply construct_block in Hx as [-> _]. by rewrite Hp.
Qed.

Lemma append_outside_spec args v l w o v' w' :
  represents v l ->
  (size_ v = Capacity v -> 2 * size_ v * sizeof_T < size_t_modulus) ->
  append (Outside args) v w = (o, v', w') ->
  o <> Violation /\
  (o = Normal tt ->
   exists x, constructs args x /\ represents v' (l ++ [x])).
Proof.
  intros Hrep Hdouble H.
  pose proof (represents_length _ _ Hrep) as (Hlen & Hle & Hsz).
  pose proof (represents_holds _ _ Hrep) as Hh.
  pose proof (rep_capacity _ _ Hrep) as Hcap.
  pose proof (rep_bytes _ _ Hrep) as Hbytes.
  pose proof (rep_size _ _ Hrep) as Hsize.
  unfold append, Capacity, RawMemory_Capacity in *.
  destruct (size_ v =? capacity_ (data_ v)) eqn:Hfull.
  - apply Z.eqb_eq in Hfull. specialize (Hdouble Hfull).
    destruct (doubled_fits (size_ v)) as (_ & Hc & Hcb); [lia|done|].
    set (c := if size_ v =? 0 then 1 else size_t_mul (size_ v) 2) in *.
    assert (Hcm : c < size_t_modulus)
      by (pose proof (@sizeof_T_range _ _ E); nia).
    destruct (RawMemory_new c w) as [[new_data|] w1] eqn:Hnew;
      [|by simplify_eq].
    apply RawMemory_new_spec in Hnew as ->; [|lia].
    unfold RawMemory_plus, construct in H. simpl in H.
    rewrite (proj2 (Z.leb_le _ _)) in H by lia.
    rewrite length_replicate in H.
    rewrite (proj2 (Nat.ltb_lt _ _)) in H by lia.
    destruct (args w1) as [[x|] w2] eqn:Hargs; [|by simplify_eq].
    destruct (CopyOrMove _ _ _ _ _ w2) as [[o2 [ob nb1]] w3] eqn:Hm.
    eapply CopyOrMove_spec with (xs := l) in Hm
      as (Hl & Hl' & Hv & Hfo & Hout & Hok); [|done|done|].
    2:{ rewrite length_insert, length_replicate. unfold GetAddress. lia. }
    rewrite length_insert, length_replicate in Hl.
    unfold GetAddress in Hok, Hout.
    destruct o2 as [[]| |]; simpl in H; [|by simplify_eq|done].
    injection H as <- <- <-. split; [done|]. intros _.
    destruct Hok as (Hh' & _); [done|].
    exists x. split; [by exists w1, w2|].
    apply represents_intro; simpl.
    + rewrite length_app. simpl. rewrite size_t_add_small by lia. lia.
    + rewrite size_t_add_small by lia. lia.
    + done.
    + apply holds_snoc. split; [done|].
      rewrite Hout by lia. simpl. rewrite <- Hsz.
      apply list_lookup_insert_eq. rewrite length_replicate. lia.
    + rewrite length_app. simpl. intros j Hj. rewrite Hout by lia.
      rewrite list_lookup_insert_ne by lia. apply raw_lookup. lia.
  - apply Z.eqb_neq in Hfull.
    unfold RawMemory_plus, construct in H.
    rewrite (proj2 (Z.leb_le _ _)) in H by lia.
    rewrite (proj2 (Nat.ltb_lt _ _)) in H by lia.
    destruct (args w) as [[x|] w1] eqn:Hargs; [|by simplify_eq].
    injection H as <- <- <-. split; [done|]. intros _.
    exists x. split; [by exists w, w1|].
    apply represents_intro; simpl.
    + rewrite length_app. simpl. rewrite size_t_add_small by lia. lia.
    + rewrite size_t_add_small by lia. fits.
    + by rewrite length_insert.
    + apply holds_snoc. split.
      * eapply holds_ext; [exact Hh|]. intros j Hj.
        apply list_lookup_insert_ne. lia.
      * simpl. rewrite <- Hsz. apply list_lookup_insert_eq. lia.
    + rewrite length_app, length_insert. simpl. intros j Hj.
      rewrite list_lookup_insert_ne by lia.
      apply (represents_raw _ _ _ Hrep). lia.
Qed.

Lemma constructs_given (x y : T) (w' : W) :
  constructs (fun _ => (Some x, w')) y -> y = x.
Proof. intros (w0 & w1 & H). by simplify_eq. Qed.

Lemma constructs_never (x : T) : ~ constructs (fun w => (None, w)) x.
Proof. by intros (w0 & w1 & H). Qed.

Lemma append_spec a v l w o v' w' :
  represents v l -> arguments_live a (length l) ->
  (size_ v = Capacity v -> 2 * size_ v * sizeof_T < size_t_modulus) ->
  append a v w = (o, v', w') ->
  o <> Violation /\
  (o = Normal tt ->
   exists x l', constructed a l x l' /\ represents v' (l' ++ [x])).
Proof.
  intros Hrep Hlive Hdouble H.
  destruct (append_construct a v w) as [Hind|[w1 Hc]].
  - rewrite <- (Hind (Outside (fun w => (None, w)))) in H.
    eapply append_outside_spec in H as [Hv Hok]; [|done|done].
    split; [done|]. intros Ho.
    destruct (Hok Ho) as (x & Hx & _). by apply constructs_never in Hx.
  - destruct (construct a _ w1) as [[[x b]| |] w2] eqn:Hx.
    + apply (construct_cases _ _ _ _ _ _ Hrep Hlive) in Hx
        as (l' & Hcon & Hlen & Hrep').
      rewrite Hc in H.
      eapply append_outside_spec in H as [Hv Hok]; [|done|done].
      split; [done|]. intros Ho.
      destruct (Hok Ho) as (y & Hy & Hr).
      apply constructs_given in Hy as ->. by exists x, l'.
    + rewrite Hc in H. by simplify_eq.
    + by apply (construct_cases _ _ _ _ _ _ Hrep Hlive) in Hx.
Qed.

Lemma inserted_at_end l (x : T) : inserted (length l) x l = l ++ [x].
Proof. unfold inserted. by rewrite take_ge, drop_ge by lia. Qed.

Lemma EmplaceBack_spec a v l w o v' w' :
  represents v l -> arguments_live a (length l) ->
  (size_ v = Capacity v -> 2 * size_ v * sizeof_T < size_t_modulus) ->
  EmplaceBack a v w = (o, v', w') ->
  o <> Violation /\
  (forall it, o = Normal it ->
   it = length l /\
   exists x l', constructed a l x l' /\ represents v' (l' ++ [x])).
Proof.
  intros Hrep Hlive Hdouble H. unfold EmplaceBack in H.
  destruct (append a v w) as [[o1 v1] w1] eqn:Ha.
  eapply append_spec in Ha as [Hv Hok]; [|done|done|done].
  destruct o1 as [[]| |]; simpl in H; [|by simplify_eq|done].
  destruct Hok as (x & l' & Hx & Hrep'); [done|].
  pose proof (constructed_length _ _ _ _ Hx) as Hll.
  pose proof (rep_capacity _ _ Hrep') as Hcap.
  pose proof (rep_size _ _ Hrep') as Hsize.
  rewrite length_app in Hsize. simpl in Hsize.
  unfold RawMemory_at in H. rewrite size_t_sub_small in H by lia.
  rewrite (proj2 (Z.ltb_lt _ _)) in H by lia.
  injection H as <- <- <-. split; [done|].
  intros it [= <-]. split; [lia|eauto].
Qed.

(** *** Emplace *)

Lemma Emplace_realloc_nothrow pos a v w v' w' :
  nothrow E -> args_nothrow a ->
  Emplace_realloc pos a v w <> (Threw, v', w').
Proof.
  unfold Emplace_realloc. intros Hsafe Hargs H.
  destruct (RawMemory_new _ w) as [[new_data|] w1] eqn:Hnew.
  2:{ by eapply RawMemory_new_failed. }
  destruct (RawMemory_plus new_data _) as [p|]; [|done].
  destruct (p <? _)%nat; [|done].
  destruct (construct a _ w1) as [[[x b]| |] w2] eqn:Hx;
    [|by eapply construct_nothrow|done].
  destruct (CopyOrMove _ _ _ _ _ w2) as [[o2 [ob nb1]] w3] eqn:Hc.
  apply CopyOrMove_nothrow in Hc; [|done].
  destruct o2 as [[]| |]; [|done|done].
  destruct (RawMemory_plus (data_ v) _) as [src|]; [|done].
  destruct (RawMemory_plus new_data _) as [dst|]; [|done].
  destruct (CopyOrMove ob _ _ nb1 _ w3) as [[o3 [ob1 nb2]] w4] eqn:Hc2.
  apply CopyOrMove_nothrow in Hc2; [|done].
  by destruct o3 as [[]| |].
Qed.

(** A full vector whose reallocating Emplace returned had room to
    double. *)
Lemma Emplace_realloc_returned_fits pos a v l w it v' w' :
  represents v l -> size_ v = Capacity v -> (pos < length l)%nat ->
  Emplace_realloc pos a v w = (Normal it, v', w') ->
  2 * size_ v * sizeof_T < size_t_modulus.
Proof.
  intros Hrep Hfull Hpos H.
  pose proof (represents_length _ _ Hrep) as (Hlen & Hle & Hsz).
  pose proof (rep_capacity _ _ Hrep) as Hcap.
  pose proof (rep_bytes _ _ Hrep) as Hbytes.
  pose proof (rep_size _ _ Hrep) as Hsize.
  unfold Capacity, RawMemory_Capacity in *.
  apply doubled_slots; [lia|by rewrite Hfull|].
  unfold Emplace_realloc in H.
  rewrite (index_of_valid _ _ _ Hrep) in H by lia.
  destruct (RawMemory_new _ w) as [[new_data|] w1] eqn:Hnew; [|done].
  apply RawMemory_new_block in Hnew as ->; [|apply doubled_bounds].
  unfold RawMemory_plus, RawMemory_at in H. simpl in H.
  destruct (Z.of_nat pos <=? _); [|done].
  rewrite length_replicate in H.
  destruct (_ <? _)%nat; [|done].
  destruct (construct a _ w1) as [[[x b]| |] w2] eqn:Hx; try done.
  destruct (CopyOrMove _ _ _ _ _ w2) as [[o1 [ob nb1]] w3] eqn:Hm1.
  destruct o1 as [[]| |]; [|by repeat case_match|done].
  apply CopyOrMove_bounds in Hm1 as (Hl1 & Hl1' & Hb1).
  rewrite length_insert, length_replicate in Hl1.
  destruct (Z.of_nat pos <=? capacity_ (data_ v)); [|done].
  destruct (size_t_add (Z.of_nat pos) 1 <=? _); [|done].
  rewrite size_t_add_small, size_t_sub_small in H by lia.
  destruct (CopyOrMove ob _ _ nb1 _ w3) as [[o2 [ob1 nb2]] w4] eqn:Hm2.
  destruct o2 as [[]| |]; [|by repeat case_match|done].
  apply CopyOrMove_bounds in Hm2 as (Hl2 & Hl2' & Hb2).
  destruct Hb2 as [Hz|[Hb2 _]]; [lia|]. rewrite Hl1 in Hb2. lia.
Qed.

(** As for the appending body: after the constructor call, the
    reallocating Emplace goes on as it does after a call with arguments
    outside the vector. *)
Lemma Emplace_realloc_construct pos a v w :
  (forall a', Emplace_realloc pos a' v w = Emplace_realloc pos a v w) \/
  exists w1,
    match construct a (buffer_ (data_ v)) w1 with
    | (Normal (x, b), w2) =>
      Emplace_realloc pos a v w =
      Emplace_realloc pos (Outside (fun _ => (Some x, w2))) (with_buffer v b) w
    | (o, w2) => Emplace_realloc pos a v w = (propagate o, v, w2)
    end.
Proof.
  unfold Emplace_realloc, index_of, begin_, GetAddress. simpl.
  destruct (RawMemory_new _ w) as [[new_data|] w1]; [|by left].
  destruct (RawMemory_plus new_data _) as [p|]; [|by left].
  destruct (p <? _)%nat; [|by left].
  right. exists w1. by destruct (construct a _ w1) as [[[x b]| |] w2].
Qed.

Lemma Emplace_realloc_outside_spec pos args v l w o v' w' :
  represents v l -> (pos < length l)%nat ->
  size_ v = Capacity v -> 2 * size_ v * sizeof_T < size_t_modulus ->
  Emplace_realloc pos (Outside args) v w = (o, v', w') ->
  o <> Violation /\
  (forall it, o = Normal it ->
   it = pos /\
   exists x, constructs args x /\ represents v' (inserted pos x l)).
Proof.
  intros Hrep Hpos Hfull Hdouble H.
  pose proof (represents_length _ _ Hrep) as (Hlen & Hle & Hsz).
  pose proof (represents_holds _ _ Hrep) as Hh.
  pose proof (rep_capacity _ _ Hrep) as Hcap.
  pose proof (rep_bytes _ _ Hrep) as Hbytes.
  pose proof (rep_size _ _ Hrep) as Hsize.
  pose proof (@sizeof_T_range _ _ E) as Hsizeof.
  assert (Hd2 : 2 * size_ v < size_t_modulus) by nia.
  unfold Capacity, RawMemory_Capacity in *.
  unfold Emplace_realloc in H.
  rewrite (index_of_valid _ _ _ Hrep) in H by lia.
  rewrite (proj2 (Z.eqb_neq (size_ v) 0)) in H by lia.
  rewrite size_t_mul_small in H by lia.
  destruct (RawMemory_new _ w) as [[new_data|] w1] eqn:Hnew;
    [|by simplify_eq].
  apply RawMemory_new_spec in Hnew as ->; [|lia].
  unfold RawMemory_plus, RawMemory_at, construct, GetAddress in H.
  simpl in H.
  rewrite size_t_add_small, size_t_sub_small in H by lia.
  rewrite !(proj2 (Z.leb_le _ _)) in H by lia.
  rewrite (proj2 (Z.ltb_lt _ _)) in H by lia.
  rewrite length_replicate in H.
  rewrite (proj2 (Nat.ltb_lt _ _)) in H by lia.
  rewrite Nat2Z.id in H.
  replace (Z.to_nat (Z.of_nat pos + 1)) with (S pos) in H by lia.
  destruct (args w1) as [[x|] w2] eqn:Hargs; [|by simplify_eq].
  set (raw := replicate (Z.to_nat (size_ v * 2)) None) in *.
  assert (Hraw : length raw = Z.to_nat (size_ v * 2))
    by apply length_replicate.
  destruct (CopyOrMove _ _ _ _ _ w2) as [[o1 [ob nb1]] w3] eqn:Hm1.
  eapply CopyOrMove_spec with (xs := take pos l) in Hm1
    as (Hl1 & Hl1' & Hv1 & Hfo1 & Hout1 & Hok1);
    [|by apply holds_take|rewrite length_take; lia
     |rewrite length_take, length_insert; lia].
  rewrite length_take, length_insert in *.
  replace (pos `min` length l)%nat with pos in * by lia.
  assert (Hnew : nb1 !! pos = Some (Some x)).
  { rewrite Hout1 by lia. apply list_lookup_insert_eq. lia. }
  destruct o1 as [[]| |]; [| |done].
  2:{ unfold destroy_at in H. rewrite Hnew in H. by simplify_eq. }
  destruct Hok1 as (Hh1 & _); [done|].
  destruct (CopyOrMove ob _ _ nb1 _ w3) as [[o2 [ob1 nb2]] w4] eqn:Hm2.
  eapply CopyOrMove_spec with (xs := drop pos l) in Hm2
    as (Hl2 & Hl2' & Hv2 & Hfo2 & Hout2 & Hok2);
    [| |rewrite length_drop; lia|rewrite length_drop; lia].
  2:{ eapply holds_ext; [apply holds_drop, Hh|].
      intros j Hj. apply Hfo1. lia. }
  rewrite length_drop in *.
  destruct o2 as [[]| |]; [| |by simplify_eq].
  2:{ destruct (destroy_n_total (S pos) nb2 0 w4) as (? & ? & Hd).
      - intros j Hj. rewrite Hout2 by lia.
        destruct (decide (j = pos)) as [->|Hne]; [eauto|].
        apply (holds_live _ _ _ Hh1). rewrite length_take. lia.
      - rewrite Hd in H. by simplify_eq. }
  destruct Hok2 as (Hh2 & _); [done|].
  simpl in H. injection H as <- <- <-. split; [done|].
  intros it [= <-]. split; [done|].
  exists x. split; [by exists w1, w2|].
  unfold inserted. apply represents_intro; simpl.
  - rewrite length_app, length_take. simpl. rewrite length_drop.
    rewrite size_t_add_small by lia. lia.
  - rewrite size_t_add_small by lia. lia.
  - lia.
  - apply holds_app. rewrite length_take.
    replace (0 + pos `min` length l)%nat with pos by lia.
    split.
    + eapply holds_ext; [exact Hh1|]. rewrite length_take.
      intros j Hj. apply Hout2. lia.
    + apply holds_cons. split; [|done].
      rewrite Hout2, Hout1 by lia. apply list_lookup_insert_eq. lia.
  - rewrite length_app, length_take. simpl. rewrite length_drop.
    intros j Hj. rewrite Hout2, Hout1 by lia.
    rewrite list_lookup_insert_ne by lia. apply raw_lookup. lia.
Qed.

Lemma Emplace_realloc_spec pos a v l w o v' w' :
  represents v l -> (pos < length l)%nat -> arguments_live a (length l) ->
  size_ v = Capacity v -> 2 * size_ v * sizeof_T < size_t_modulus ->
  Emplace_realloc pos a v w = (o, v', w') ->
  o <> Violation /\
  (forall it, o = Normal it ->
   it = pos /\
   exists x l', constructed a l x l' /\ represents v' (inserted pos x l')).
Proof.
  intros Hrep Hpos Hlive Hfull Hdouble H.
  destruct (Emplace_realloc_construct pos a v w) as [Hind|[w1 Hc]].
  - rewrite <- (Hind (Outside (fun w => (None, w)))) in H.
    eapply Emplace_realloc_outside_spec in H as [Hv Hok];
      [|done|done|done|done].
    split; [done|]. intros it Ho.
    destruct (Hok it Ho) as (_ & x & Hx & _). by apply constructs_never in Hx.
  - destruct (construct a _ w1) as [[[x b]| |] w2] eqn:Hx.
    + apply (construct_cases _ _ _ _ _ _ Hrep Hlive) in Hx
        as (l' & Hcon & Hlen & Hrep').
      rewrite Hc in H.
      eapply Emplace_realloc_outside_spec in H as [Hv Hok];
        [|done|lia|done|done].
      split; [done|]. intros it Ho.
      destruct (Hok it Ho) as (-> & y & Hy & Hr).
      apply constructs_given in Hy as ->. split; [done|]. by exists x, l'.
    + rewrite Hc in H. by simplify_eq.
    + by apply (construct_cases _ _ _ _ _ _ Hrep Hlive) in Hx.
Qed.

Lemma Emplace_inplace_nothrow pos a v w v' w' :
  nothrow E -> args_nothrow a ->
  Emplace_inplace pos a v w <> (Threw, v', w').
Proof.
  unfold Emplace_inplace, move_backward. intros Hsafe Hargs H.
  destruct (construct a _ w) as [[[temp b]| |] w1] eqn:Hx;
    [|by eapply construct_nothrow|done].
  destruct (end_ v) as [e|]; [|done].
  destruct (RawMemory_at (data_ v) _) as [lastp|]; [|done].
  destruct (_ !! lastp) as [[last|]|]; [|done|done].
  destruct (e <? _)%nat; [|done].
  pose proof (nothrow_move _ Hsafe last w1) as Hmv.
  destruct (move_ctor last w1) as [[[y last']|] w2]; [|done].
  destruct (_ <=? _)%nat; [|done].
  destruct (move_backward_loop _ _ _ _ w2) as [[o b2] w3] eqn:Hm.
  apply move_backward_loop_nothrow in Hm; [|apply Hsafe].
  destruct o as [[]| |]; [|done|done].
  destruct (RawMemory_at (data_ v) _) as [q|]; [|done].
  destruct (b2 !! q) as [[d|]|]; [|done|done].
  pose proof (nothrow_move_assign _ Hsafe d temp w3) as Hma.
  by destruct (move_assign d temp w3) as [[[d' temp']|] w4].
Qed.

(** As for the appending body: after the constructor call of the
    temporary, the Emplace that has room goes on as it does after a call
    with arguments outside the vector. *)
Lemma Emplace_inplace_construct pos a v w :
  match construct a (buffer_ (data_ v)) w with
  | (Normal (x, b), w1) =>
    Emplace_inplace pos a v w =
    Emplace_inplace pos (Outside (fun _ => (Some x, w1))) (with_buffer v b) w
  | (o, w1) => Emplace_inplace pos a v w = (propagate o, v, w1)
  end.
Proof.
  unfold Emplace_inplace.
  by destruct (construct a _ w) as [[[x b]| |] w1].
Qed.

Lemma Emplace_inplace_outside_spec pos args v l w o v' w' :
  represents v l -> (pos < length l)%nat ->
  size_ v <> Capacity v ->
  Emplace_inplace pos (Outside args) v w = (o, v', w') ->
  o <> Violation /\
  (forall it, o = Normal it ->
   it = pos /\
   exists x, constructs args x /\ represents v' (inserted pos x l)).
Proof.
  intros Hrep Hpos Hroom H.
  pose proof (represents_length _ _ Hrep) as (Hlen & Hle & Hsz).
  pose proof (represents_holds _ _ Hrep) as Hh.
  pose proof (rep_capacity _ _ Hrep) as Hcap.
  pose proof (rep_bytes _ _ Hrep) as Hbytes.
  pose proof (rep_size _ _ Hrep) as Hsize.
  unfold Capacity, RawMemory_Capacity in *.
  unfold Emplace_inplace, construct in H.
  rewrite (index_of_valid _ _ _ Hrep) in H by lia.
  destruct (args w) as [[temp|] w1] eqn:Hargs; [|by simplify_eq].
  unfold end_, begin_, RawMemory_plus, RawMemory_at, GetAddress in H.
  rewrite size_t_sub_small, size_t_add_small in H by lia.
  rewrite (proj2 (Z.leb_le _ _)) in H by lia.
  rewrite !(proj2 (Z.ltb_lt _ _)) in H by lia.
  rewrite Nat2Z.id in H. simpl in H.
  set (b := buffer_ (data_ v)) in *.
  set (n := (length l - 1 - pos)%nat).
  assert (Hlast : exists last, l !! (length l - 1)%nat = Some last)
    by (apply lookup_lt_is_Some_2; lia).
  destruct Hlast as [last Hlast].
  replace (Z.to_nat (size_ v - 1)) with (length l - 1)%nat in H by lia.
  replace (Z.to_nat (size_ v)) with (length l) in H by lia.
  pose proof (Hh _ _ Hlast) as Hbl. simpl in Hbl. rewrite Hbl in H.
  rewrite (proj2 (Nat.ltb_lt _ _)) in H by lia.
  destruct (move_ctor last w1) as [[[y last']|] w2] eqn:Hmv;
    [|by simplify_eq].
  apply move_ctor_value in Hmv as ->.
  set (b1 := <[length l := Some last]> (<[(length l - 1)%nat := Some last']> b))
    in *.
  assert (Hb1 : length b1 = length b)
    by (subst b1; by rewrite !length_insert).
  unfold move_backward in H.
  rewrite (proj2 (Nat.leb_le _ _)) in H by lia.
  destruct (move_backward_loop b1 _ _ _ w2) as [[o1 b2] w3] eqn:Hm.
  eapply move_backward_loop_shift_spec with (xs := take n (drop pos l)) in Hm
    as (Hl2 & Hv2 & Hlv2 & Hout2 & Hok2).
  - replace (length l - 1 - pos)%nat with n in * by done.
    replace (S (pos + n)) with (length l) in * by lia.
    destruct o1 as [[]| |]; [|by simplify_eq|done].
    destruct (Hlv2 pos) as [d Hd]; [lia|]. rewrite Hd in H.
    destruct (move_assign d temp w3) as [[[d' temp']|] w4] eqn:Hma;
      [|by simplify_eq].
    apply move_assign_value in Hma as ->.
    injection H as <- <- <-. split; [done|].
    intros it [= <-]. split; [done|].
    exists temp. split; [by exists w, w1|].
    specialize (Hok2 eq_refl).
    unfold inserted. apply represents_intro; simpl.
    + rewrite length_app, length_take. simpl. rewrite length_drop. lia.
    + fits.
    + rewrite length_insert. unfold b in *. lia.
    + apply holds_app. rewrite length_take.
      replace (0 + pos `min` length l)%nat with pos by lia.
      split.
      * eapply holds_ext; [apply holds_take, Hh|].
        rewrite length_take. intros j Hj.
        rewrite list_lookup_insert_ne by lia. rewrite Hout2 by lia.
        subst b1. by rewrite !list_lookup_insert_ne by lia.
      * apply holds_cons. split; [apply list_lookup_insert_eq; lia|].
        intros i z Hz. rewrite list_lookup_insert_ne by lia.
        pose proof (lookup_lt_Some _ _ _ Hz) as Hi.
        rewrite length_drop in Hi.
        destruct (decide (i < n)%nat) as [Hin|Hin].
        -- apply Hok2. by rewrite lookup_take_lt.
        -- assert (i = n) as -> by lia.
           rewrite lookup_drop in Hz.
           replace (pos + n)%nat with (length l - 1)%nat in Hz by lia.
           rewrite Hout2 by lia. subst b1.
           replace (S pos + n)%nat with (length l) by lia.
           rewrite list_lookup_insert_eq by (rewrite length_insert; lia).
           congruence.
    + rewrite length_app, length_take, length_insert. simpl.
      rewrite length_drop. intros j Hj.
      rewrite list_lookup_insert_ne by lia. rewrite Hout2 by lia.
      subst b1. rewrite !list_lookup_insert_ne by lia.
      apply (represents_raw _ _ _ Hrep). lia.
  - lia.
  - intros i z Hz. apply lookup_take_Some in Hz as [Hz Hi].
    rewrite lookup_drop in Hz. subst b1.
    rewrite !list_lookup_insert_ne by lia. by apply (Hh _ _ Hz).
  - rewrite length_take, length_drop. lia.
  - exists last'. subst b1.
    replace (pos + (length l - 1 - pos))%nat with (length l - 1)%nat by lia.
    rewrite list_lookup_insert_ne by lia.
    apply list_lookup_insert_eq. lia.
Qed.

Lemma Emplace_inplace_spec pos a v l w o v' w' :
  represents v l -> (pos < length l)%nat -> arguments_live a (length l) ->
  size_ v <> Capacity v ->
  Emplace_inplace pos a v w = (o, v', w') ->
  o <> Violation /\
  (forall it, o = Normal it ->
   it = pos /\
   exists x l', constructed a l x l' /\ represents v' (inserted pos x l')).
Proof.
  intros Hrep Hpos Hlive Hroom H.
  pose proof (Emplace_inplace_construct pos a v w) as Hc.
  destruct (construct a _ w) as [[[x b]| |] w1] eqn:Hx.
  - apply (construct_cases _ _ _ _ _ _ Hrep Hlive) in Hx
      as (l' & Hcon & Hlen & Hrep').
    rewrite Hc in H.
    eapply Emplace_inplace_outside_spec in H as [Hv Hok];
      [|done|lia|done].
    split; [done|]. intros it Ho.
    destruct (Hok it Ho) as (-> & y & Hy & Hr).
    apply constructs_given in Hy as ->. split; [done|]. by exists x, l'.
  - rewrite Hc in H. by simplify_eq.
  - by apply (construct_cases _ _ _ _ _ _ Hrep Hlive) in Hx.
Qed.

Lemma inserted_length pos (x : T) l :
  length (inserted pos x l) = S (length l).
Proof.
  unfold inserted. rewrite length_app, length_take. simpl.
  rewrite length_drop. lia.
Qed.

Lemma inserted_lookup pos (x : T) l :
  (pos <= length l)%nat -> inserted pos x l !! pos = Some x.
Proof.
  intros Hpos. unfold inserted.
  rewrite lookup_app_r by (rewrite length_take; lia).
  rewrite length_take.
  by replace (pos - pos `min` length l)%nat with 0%nat by lia.
Qed.

Lemma EmplaceBack_nothrow a v w v' w' :
  nothrow E -> args_nothrow a -> EmplaceBack a v w <> (Threw, v', w').
Proof.
  unfold EmplaceBack. intros Hsafe Hargs H.
  destruct (append a v w) as [[o v1] w1] eqn:Ha.
  destruct o as [[]| |]; simpl in H.
  - by destruct (RawMemory_at _ _).
  - by eapply append_nothrow.
  - done.
Qed.

Lemma Emplace_cases pos a v l w o v' w' :
  represents v l -> (pos <= length l)%nat -> arguments_live a (length l) ->
  Emplace pos a v w = (o, v', w') ->
  match o with
  | Normal it =>
    it = pos /\
    exists x l', constructed a l x l' /\ represents v' (inserted pos x l')
  | Threw => args_nothrow a -> ~ nothrow E
  | Violation =>
    Size v = Capacity v /\ size_t_modulus <= 2 * Size v * sizeof_T
  end.
Proof.
  intros Hrep Hpos Hlive H.
  pose proof (represents_length _ _ Hrep) as (Hlen & Hle & Hsz).
  pose proof (rep_capacity _ _ Hrep) as Hcap.
  pose proof (rep_bytes _ _ Hrep) as Hbytes.
  pose proof (rep_size _ _ Hrep) as Hsize.
  unfold Emplace, end_, RawMemory_plus in H.
  rewrite (proj2 (Z.leb_le _ _)) in H by lia. rewrite Hsz in H.
  destruct (decide (size_ v = Capacity v ->
                    2 * size_ v * sizeof_T < size_t_modulus))
    as [Hdouble|Hover].
  - (* there is room to double, if need be *)
    assert (o <> Violation /\
            (forall it, o = Normal it ->
             it = pos /\
             exists x l', constructed a l x l' /\
                          represents v' (inserted pos x l'))) as [Hv Hok].
    { destruct (pos =? length l)%nat eqn:Hend.
      - apply Nat.eqb_eq in Hend as ->.
        eapply EmplaceBack_spec in H as [Hv Hok]; [|done|done|done].
        split; [done|]. intros it Hit.
        destruct (Hok it Hit) as (-> & x & l' & Hx & Hr).
        split; [done|]. exists x, l'. split; [done|].
        by rewrite <- (constructed_length _ _ _ _ Hx), inserted_at_end.
      - apply Nat.eqb_neq in Hend.
        destruct (size_ v =? Capacity v) eqn:Hfull.
        + apply Z.eqb_eq in Hfull.
          eapply Emplace_realloc_spec;
            [done|lia|done|done|by apply Hdouble|done].
        + apply Z.eqb_neq in Hfull.
          eapply Emplace_inplace_spec; [done|lia|done|done|done]. }
    destruct o as [it| |]; [by apply Hok| |done].
    intros Hargs Hsafe.
    destruct (pos =? length l)%nat; [by eapply EmplaceBack_nothrow|].
    destruct (size_ v =? Capacity v).
    + by eapply Emplace_realloc_nothrow.
    + by eapply Emplace_inplace_nothrow.
  - (* the bytes of the doubled capacity are not counted by a size_t *)
    assert (Hfull : size_ v = Capacity v)
      by (destruct (decide (size_ v = Capacity v)); [done|]; by destruct Hover).
    assert (Hbig : size_t_modulus <= 2 * size_ v * sizeof_T)
      by (destruct (decide (2 * size_ v * sizeof_T < size_t_modulus)); [|lia];
          by destruct Hover).
    rewrite (proj2 (Z.eqb_eq _ _) Hfull) in H.
    unfold Capacity, RawMemory_Capacity in Hfull.
    destruct o as [it| |]; [exfalso| |done].
    + destruct (pos =? length l)%nat eqn:Hend.
      * unfold EmplaceBack in H.
        destruct (append a v w) as [[o1 v1] w1] eqn:Ha.
        destruct o1 as [[]| |]; [|done|done].
        apply append_returned_fits in Ha; [lia|lia|lia|done].
      * apply Nat.eqb_neq in Hend.
        eapply Emplace_realloc_returned_fits in H; [lia|done|done|lia].
    + intros Hargs Hsafe.
      destruct (pos =? length l)%nat; [by eapply EmplaceBack_nothrow|].
      by eapply Emplace_realloc_nothrow.
Qed.

Lemma constructs_copy value x : constructs (copy_ctor value) x -> x = value.
Proof. intros (w0 & w1 & H). by apply copy_ctor_value in H. Qed.

Lemma constructs_move value x : constructs (move_from value) x -> x = value.
Proof.
  unfold move_from. intros (w0 & w1 & H).
  destruct (move_ctor value w0) as [[[y r]|] w2] eqn:Hm; [|done].
  apply move_ctor_value in Hm. by simplify_eq.
Qed.

Lemma nothrow_copy_args value : nothrow E -> args_nothrow (Outside (copy_ctor value)).
Proof. intros Hsafe w. apply Hsafe. Qed.

Lemma nothrow_forward_rvalue r : nothrow E -> args_nothrow (forward_rvalue r).
Proof.
  intros Hsafe. destruct r as [value|p]; simpl; [|apply Hsafe].
  intros w. unfold move_from.
  pose proof (nothrow_move _ Hsafe value w) as Hm.
  by destruct (move_ctor value w) as [[[y r]|] w1].
Qed.

(** C4: Emplace and Insert.  On a valid vector with the elements l and a
    position pos in [begin, end], when the call returns, the new element
    is at the index pos, the size has grown by one and the other elements
    are in their former order: the vector holds the elements before pos,
    the new element, and the elements from pos on.  The new element of
    Insert(pos, const T&) and of Insert(pos, T&&) is the value of the
    argument.  The other elements are those of l, except that an element
    of the vector that was passed as the T&& to move from is left
    moved-from, in its place.  The iterator returned is pos.  The call
    throws only if something it calls throws, and its behaviour is
    undefined only when the vector is full and the bytes of twice its size
    are not counted by a size_t. *)
Theorem Emplace_spec pos a v l w :
  represents v l ->
  (pos <= length l)%nat ->
  arguments_live a (length l) ->
  match Emplace pos a v w with
  | (Normal it, v', _) =>
    it = pos /\
    Size v' = Size v + 1 /\
    exists x l', constructed a l x l' /\
                 represents v' (inserted pos x l') /\
                 at_ v' (Z.of_nat pos) = Some x
  | (Threw, _, _) => args_nothrow a -> ~ nothrow E
  | (Violation, _, _) =>
    Size v = Capacity v /\ size_t_modulus <= 2 * Size v * sizeof_T
  end /\
  (forall value,
     match Insert pos value v w with
     | (Normal it, v', _) =>
       it = pos /\ Size v' = Size v + 1 /\
       represents v' (inserted pos value l)
     | (Threw, _, _) => ~ nothrow E
     | (Violation, _, _) =>
       Size v = Capacity v /\ size_t_modulus <= 2 * Size v * sizeof_T
     end) /\
  (forall r,
     arguments_live (forward_rvalue r) (length l) ->
     match Insert_move pos r v w with
     | (Normal it, v', _) =>
       it = pos /\ Size v' = Size v + 1 /\
       match r with
       | OutsideObject value => represents v' (inserted pos value l)
       | ElementAt p =>
         exists x s', l !! p = Some x /\
                      represents v' (inserted pos x (<[p := s']> l))
       end
     | (Threw, _, _) => ~ nothrow E
     | (Violation, _, _) =>
       Size v = Capacity v /\ size_t_modulus <= 2 * Size v * sizeof_T
     end).
Proof.
  intros Hrep Hpos Hlive.
  assert (Hsize : forall v' x l', represents v' (inserted pos x l') ->
                    length l' = length l -> Size v' = Size v + 1).
  { intros v' x l' Hr Hl. pose proof (rep_size _ _ Hr) as Hs.
    rewrite inserted_length in Hs.
    pose proof (rep_size _ _ Hrep). unfold Size. lia. }
  split_and!.
  - destruct (Emplace pos a v w) as [[o v'] w'] eqn:HE.
    pose proof (Emplace_cases _ _ _ _ _ _ _ _ Hrep Hpos Hlive HE) as Hc.
    destruct o as [it| |]; [|done|done].
    destruct Hc as (-> & x & l' & Hx & Hr).
    pose proof (constructed_length _ _ _ _ Hx) as Hl.
    split_and!; [done|by eapply Hsize|].
    exists x, l'. split_and!; [done|done|].
    rewrite (represents_at _ _ _ Hr) by lia.
    rewrite Nat2Z.id. apply inserted_lookup. lia.
  - intros value. unfold Insert.
    destruct (Emplace pos _ v w) as [[o v'] w'] eqn:HE.
    pose proof (Emplace_cases pos (Outside (copy_ctor value)) _ _ _ _ _ _
                  Hrep Hpos I HE) as Hc.
    destruct o as [it| |]; [| |done].
    + destruct Hc as (-> & x & l' & [Hx ->] & Hr).
      apply constructs_copy in Hx as ->.
      split_and!; [done|by eapply Hsize|done].
    + intros Hsafe. by apply Hc; [apply nothrow_copy_args|].
  - intros r Hr. unfold Insert_move.
    destruct (Emplace pos _ v w) as [[o v'] w'] eqn:HE.
    pose proof (Emplace_cases _ _ _ _ _ _ _ _ Hrep Hpos Hr HE) as Hc.
    destruct o as [it| |]; [| |done].
    + destruct Hc as (-> & x & l' & Hx & Hrep').
      pose proof (constructed_length _ _ _ _ Hx) as Hl.
      split_and!; [done|by eapply Hsize|].
      destruct r as [value|p]; simpl in Hx.
      * destruct Hx as [Hx ->]. by apply constructs_move in Hx as ->.
      * destruct Hx as [Hx [s' ->]]. by exists x, s'.
    + intros Hsafe. by apply Hc; [apply nothrow_forward_rvalue|].
Qed.

(** *** Copy assignment *)

Lemma Vector_destroy_valid v l w :
  represents v l -> exists w', Vector_destroy v w = Some w'.
Proof.
  intros Hrep. unfold Vector_destroy, GetAddress.
  pose proof (represents_length _ _ Hrep) as (_ & _ & ->).
  destruct (destroy_n_total (length l) (buffer_ (data_ v)) 0 w)
    as (b' & w' & ->); [|eauto].
  apply (holds_live _ _ _ (represents_holds _ _ Hrep)).
Qed.

Lemma assign_copy_inplace_nothrow rhs v w v' w' :
  nothrow E -> (Capacity v <? size_ rhs) = false ->
  assign_copy (Other rhs) v w <> (Threw, v', w').
Proof.
  unfold assign_copy. intros Hsafe -> H.
  destruct (copy_n _ _ _ _ _ w) as [[o1 b1] w1] eqn:Hc.
  apply copy_n_nothrow in Hc; [|apply Hsafe].
  destruct o1 as [[]| |]; [|done|done].
  destruct (size_ rhs <? size_ v).
  - by destruct (destroy_n b1 _ _ w1) as [[? ?]|].
  - destruct (uninitialized_copy_n _ _ _ b1 _ w1) as [[o2 b2] w2] eqn:Hu.
    apply uninitialized_copy_loop_nothrow in Hu; [|apply Hsafe].
    by destruct o2 as [[]| |].
Qed.

Lemma assign_copy_cases rhs lr v l w o v' w' :
  represents v l -> represents rhs lr ->
  assign_copy (Other rhs) v w = (o, v', w') ->
  match o with
  | Normal _ =>
    represents v' lr /\
    Capacity v' = (if Capacity v <? Size rhs then Size rhs else Capacity v)
  | Threw => (Capacity v < Size rhs -> v' = v) /\ ~ nothrow E
  | Violation => False
  end.
Proof.
  intros Hrep Hrhs H.
  pose proof (represents_length _ _ Hrep) as (Hlen & Hle & Hsz).
  pose proof (represents_holds _ _ Hrep) as Hh.
  pose proof (rep_capacity _ _ Hrep) as Hcap.
  pose proof (rep_bytes _ _ Hrep) as Hbytes.
  pose proof (rep_size _ _ Hrep) as Hsize.
  pose proof (represents_length _ _ Hrhs) as (Hlenr & Hler & Hszr).
  pose proof (represents_holds _ _ Hrhs) as Hhr.
  pose proof (rep_capacity _ _ Hrhs) as Hcapr.
  pose proof (rep_bytes _ _ Hrhs) as Hbytesr.
  pose proof (rep_size _ _ Hrhs) as Hsizer.
  unfold Size.
  destruct (Capacity v <? size_ rhs) eqn:Hgrow.
  - (* a copy is built and swapped in *)
    unfold assign_copy in H. rewrite Hgrow in H.
    destruct (Vector_copy rhs w) as [oc w1] eqn:Hc.
    pose proof (Vector_copy_cases _ _ _ _ _ Hrhs Hc) as Hcc.
    destruct oc as [copy| |]; simpl in H; [| |done].
    + destruct Hcc as [Hr Hcc].
      unfold Swap, RawMemory_Swap in H. simpl in H.
      destruct (Vector_destroy_valid {| data_ := data_ v; size_ := size_ v |}
                  l w1) as [w2 Hd]; [by destruct v|].
      rewrite Hd in H. injection H as <- <- <-.
      split; [by destruct copy|done].
    + injection H as <- <- <-. done.
  - (* the storage is reused *)
    apply Z.ltb_ge in Hgrow. unfold Capacity, RawMemory_Capacity in Hgrow.
    destruct o as [[]| |].
    2:{ split; [unfold Capacity, RawMemory_Capacity; lia|].
        intros Hsafe. eapply assign_copy_inplace_nothrow; [done| |done].
        apply Z.ltb_ge. unfold Capacity, RawMemory_Capacity. lia. }
    all: unfold assign_copy in H;
      rewrite (proj2 (Z.ltb_ge (Capacity v) (size_ rhs))) in H
        by (unfold Capacity, RawMemory_Capacity; lia);
      unfold GetAddress in H; simpl in H.
    all: set (m := Z.to_nat (if size_ rhs <? size_ v then size_ rhs
                             else size_ v)) in *.
    all: assert (Hm : m = (length lr `min` length l)%nat)
      by (subst m; destruct (size_ rhs <? size_ v) eqn:Hlt;
          [apply Z.ltb_lt in Hlt|apply Z.ltb_ge in Hlt]; lia).
    all: destruct (copy_n _ _ _ _ _ w) as [[o1 b1] w1] eqn:Hc.
    all: eapply copy_n_spec with (xs := take m lr) in Hc
        as (Hl1 & Hv1 & Hlv1 & Hout1 & Hok1);
        [|by apply holds_take|rewrite length_take; lia
         |intros j Hj; apply (holds_live _ _ _ Hh); lia].
    all: destruct o1 as [[]| |]; simpl in H; [|done|done].
    all: specialize (Hok1 eq_refl).
    all: destruct (size_ rhs <? size_ v) eqn:Hlt;
      [apply Z.ltb_lt in Hlt|apply Z.ltb_ge in Hlt].
    all: try rewrite size_t_sub_small in H by lia.
    + (* the source is shorter: the excess is destroyed *)
      destruct (destroy_n_total (Z.to_nat (size_ v - size_ rhs)) b1 m w1)
        as (b2 & w2 & Hd).
      { intros j Hj. rewrite Hout1 by lia.
        apply (holds_live _ _ _ Hh). lia. }
      rewrite Hd in H. injection H as <- <-.
      apply destroy_n_spec in Hd as (Hl2 & _ & Hin2 & Hout2).
      split; [|done].
      apply represents_intro; simpl; [done|lia|lia| |].
      * rewrite take_ge in Hok1 by lia.
        eapply holds_ext; [exact Hok1|]. intros j Hj. apply Hout2. lia.
      * intros j Hj.
        destruct (decide (j < length l)%nat) as [Hjl|Hjl].
        -- apply Hin2. lia.
        -- rewrite Hout2, Hout1 by lia.
           apply (represents_raw _ _ _ Hrep). lia.
    + (* the source is not shorter: the rest is constructed *)
      destruct (uninitialized_copy_n _ _ _ b1 _ w1) as [[o2 b2] w2] eqn:Hu.
      eapply uninitialized_copy_loop_spec with (xs := drop m lr) in Hu
        as (Hl2 & Hv2 & Hout2 & Hok2);
        [| |rewrite length_drop; lia|done|lia|intros j Hj; lia].
      2:{ replace (Z.to_nat (size_ v)) with m by lia.
          by apply holds_drop. }
      destruct o2 as [[]| |]; simpl in H; [|done|done].
      injection H as <- <-.
      destruct Hok2 as [Hh2 Hlow2]; [done|].
      split; [|done].
      apply represents_intro; simpl; [done|lia|lia| |].
      * rewrite <- (take_drop m lr). apply holds_app.
        rewrite length_take. split.
        -- eapply holds_ext; [exact Hok1|]. rewrite length_take.
           intros j Hj. apply Hlow2. lia.
        -- by replace (0 + m `min` length lr)%nat with m by lia.
      * intros j Hj. rewrite Hout2, Hout1 by lia.
        apply (represents_raw _ _ _ Hrep). lia.
    + destruct (destroy_n_total (Z.to_nat (size_ v - size_ rhs)) b1 m w1)
        as (b2 & w2 & Hd).
      { intros j Hj. rewrite Hout1 by lia.
        apply (holds_live _ _ _ Hh). lia. }
      rewrite Hd in H. done.
    + destruct (uninitialized_copy_n _ _ _ b1 _ w1) as [[o2 b2] w2] eqn:Hu.
      eapply uninitialized_copy_loop_spec with (xs := drop m lr) in Hu
        as (Hl2 & Hv2 & Hout2 & Hok2);
        [| |rewrite length_drop; lia|done|lia|intros j Hj; lia].
      2:{ replace (Z.to_nat (size_ v)) with m by lia.
          by apply holds_drop. }
      destruct o2 as [[]| |]; simpl in H; done.
Qed.


(** *** PopBack and Resize *)

Lemma PopBack_cases v l w o v' w' :
  represents v l -> 0 < Size v ->
  PopBack v w = (o, v', w') ->
  o = Normal tt /\ represents v' (take (length l - 1) l).
Proof.
  intros Hrep Hpos H.
  pose proof (represents_length _ _ Hrep) as (Hlen & Hle & Hsz).
  pose proof (represents_holds _ _ Hrep) as Hh.
  pose proof (rep_capacity _ _ Hrep) as Hcap.
  pose proof (rep_bytes _ _ Hrep) as Hbytes.
  pose proof (rep_size _ _ Hrep) as Hsize.
  unfold Size in Hpos. unfold PopBack, RawMemory_plus in H.
  rewrite (proj2 (Z.ltb_lt _ _)) in H by lia.
  rewrite size_t_sub_small in H by lia.
  rewrite (proj2 (Z.leb_le _ _)) in H by lia.
  replace (Z.to_nat (size_ v - 1)) with (length l - 1)%nat in H by lia.
  destruct (holds_live _ _ _ Hh (length l - 1)%nat) as [x Hx]; [lia|].
  unfold destroy_at in H. rewrite Hx in H. injection H as <- <- <-.
  split; [done|].
  apply represents_intro; simpl.
  - rewrite length_take. lia.
  - lia.
  - by rewrite length_insert.
  - eapply holds_ext; [apply holds_take, Hh|]. rewrite length_take.
    intros j Hj. apply list_lookup_insert_ne. lia.
  - rewrite length_take, length_insert. intros j Hj.
    destruct (decide (j = length l - 1)%nat) as [->|Hne].
    + apply list_lookup_insert_eq. lia.
    + rewrite list_lookup_insert_ne by lia.
      apply (represents_raw _ _ _ Hrep). lia.
Qed.

(** The block of a Reserve that has reallocated. *)
Lemma Reserve_returned_block n v w v' w' :
  Reserve n v w = (Normal tt, v', w') -> Capacity v < n -> 0 <= n ->
  length (buffer_ (data_ v')) = Z.to_nat (size_t_mul n sizeof_T / sizeof_T) /\
  size_ v' = size_ v.
Proof.
  unfold Reserve, Capacity. intros H Hlt Hn.
  destruct (n <=? _) eqn:Hle; [apply Z.leb_le in Hle; lia|].
  destruct (RawMemory_new n w) as [[new_data|] w1] eqn:Hnew; [|done].
  apply RawMemory_new_block in Hnew as ->; [|done]. simpl in H.
  destruct (CopyOrMove _ _ _ _ _ w1) as [[o [ob nb]] w2] eqn:Hm.
  destruct o as [[]| |]; simpl in H; [|done|done].
  apply CopyOrMove_bounds in Hm as (Hl & _ & _).
  rewrite length_replicate in Hl. by simplify_eq.
Qed.

Lemma Resize_cases n v l w v' w' :
  represents v l -> 0 <= n < size_t_modulus ->
  Resize n v w = (Normal tt, v', w') ->
  exists l', represents v' l' /\ Size v' = n /\
             take (length l) l' = take (Z.to_nat n) l.
Proof.
  intros Hrep Hn H.
  pose proof (represents_length _ _ Hrep) as (Hlen & Hle & Hsz).
  pose proof (represents_holds _ _ Hrep) as Hh.
  pose proof (rep_capacity _ _ Hrep) as Hcap.
  pose proof (rep_bytes _ _ Hrep) as Hbytes.
  pose proof (rep_size _ _ Hrep) as Hsize.
  unfold Resize, GetAddress in H. simpl in H.
  destruct (n <? size_ v) eqn:Hlt.
  - apply Z.ltb_lt in Hlt. rewrite size_t_sub_small in H by lia.
    destruct (destroy_n _ _ _ w) as [[b w1]|] eqn:Hd; [|done].
    injection H as <- <-.
    apply destroy_n_spec in Hd as (Hl & _ & Hin & Hout).
    exists (take (Z.to_nat n) l). split_and!; [|done|].
    + apply represents_intro; simpl.
      * rewrite length_take. lia.
      * lia.
      * lia.
      * eapply holds_ext; [apply holds_take, Hh|]. rewrite length_take.
        intros j Hj. apply Hout. lia.
      * rewrite length_take. intros j Hj.
        destruct (decide (j < length l)%nat) as [Hjl|Hjl].
        -- apply Hin. lia.
        -- rewrite Hout by lia. apply (represents_raw _ _ _ Hrep). lia.
    + rewrite take_take. f_equal. lia.
  - apply Z.ltb_ge in Hlt. destruct (size_ v <? n) eqn:Hgt.
    + apply Z.ltb_lt in Hgt.
      destruct (Reserve n v w) as [[o1 v1] w1] eqn:Hr.
      destruct o1 as [[]| |]; simpl in H; [|done|done].
      assert (Hfit : n * sizeof_T < size_t_modulus).
      { destruct (decide (n * sizeof_T < size_t_modulus)) as [|Hwrap];
          [done|].
        exfalso. pose proof (@sizeof_T_range _ _ E) as Hsizeof.
        assert (Hgt' : Capacity v < n)
          by (unfold Capacity, RawMemory_Capacity; nia).
        apply Reserve_returned_block in Hr as [Hb1 Hs1]; [|done|lia].
        destruct (uninitialized_value_construct_n _ _ _ w1)
          as [[o2 b] w2] eqn:Hu.
        destruct o2 as [[]| |]; simpl in H; [|done|done].
        apply uninitialized_value_construct_loop_bounds in Hu.
        rewrite Hb1, Hs1 in Hu. rewrite size_t_sub_small in Hu by lia.
        assert (Hw : size_t_modulus <= n * sizeof_T) by lia.
        pose proof (slots_wrapped n (proj1 Hn) Hw) as Hslots.
        lia. }
      assert (Hv1 : represents v1 l /\ n <= Capacity v1).
      { pose proof (Reserve_cases n v l w Hrep (proj1 Hn)) as [Hnop Hgrow].
        destruct (decide (n <= Capacity v)) as [Hle'|Hgt'].
        - rewrite (Hnop Hle') in Hr. by simplify_eq.
        - specialize (Hgrow ltac:(lia)). rewrite Hr in Hgrow.
          destruct Hgrow as (? & ? & ? & Hre & ?).
          split; [by apply Hre|lia]. }
      destruct Hv1 as [Hrep1 Hcap1].
      pose proof (represents_length _ _ Hrep1) as (Hlen1 & Hle1 & Hsz1).
      pose proof (rep_capacity _ _ Hrep1) as Hcapb.
      pose proof (rep_bytes _ _ Hrep1) as Hbytesb.
      pose proof (rep_size _ _ Hrep1) as Hsize1.
      unfold Capacity, RawMemory_Capacity in Hcap1.
      rewrite size_t_sub_small in H by lia.
      destruct (uninitialized_value_construct_n _ _ _ w1)
        as [[o2 b] w2] eqn:Hu.
      eapply uninitialized_value_construct_loop_spec in Hu
        as (Hl & Hv & Hok); [|lia|intros j Hj; lia].
      destruct o2 as [[]| |]; simpl in H; [|done|done].
      injection H as <- <-.
      destruct Hok as [Hlive Hout]; [done|].
      apply live_range_holds in Hlive as (ys & Hys & Hhys).
      exists (l ++ ys). split_and!; [|done|].
      * apply represents_intro; simpl.
        -- rewrite length_app. lia.
        -- lia.
        -- lia.
        -- apply holds_app. split.
           ++ eapply holds_ext; [apply (represents_holds _ _ Hrep1)|].
              intros j Hj. apply Hout. lia.
           ++ by replace (0 + length l)%nat with (Z.to_nat (size_ v1)) by lia.
        -- rewrite length_app. intros j Hj. rewrite Hout by lia.
           apply (represents_raw _ _ _ Hrep1). lia.
      * rewrite take_app_length. by rewrite take_ge by lia.
    + apply Z.ltb_ge in Hgt. injection H as <- <-.
      assert (n = size_ v) as -> by lia.
      exists l. split_and!; [by destruct v|done|].
      by rewrite !take_ge by lia.
Qed.

(** *** Every operation that returns leaves a valid vector *)

Lemma do_append_cases c v l w o v' w' :
  represents v l -> arguments_live (call_args c) (length l) ->
  do_append c v w = (o, v', w') ->
  match o with
  | Normal _ =>
    exists x l', constructed (call_args c) l x l' /\ represents v' (l' ++ [x])
  | Threw => ~ (nothrow E /\ call_nothrow c)
  | Violation =>
    size_ v = Capacity v /\ size_t_modulus <= 2 * size_ v * sizeof_T
  end.
Proof.
  intros Hrep Hlive H.
  pose proof (rep_capacity _ _ Hrep) as Hcap.
  pose proof (rep_bytes _ _ Hrep) as Hbytes.
  pose proof (rep_size _ _ Hrep) as Hsize.
  assert (exists o1,
            append (call_args c) v w = (o1, v', w') /\
            (o1 = Normal tt ->
             o = Normal tt \/
             (o = Violation /\
              RawMemory_at (data_ v') (size_t_sub (size_ v') 1) = None)) /\
            (o1 = Threw -> o = Threw) /\ (o1 = Violation -> o = Violation))
    as (o1 & Ha & Hn & Ht & Hv).
  { destruct c as [value|value|a]; simpl in H |- *.
    - exists o. split_and!; [done| |done|done]. intros ->. by left.
    - exists o. split_and!; [done| |done|done]. intros ->. by left.
    - unfold EmplaceBack in H.
      destruct (append a v w) as [[o1 v1] w1] eqn:Ha.
      exists o1. destruct o1 as [[]| |]; simpl in H.
      + destruct (RawMemory_at _ _) eqn:Hat; simpl in H;
          injection H as <- <- <-; split_and!; try done.
        * intros _. by left.
        * intros _. by right.
      + injection H as <- <- <-. by split_and!.
      + injection H as <- <- <-. by split_and!. }
  destruct (decide (size_ v = Capacity v ->
                    2 * size_ v * sizeof_T < size_t_modulus))
    as [Hdouble|Hover].
  - pose proof (append_spec _ _ _ _ _ _ _ Hrep Hlive Hdouble Ha) as [Hnv Hok].
    destruct o1 as [[]| |]; [| |done].
    + destruct Hok as (x & l' & Hx & Hr); [done|].
      destruct Hn as [->|[-> Hat]]; [done|eauto|].
      pose proof (rep_capacity _ _ Hr) as Hc.
      pose proof (rep_size _ _ Hr) as Hs.
      rewrite length_app in Hs. simpl in Hs.
      unfold RawMemory_at in Hat. rewrite size_t_sub_small in Hat by lia.
      rewrite (proj2 (Z.ltb_lt _ _)) in Hat by lia. done.
    + rewrite (Ht eq_refl). intros [Hsafe Hc].
      by eapply append_nothrow.
  - assert (Hfull : size_ v = Capacity v)
      by (destruct (decide (size_ v = Capacity v)); [done|]; by destruct Hover).
    assert (Hbig : size_t_modulus <= 2 * size_ v * sizeof_T)
      by (destruct (decide (2 * size_ v * sizeof_T < size_t_modulus)); [|lia];
          by destruct Hover).
    destruct o1 as [[]| |].
    + apply append_returned_fits in Ha; [lia|lia| |done].
      unfold Capacity, RawMemory_Capacity in Hfull. by rewrite Hfull.
    + rewrite (Ht eq_refl). intros [Hsafe Hc].
      by eapply append_nothrow.
    + by rewrite (Hv eq_refl).
Qed.

Lemma appends_cases cs : forall v l w n o v' w',
  represents v l -> grown v n -> 0 <= n -> calls_live cs (length l) ->
  appends cs v w = (o, v', w') ->
  match o with
  | Normal _ => grown v' (n + Z.of_nat (length cs))
  | Threw => ~ (nothrow E /\ Forall call_nothrow cs)
  | Violation => 2 ^ 63 < (n + Z.of_nat (length cs)) * sizeof_T
  end.
Proof.
  pose proof (@sizeof_T_range _ _ E) as Hsizeof.
  induction cs as [|c cs IH]; intros v l w n o v' w' Hrep Hg Hn Hlive H;
    simpl in H.
  - injection H as <- <- <-. simpl. by rewrite Z.add_0_r.
  - destruct Hlive as [Hlive Hlives].
    destruct (do_append c v w) as [[o1 v1] w1] eqn:Hc.
    pose proof (do_append_cases _ _ _ _ _ _ _ Hrep Hlive Hc) as Hcase.
    destruct o1 as [[]| |].
    + destruct Hcase as (x & l' & Hx & Hrep1).
      apply constructed_length in Hx.
      eapply do_append_grown in Hc; [|done|done].
      assert (Hlives' : calls_live cs (length (l' ++ [x])))
        by (rewrite length_app, Hx; simpl;
            by replace (length l + 1)%nat with (S (length l)) by lia).
      specialize (IH _ _ _ _ _ _ _ Hrep1 Hc ltac:(lia) Hlives' H).
      replace (n + Z.of_nat (length (c :: cs)))
        with (n + 1 + Z.of_nat (length cs)) by (simpl length; lia).
      destruct o as [[]| |]; [done| |done].
      intros [Hsafe Hall]. apply IH. split; [done|].
      by apply Forall_cons in Hall as [_ ?].
    + injection H as <- <- <-. intros [Hsafe Hall]. apply Hcase.
      split; [done|]. by apply Forall_cons in Hall as [? _].
    + injection H as <- <- <-. destruct Hcase as [Hfull Hbig].
      destruct Hg as [<- Hcap]. unfold Capacity, RawMemory_Capacity in Hfull.
      change size_t_modulus with (2 * 2 ^ 63) in Hbig.
      simpl length. nia.
Qed.

Lemma returning_operation_leaves_valid (op : @operation T W) v w v' w' :
  valid v -> precondition op v ->
  run op v w = (Normal tt, v', w') ->
  valid v'.
Proof.
  intros [l Hrep] Hpre H.
  pose proof (rep_size _ _ Hrep) as Hsize.
  pose proof (@sizeof_T_range _ _ E) as Hsizeof.
  assert (Hsz : Z.to_nat (size_ v) = length l) by lia.
  destruct op as [[|rhs]|n|n|value|value| |a|pos a|pos|pos value
                 |pos value]; simpl in H, Hpre; unfold Size in Hpre;
    rewrite ?Hsz in Hpre.
  - injection H as <- <-. by exists l.
  - destruct Hpre as [lr Hrhs].
    pose proof (assign_copy_cases _ _ _ _ _ _ _ _ Hrep Hrhs H) as [Hr _].
    by exists lr.
  - pose proof (Reserve_cases n v l w Hrep (proj1 Hpre)) as [Hnop Hgrow].
    destruct (decide (n <= Capacity v)) as [Hle|Hgt].
    + rewrite (Hnop Hle) in H. injection H as <- <-. by exists l.
    + specialize (Hgrow ltac:(lia)). rewrite H in Hgrow.
      destruct Hgrow as (_ & _ & _ & Hr & _). exists l. apply Hr, Hpre.
  - assert (Hn : 0 <= n < size_t_modulus) by nia.
    destruct (Resize_cases _ _ _ _ _ _ Hrep Hn H) as (l' & Hr & _).
    by exists l'.
  - pose proof (do_append_cases (ByPushBack value) _ _ _ _ _ _ Hrep I H)
      as (x & l' & _ & Hr). by eexists.
  - pose proof (do_append_cases (ByPushBackMove value) _ _ _ _ _ _ Hrep Hpre H)
      as (x & l' & _ & Hr). by eexists.
  - destruct (PopBack_cases _ _ _ _ _ _ Hrep Hpre H) as [_ Hr]. by eexists.
  - pose proof (do_append_cases (ByEmplaceBack a) _ _ _ _ _ _ Hrep Hpre H)
      as (x & l' & _ & Hr). by eexists.
  - apply forget_eq in H as (o' & H & _ & Hn).
    destruct Hn as [it ->]; [done|]. destruct Hpre as [Hpos Hlive].
    assert (Hp : (pos <= length l)%nat) by lia.
    pose proof (Emplace_cases _ _ _ _ _ _ _ _ Hrep Hp Hlive H) as Hc.
    destruct Hc as (_ & x & l' & _ & Hr). by eexists.
  - apply forget_eq in H as (o' & H & _ & Hn).
    destruct Hn as [it ->]; [done|].
    assert (Hp : (pos < length l)%nat) by lia.
    pose proof (Erase_cases pos v l w Hrep Hp) as Hc.
    rewrite H in Hc. destruct Hc as (Hr & _). by eexists.
  - apply forget_eq in H as (o' & H & _ & Hn).
    destruct Hn as [it ->]; [done|].
    unfold Insert in H.
    assert (Hp : (pos <= length l)%nat) by lia.
    pose proof (Emplace_cases pos (Outside (copy_ctor value)) _ _ _ _ _ _
                  Hrep Hp I H) as Hc.
    destruct Hc as (_ & x & l' & _ & Hr). by eexists.
  - apply forget_eq in H as (o' & H & _ & Hn).
    destruct Hn as [it ->]; [done|]. destruct Hpre as [Hpos Hlive].
    unfold Insert_move in H.
    assert (Hp : (pos <= length l)%nat) by lia.
    pose proof (Emplace_cases _ _ _ _ _ _ _ _ Hrep Hp Hlive H) as Hc.
    destruct Hc as (_ & x & l' & _ & Hr). by eexists.
Qed.

(** The appends return when nothing throws, the references are to live
    elements and the bytes of the elements are at most 2^63. *)
Lemma appends_return (cs : list (@append_call T W)) w :
  nothrow E -> Forall call_nothrow cs -> calls_live cs 0 ->
  Z.of_nat (length cs) * sizeof_T <= 2 ^ 63 ->
  exists v' w', appends cs Vector_default w = (Normal tt, v', w').
Proof.
  intros Hsafe Hall Hlive Hlen.
  destruct (appends cs Vector_default w) as [[o v'] w'] eqn:H.
  pose proof (appends_cases cs _ [] _ 0 _ _ _ represents_default
                ltac:(by split; [|left]) ltac:(lia) Hlive H) as Hc.
  destruct o as [[]| |]; [eauto|by destruct Hc|lia].
Qed.

(** *** What a throwing reallocating Emplace leaves behind

    When the migration is safe, a reallocating Emplace that throws leaves
    the vector as it was, or, when the throw came from the migration of the
    suffix, with the slots of the prefix [0, pos) destroyed: CopyOrMove has
    destroyed the prefix of the old block before the suffix is migrated, and
    the handler restores nothing. *)
Lemma Emplace_realloc_throw_cases pos args v l w v' w' :
  migration_safe E ->
  represents v l -> (pos < length l)%nat -> size_ v = Capacity v ->
  Emplace_realloc pos (Outside args) v w = (Threw, v', w') ->
  v' = v \/
  (size_ v' = size_ v /\ Capacity v' = Capacity v /\
   (forall j, (j < pos)%nat -> buffer_ (data_ v') !! j = Some None) /\
   (forall j, (pos <= j)%nat ->
              buffer_ (data_ v') !! j = buffer_ (data_ v) !! j)).
Proof.
  intros Hsafe Hrep Hpos Hfull H.
  pose proof (represents_length _ _ Hrep) as (Hlen & Hle & Hsz).
  pose proof (represents_holds _ _ Hrep) as Hh.
  pose proof (rep_capacity _ _ Hrep) as Hcap.
  pose proof (rep_bytes _ _ Hrep) as Hbytes.
  pose proof (rep_size _ _ Hrep) as Hsize.
  unfold Emplace_realloc in H.
  rewrite (index_of_valid _ _ _ Hrep) in H by lia.
  destruct (RawMemory_new _ w) as [[new_data|] w1]; [|left; by simplify_eq].
  destruct (RawMemory_plus new_data _) as [p|] eqn:Hp; [|done].
  unfold RawMemory_plus in Hp.
  destruct (_ <=? capacity_ new_data); [|done].
  injection Hp as <-. rewrite Nat2Z.id in H.
  destruct (pos <? length (buffer_ new_data))%nat eqn:Hin; [|done].
  apply Nat.ltb_lt in Hin. unfold construct in H.
  destruct (args w1) as [[x|] w2]; [|left; by simplify_eq].
  destruct (CopyOrMove _ _ _ _ _ w2) as [[o2 [ob nb1]] w3] eqn:Hm1.
  pose proof Hm1 as Hm1'.
  eapply CopyOrMove_spec with (xs := take pos l) in Hm1
    as (Hl1 & Hl1' & Hv1 & Hfo1 & Hout1 & Hok1);
    [|by apply holds_take|rewrite length_take; lia
     |rewrite length_take, length_insert; unfold GetAddress; lia].
  rewrite length_take in *. unfold GetAddress in *.
  replace (pos `min` length l)%nat with pos in * by lia.
  destruct o2 as [[]| |]; [| |done].
  - destruct Hok1 as (_ & Hraw); [done|].
    destruct (RawMemory_plus (data_ v) _) as [src|]; [|done].
    destruct (RawMemory_plus new_data _) as [dst|]; [|done].
    destruct (CopyOrMove ob src _ nb1 dst w3) as [[o3 [ob1 nb2]] w4] eqn:Hm2.
    destruct o3 as [[]| |]; [done| |done].
    apply CopyOrMove_threw in Hm2 as ->; [|done].
    destruct (destroy_n nb2 _ _ w4) as [[? w5]|]; [|done].
    injection H as <- <-. right. simpl.
    split_and!; [done|done| |].
    + intros j Hj. apply Hraw. lia.
    + intros j Hj. apply Hfo1. lia.
  - apply CopyOrMove_threw in Hm1' as ->; [|done].
    destruct (RawMemory_at new_data _); [|done].
    destruct (destroy_at nb1 _ w3) as [[? w4]|]; [|done].
    injection H as <- <-. left. apply with_buffer_same.
Qed.

End Container.

(** ** The concrete element types *)

Lemma plain_values : ValueSemantics Obj.plain.
Proof. split; simpl; intros; by simplify_eq. Qed.

Lemma throwing_copy_migration_safe bad :
  migration_safe (Obj.throwing_copy bad).
Proof. unfold migration_safe. simpl. intros H. discriminate H. Qed.

Lemma vector_of_represents {W} (E : Element Z W) (l : list Z) (extra : nat) :
  Z.of_nat (length l + extra) * sizeof_T < size_t_modulus ->
  @represents _ _ E (Obj.vector_of l extra) l.
Proof.
  intros H. pose proof (@sizeof_T_range _ _ E) as Hs.
  split; simpl; [done|nia|done|].
  by replace (Z.to_nat (Z.of_nat (length l + extra)) - length l)%nat
    with extra by lia.
Qed.

(** ** Instances of the theorems and the behaviour at particular inputs *)



(** The copy of [1; 2] with capacity 5 has capacity 2. *)
Lemma copy_construct_spec_witness :
  @represents _ _ Obj.plain (Obj.vector_of [1; 2] 3) [1; 2] /\
  exists v w',
    @Vector_copy _ _ Obj.plain (Obj.vector_of [1; 2] 3) [] = (Normal v, w') /\
    @represents _ _ Obj.plain v [1; 2] /\ Capacity v = 2.
Proof.
  assert (Hrep : @represents _ _ Obj.plain (Obj.vector_of [1; 2] 3) [1; 2])
    by (apply (vector_of_represents Obj.plain); reflexivity).
  split; [exact Hrep|].
  pose proof (@copy_construct_spec _ _ Obj.plain plain_values
                (Obj.vector_of [1; 2] 3) [1; 2] [] Hrep) as H.
  remember (@Vector_copy _ _ Obj.plain (Obj.vector_of [1; 2] 3) [])
    as r eqn:Hr.
  vm_compute in Hr.
  match type of Hr with _ = (Normal ?v', ?w') => exists v', w' end.
  split; [exact Hr|]. rewrite Hr in H.
  destruct H as (Hv & _ & Hc & _). split; [exact Hv|exact Hc].
Defined.

(** Reserve(8) on [1; 2] with capacity 2.  And Reserve(2^61) on the empty
    vector of 8-byte objects: 2^61 * 8 is 0 in a size_t, so that the call
    returns with the capacity 2^61 over a block of no slot. *)
Lemma Reserve_spec_witness :
  (@represents _ _ Obj.plain (Obj.vector_of [1; 2] 0) [1; 2] /\
   0 <= 8 /\
   exists v' w',
     @Reserve _ _ Obj.plain 8 (Obj.vector_of [1; 2] 0) []
     = (Normal tt, v', w') /\
     Capacity v' = 8 /\ @represents _ _ Obj.plain v' [1; 2]) /\
  (@represents _ _ Obj.plain Vector_default [] /\
   0 <= 2 ^ 61 /\
   exists v' w',
     @Reserve _ _ Obj.plain (2 ^ 61) Vector_default [] = (Normal tt, v', w') /\
     Capacity v' = 2 ^ 61 /\ buffer_ (data_ v') = [] /\
     ~ @valid _ _ Obj.plain v').
Proof.
  split.
  - assert (Hrep : @represents _ _ Obj.plain (Obj.vector_of [1; 2] 0) [1; 2])
      by (apply (vector_of_represents Obj.plain); reflexivity).
    assert (Hn : 0 <= 8) by discriminate.
    split_and!; [exact Hrep|exact Hn|].
    pose proof (@Reserve_spec _ _ Obj.plain plain_values 8
                  (Obj.vector_of [1; 2] 0) [1; 2] [] Hrep Hn) as H.
    remember (@Reserve _ _ Obj.plain 8 (Obj.vector_of [1; 2] 0) [])
      as r eqn:Hr.
    vm_compute in Hr.
    match type of Hr with _ = (_, ?v', ?w') => exists v', w' end.
    split; [exact Hr|]. rewrite Hr in H.
    destruct H as [_ H]. destruct (H eq_refl) as (Hc & _ & _ & Hv & _).
    split; [exact Hc|apply Hv; reflexivity].
  - assert (Hrep : @represents _ _ Obj.plain Vector_default [])
      by apply represents_default.
    assert (Hn : 0 <= 2 ^ 61) by discriminate.
    split_and!; [exact Hrep|exact Hn|].
    pose proof (@Reserve_spec _ _ Obj.plain plain_values (2 ^ 61)
                  Vector_default [] [] Hrep Hn) as H.
    remember (@Reserve _ _ Obj.plain (2 ^ 61) Vector_default []) as r eqn:Hr.
    vm_compute in Hr.
    match type of Hr with _ = (_, ?v', ?w') => exists v', w' end.
    split; [exact Hr|]. rewrite Hr in H.
    destruct H as [_ H]. destruct (H eq_refl) as (Hc & _ & _ & _ & Hnv).
    split_and!; [exact Hc|reflexivity|apply Hnv; discriminate].
Defined.

(** C7 as stated fails for a move-only element type whose move constructor
    throws: Reserve(4) on [1; 2] throws while the second element is moved,
    and leaves the elements [0; 2], the first one moved-from. *)
Lemma Reserve_spec_counterexample :
  Capacity (Obj.vector_of [1; 2] 0) < 4 /\
  ~ (forall v' w',
       @Reserve _ _ (Obj.move_only 2) 4 (Obj.vector_of [1; 2] 0) []
         = (Threw, v', w') ->
       v' = Obj.vector_of [1; 2] 0).
Proof.
  split; [reflexivity|]. intros H.
  specialize (H {| data_ := {| buffer_ := [Some 0; Some 2]; capacity_ := 2 |};
                   size_ := 2 |}
                [1] ltac:(vm_compute; reflexivity)).
  discriminate H.
Qed.

(** Five appends to the empty vector: capacity 8. *)
Lemma appends_capacity_witness :
  [ByPushBack 1; ByPushBackMove (OutsideObject 2);
   ByEmplaceBack (Outside (Obj.make 3));
   ByPushBack 4; ByPushBackMove (ElementAt 0)] <> [] /\
  exists v' w',
    @appends _ _ Obj.plain
      [ByPushBack 1; ByPushBackMove (OutsideObject 2);
       ByEmplaceBack (Outside (Obj.make 3));
       ByPushBack 4; ByPushBackMove (ElementAt 0)] Vector_default []
    = (Normal tt, v', w') /\
    Size v' = 5 /\ Capacity v' = 8.
Proof.
  split; [discriminate|].
  pose proof (fun v' w' =>
                @appends_capacity _ _ Obj.plain
                  [ByPushBack 1; ByPushBackMove (OutsideObject 2);
                   ByEmplaceBack (Outside (Obj.make 3));
                   ByPushBack 4; ByPushBackMove (ElementAt 0)] [] v' w'
                  ltac:(discriminate)) as H.
  remember (@appends _ _ Obj.plain
              [ByPushBack 1; ByPushBackMove (OutsideObject 2);
               ByEmplaceBack (Outside (Obj.make 3));
               ByPushBack 4; ByPushBackMove (ElementAt 0)] Vector_default [])
    as r eqn:Hr.
  vm_compute in Hr.
  match type of Hr with _ = (_, ?v', ?w') => exists v', w' end.
  split; [exact Hr|].
  destruct (H _ _ Hr) as [Hs _].
  split; [exact Hs|reflexivity].
Defined.

(** The scenario of the specification: inserting 3 at the index 2 of the
    full vector [1; 2; 4] gives [1; 2; 3; 4], by Emplace and by
    Insert(pos, const T&).  And in [1; 2; 3] with capacity 4, Emplace and
    Insert(pos, T&&) at the front of the element at the index 2 give
    [3; 1; 2; 0]: the new element has the value 3, and the element moved
    from is left in its place, after the others. *)
Lemma Emplace_spec_witness :
  (@represents _ _ Obj.plain (Obj.vector_of [1; 2; 4] 0) [1; 2; 4] /\
   (2 <= length [1; 2; 4])%nat /\
   @arguments_live Z Obj.log (Outside (Obj.make 3)) (length [1; 2; 4]) /\
   (exists it v' w',
      @Emplace _ _ Obj.plain 2%nat (Outside (Obj.make 3))
         (Obj.vector_of [1; 2; 4] 0) []
      = (Normal it, v', w') /\
      it = 2%nat /\ @represents _ _ Obj.plain v' [1; 2; 3; 4]) /\
   (exists it v' w',
      @Insert _ _ Obj.plain 2%nat 3 (Obj.vector_of [1; 2; 4] 0) []
      = (Normal it, v', w') /\
      it = 2%nat /\ Size v' = 4 /\
      @represents _ _ Obj.plain v' [1; 2; 3; 4])) /\
  (@represents _ _ Obj.plain (Obj.vector_of [1; 2; 3] 1) [1; 2; 3] /\
   (0 <= length [1; 2; 3])%nat /\
   @arguments_live Z Obj.log (MoveElement 2) (length [1; 2; 3]) /\
   (exists it v' w',
      @Emplace _ _ Obj.plain 0%nat (MoveElement 2)
         (Obj.vector_of [1; 2; 3] 1) []
      = (Normal it, v', w') /\
      it = 0%nat /\ at_ v' 0 = Some 3 /\
      @represents _ _ Obj.plain v' [3; 1; 2; 0]) /\
   (exists it v' w',
      @Insert_move _ _ Obj.plain 0%nat (ElementAt 2)
         (Obj.vector_of [1; 2; 3] 1) []
      = (Normal it, v', w') /\
      it = 0%nat /\ Size v' = 4 /\
      @represents _ _ Obj.plain v' [3; 1; 2; 0])).
Proof.
  split.
  - assert (Hrep : @represents _ _ Obj.plain
                     (Obj.vector_of [1; 2; 4] 0) [1; 2; 4])
      by (apply (vector_of_represents Obj.plain); reflexivity).
    assert (Hpos : (2 <= length [1; 2; 4])%nat) by (simpl; lia).
    split_and!; [exact Hrep|exact Hpos|exact I| |].
    + pose proof (@Emplace_spec _ _ Obj.plain plain_values 2%nat
                    (Outside (Obj.make 3)) (Obj.vector_of [1; 2; 4] 0)
                    [1; 2; 4] [] Hrep Hpos I) as H.
      destruct H as (H & _ & _).
      remember (@Emplace _ _ Obj.plain 2%nat (Outside (Obj.make 3))
                  (Obj.vector_of [1; 2; 4] 0) []) as r eqn:Hr.
      vm_compute in Hr.
      match type of Hr with _ = (Normal ?it, ?v', ?w') =>
        exists it, v', w' end.
      split; [exact Hr|]. rewrite Hr in H.
      destruct H as (Hit & _ & x & l' & [[w0 [w1 Hx]] Hl] & Hv & _).
      split; [exact Hit|].
      injection Hx as Hx _. rewrite <- Hx, Hl in Hv. exact Hv.
    + pose proof (@Emplace_spec _ _ Obj.plain plain_values 2%nat
                    (Outside (Obj.make 3)) (Obj.vector_of [1; 2; 4] 0)
                    [1; 2; 4] [] Hrep Hpos I) as H.
      destruct H as (_ & H & _). specialize (H 3).
      remember (@Insert _ _ Obj.plain 2%nat 3 (Obj.vector_of [1; 2; 4] 0) [])
        as r eqn:Hr.
      vm_compute in Hr.
      match type of Hr with _ = (Normal ?it, ?v', ?w') =>
        exists it, v', w' end.
      split; [exact Hr|]. rewrite Hr in H.
      destruct H as (Hit & Hs & Hv).
      split_and!; [exact Hit|exact Hs|exact Hv].
  - assert (Hrep : @represents _ _ Obj.plain
                     (Obj.vector_of [1; 2; 3] 1) [1; 2; 3])
      by (apply (vector_of_represents Obj.plain); reflexivity).
    assert (Hpos : (0 <= length [1; 2; 3])%nat) by (simpl; lia).
    assert (Hlive : @arguments_live Z Obj.log (MoveElement 2)
                      (length [1; 2; 3])) by (simpl; lia).
    split_and!; [exact Hrep|exact Hpos|exact Hlive| |].
    + pose proof (@Emplace_spec _ _ Obj.plain plain_values 0%nat
                    (MoveElement 2) (Obj.vector_of [1; 2; 3] 1)
                    [1; 2; 3] [] Hrep Hpos Hlive) as H.
      destruct H as (H & _ & _).
      remember (@Emplace _ _ Obj.plain 0%nat (MoveElement 2)
                  (Obj.vector_of [1; 2; 3] 1) []) as r eqn:Hr.
      vm_compute in Hr.
      match type of Hr with _ = (Normal ?it, ?v', ?w') =>
        exists it, v', w' end.
      split; [exact Hr|]. rewrite Hr in H.
      destruct H as (Hit & _ & x & l' & [Hx [s' Hl]] & Hv & Hat).
      injection Hx as Hx. rewrite <- Hx in *. rewrite Hl in Hv.
      split_and!; [exact Hit|exact Hat|].
      pose proof (rep_buffer _ _ Hv) as Hb. simpl in Hb.
      injection Hb as Hb. rewrite <- Hb in Hv. exact Hv.
    + pose proof (@Emplace_spec _ _ Obj.plain plain_values 0%nat
                    (MoveElement 2) (Obj.vector_of [1; 2; 3] 1)
                    [1; 2; 3] [] Hrep Hpos Hlive) as H.
      destruct H as (_ & _ & H). specialize (H (ElementAt 2) Hlive).
      remember (@Insert_move _ _ Obj.plain 0%nat (ElementAt 2)
                  (Obj.vector_of [1; 2; 3] 1) []) as r eqn:Hr.
      vm_compute in Hr.
      match type of Hr with _ = (Normal ?it, ?v', ?w') =>
        exists it, v', w' end.
      split; [exact Hr|]. rewrite Hr in H.
      destruct H as (Hit & Hs & x & s' & Hx & Hv).
      injection Hx as Hx. rewrite <- Hx in *.
      split_and!; [exact Hit|exact Hs|].
      pose proof (rep_buffer _ _ Hv) as Hb. simpl in Hb.
      injection Hb as Hb. rewrite <- Hb in Hv. exact Hv.
Defined.



(** A shrinking Resize keeps the capacity. *)
Lemma capacity_never_decreases_witness :
  @valid _ _ Obj.plain (Obj.vector_of [1; 2; 3] 1) /\
  exists v' w',
    @run _ _ Obj.plain (OpResize 1) (Obj.vector_of [1; 2; 3] 1) []
      = (Normal tt, v', w') /\
    Size v' = 1 /\ Capacity (Obj.vector_of [1; 2; 3] 1) <= Capacity v'.
Proof.
  assert (Hv : @valid _ _ Obj.plain (Obj.vector_of [1; 2; 3] 1)).
  { exists [1; 2; 3].
    apply (vector_of_represents Obj.plain); reflexivity. }
  split; [exact Hv|].
  pose proof (@capacity_never_decreases _ _ Obj.plain (OpResize 1)
                (Obj.vector_of [1; 2; 3] 1) [] Hv) as H.
  destruct H as [H _].
  remember (@run _ _ Obj.plain (OpResize 1) (Obj.vector_of [1; 2; 3] 1) [])
    as r eqn:Hr.
  vm_compute in Hr.
  match type of Hr with _ = (_, ?v', ?w') => exists v', w' end.
  split; [exact Hr|]. rewrite Hr in H.
  split; [reflexivity|exact H].
Defined.

(** ** The rollback of a reallocating Emplace *)

(** C3, at a failing input.  T is copyable and its copy constructor throws
    on the value 2; the vector is [1; 2] with capacity 2 and Emplace puts 9
    at the index 1.  The new element is constructed in the new block, the
    prefix [1] is copied; CopyOrMove then destroys the prefix in the old
    block; the copy of the suffix [2] throws; the handler destroys what the
    new block holds (the destructor log is 1, 1, 9, the latest first in the
    list) and the exception leaves Emplace.  The vector is left with its
    size 2 and its old block, in which the slot 0 no longer holds an
    object. *)
Theorem Emplace_suffix_throw_loses_prefix :
  @Emplace _ _ (Obj.throwing_copy 2) 1%nat (Outside (Obj.make 9))
     (Obj.vector_of [1; 2] 0) []
  = (Threw,
     {| data_ := {| buffer_ := [None; Some 2]; capacity_ := 2 |};
        size_ := 2 |},
     [9; 1; 1]).
Proof. vm_compute. reflexivity. Qed.

(** C8, at a failing input (the defect of C3).  The vector [1; 2] with
    capacity 2 is valid; Insert of 9 at the index 1, for a copyable T whose
    copy constructor throws on the value 2, throws and leaves a vector that
    is not valid: its size is 2 and its slot 0 is raw. *)
Theorem Insert_throw_breaks_invariant :
  @valid _ _ (Obj.throwing_copy 2) (Obj.vector_of [1; 2] 0) /\
  exists v' w',
    @run _ _ (Obj.throwing_copy 2) (OpInsert 1%nat 9)
       (Obj.vector_of [1; 2] 0) [] = (Threw, v', w') /\
    Size v' = 2 /\
    buffer_ (data_ v') !! 0%nat = Some None /\
    ~ @valid _ _ (Obj.throwing_copy 2) v'.
Proof.
  split.
  - exists [1; 2].
    apply (vector_of_represents (Obj.throwing_copy 2)); reflexivity.
  - exists {| data_ := {| buffer_ := [None; Some 2]; capacity_ := 2 |};
              size_ := 2 |}, [9; 1; 1].
    split_and!; [vm_compute; reflexivity|reflexivity|reflexivity|].
    intros [l Hrep].
    pose proof (rep_size _ _ Hrep) as Hs.
    pose proof (rep_buffer _ _ Hrep) as Hb. simpl in Hs, Hb.
    destruct l as [|x l]; [done|]. discriminate Hb.
Qed.

(** * The rest of the interface

    The sized constructor, the destructor, Resize, PopBack, operator[] and
    the iterators; what an exception leaves behind; how the operations
    compose. *)

(** ** More about the algorithms on blocks *)

Section MoreAlgorithms.

Context {T W : Type} {E : Element T W}.

Local Open Scope nat_scope.

Local Abbreviation block := (list (option T)).

Implicit Types (b from to : block) (w : W) (xs : list T).

(** The destructors of a range run in the order of the slots. *)
Lemma destroy_n_env xs : forall b first w b' w',
  holds b first xs ->
  destroy_n b first (length xs) w = Some (b', w') ->
  w' = foldl (fun w x => dtor x w) w xs.
Proof.
  induction xs as [|x xs IH]; intros b first w b' w' Hh H; simpl in H.
  - by simplify_eq.
  - apply holds_cons in Hh as [Hx Hh].
    unfold destroy_at in H. rewrite Hx in H. simpl.
    eapply IH; [|exact H].
    eapply holds_ext; [exact Hh|]. intros j Hj.
    apply list_lookup_insert_ne. lia.
Qed.

(** The handler leaves the slots it went through raw. *)
Lemma unwind_threw b d_first current w b' w' :
  unwind b d_first current w = (Threw, b', w') ->
  forall j, d_first <= j < current -> b' !! j = Some None.
Proof.
  unfold unwind. intros H j Hj.
  destruct (destroy_n b d_first (current - d_first) w) as [[b1 w1]|] eqn:Hd;
    [|done].
  injection H as <- <-.
  apply destroy_n_spec in Hd as (_ & _ & Hin & _). apply Hin. lia.
Qed.

(** After a throw of std::uninitialized_value_construct_n nothing of what
    it constructed is left. *)
Lemma uninitialized_value_construct_loop_threw n :
  forall b d_first current w b' w',
  uninitialized_value_construct_loop b d_first current n w = (Threw, b', w') ->
  d_first <= current ->
  (forall j, j < d_first -> b' !! j = b !! j) /\
  (forall j, d_first <= j < current -> b' !! j = Some None) /\
  (forall j, current <= j -> b' !! j = Some None \/ b' !! j = b !! j).
Proof.
  induction n as [|n IH]; intros b d_first current w b' w' H Hd; simpl in H.
  - done.
  - unfold placement_new in H.
    destruct (current <? length b) eqn:Hc; [|done].
    apply Nat.ltb_lt in Hc.
    destruct (default_ctor w) as [[x|] w1].
    + apply IH in H as (Hlow & Hin & Hhigh); [|lia].
      split_and!.
      * intros j Hj. rewrite Hlow by lia. apply list_lookup_insert_ne. lia.
      * intros j Hj. apply Hin. lia.
      * intros j Hj. destruct (decide (j = current)) as [->|Hne].
        -- left. apply Hin. lia.
        -- destruct (Hhigh j) as [Hj'|Hj']; [lia|by left|].
           right. rewrite Hj'. apply list_lookup_insert_ne. lia.
    + pose proof (unwind_threw _ _ _ _ _ _ H) as Hin.
      apply unwind_spec in H as (_ & _ & _ & Hout).
      split_and!.
      * intros j Hj. apply Hout. lia.
      * done.
      * intros j Hj. right. apply Hout. lia.
Qed.

(** After a throw of std::uninitialized_copy_n nothing of what it
    constructed is left. *)
Lemma uninitialized_copy_loop_threw n :
  forall from first to d_first current w to' w',
  uninitialized_copy_loop from first n to d_first current w = (Threw, to', w') ->
  d_first <= current ->
  (forall j, j < d_first -> to' !! j = to !! j) /\
  (forall j, d_first <= j < current -> to' !! j = Some None) /\
  (forall j, current <= j -> to' !! j = Some None \/ to' !! j = to !! j).
Proof.
  induction n as [|n IH]; intros from first to d_first current w to' w' H Hd;
    simpl in H.
  - done.
  - destruct (from !! first) as [[x|]|]; try done.
    unfold placement_new in H.
    destruct (current <? length to) eqn:Hc; [|done].
    apply Nat.ltb_lt in Hc.
    destruct (copy_ctor x w) as [[y|] w1].
    + apply IH in H as (Hlow & Hin & Hhigh); [|lia].
      split_and!.
      * intros j Hj. rewrite Hlow by lia. apply list_lookup_insert_ne. lia.
      * intros j Hj. apply Hin. lia.
      * intros j Hj. destruct (decide (j = current)) as [->|Hne].
        -- left. apply Hin. lia.
        -- destruct (Hhigh j) as [Hj'|Hj']; [lia|by left|].
           right. rewrite Hj'. apply list_lookup_insert_ne. lia.
    + pose proof (unwind_threw _ _ _ _ _ _ H) as Hin.
      apply unwind_spec in H as (_ & _ & _ & Hout).
      split_and!.
      * intros j Hj. apply Hout. lia.
      * done.
      * intros j Hj. right. apply Hout. lia.
Qed.

(** The objects that std::uninitialized_value_construct_n leaves are
    values of T's default constructor. *)
Lemma uninitialized_value_construct_loop_values n :
  forall b d_first current w b' w',
  uninitialized_value_construct_loop b d_first current n w
    = (Normal tt, b', w') ->
  exists ys, length ys = n /\ holds b' current ys /\
             Forall (constructs default_ctor) ys /\
             forall j, j < current -> b' !! j = b !! j.
Proof.
  induction n as [|n IH]; intros b d_first current w b' w' H; simpl in H.
  - simplify_eq. exists []. split_and!; [done|apply holds_nil|done|done].
  - unfold placement_new in H.
    destruct (current <? length b) eqn:Hc; [|done].
    apply Nat.ltb_lt in Hc.
    destruct (default_ctor w) as [[x|] w1] eqn:Hx.
    + apply IH in H as (ys & Hlen & Hh & Hall & Hlow).
      exists (x :: ys). split_and!.
      * simpl. lia.
      * apply holds_cons. split; [|done].
        rewrite Hlow by lia. apply list_lookup_insert_eq. lia.
      * apply Forall_cons. split; [by exists w, w1|done].
      * intros j Hj. rewrite Hlow by lia. apply list_lookup_insert_ne. lia.
    + by apply unwind_spec in H as (_ & ? & _ & _).
Qed.

Context {V : ValueSemantics E}.

(** Whatever the outcome of CopyOrMove, the objects of the source range
    that it did not destroy are still alive: a throw leaves them, moved-from
    or not. *)
Lemma CopyOrMove_threw_live from first size to d_first w xs from' to' w' :
  CopyOrMove from first size to d_first w = (Threw, (from', to'), w') ->
  holds from first xs -> length xs = Z.to_nat size ->
  d_first + length xs <= length to ->
  live_range from' first (first + length xs).
Proof.
  unfold CopyOrMove. intros H Hh Hn Hb. rewrite <- Hn in H.
  assert (Hlive0 : live_range to d_first d_first) by (intros j Hj; lia).
  destruct (is_nothrow_move_constructible || negb is_copy_constructible).
  - destruct (uninitialized_move_n from first (length xs) to d_first w)
      as [[o1 [from1 to1]] w1] eqn:Hm.
    eapply uninitialized_move_loop_spec in Hm
      as (Hl & Hl' & Hv & Hlv & Hfo & Hto & Hok); [|done|done|done|lia|done].
    destruct o1 as [[]| |]; [|by simplify_eq|done].
    by destruct (destroy_n from1 first (length xs) w1) as [[f2 w2]|].
  - destruct (uninitialized_copy_n from first (length xs) to d_first w)
      as [[o1 to1] w1] eqn:Hc.
    destruct o1 as [[]| |]; [|simplify_eq; by apply holds_live|done].
    by destruct (destroy_n from first (length xs) w1) as [[f2 w2]|].
Qed.

End MoreAlgorithms.

(** ** Construction and destruction *)

Section Lifetime.

Context {T W : Type} {E : Element T W}.

Local Abbreviation block := (list (option T)).

Implicit Types (v other rhs : @Vector T) (l : list T) (w : W).



(** X4: the destructor.  ~Vector() on a valid vector runs ~T() once for
    each of the size elements, from the index 0 upwards, and for nothing
    else: the spare capacity is not touched.  It is never undefined
    behaviour. *)
Theorem Vector_destroy_spec v l w :
  represents v l ->
  Vector_destroy v w = Some (foldl (fun w x => dtor x w) w l).
Proof.
  intros Hrep. destruct (Vector_destroy_valid v l w Hrep) as [w' Hd].
  rewrite Hd. f_equal. unfold Vector_destroy, GetAddress in Hd.
  pose proof (represents_length _ _ Hrep) as (_ & _ & Hsz).
  rewrite Hsz in Hd.
  destruct (destroy_n _ _ _ w) as [[b' w1]|] eqn:Hn; [|done].
  injection Hd as <-.
  eapply destroy_n_env; [apply (represents_holds _ _ Hrep)|exact Hn].
Qed.

End Lifetime.

(** ** Resize, PopBack, operator[] and the iterators *)

Section Access.

Context {T W : Type} {E : Element T W} {V : ValueSemantics E}.

Local Abbreviation block := (list (option T)).

Implicit Types (v other rhs : @Vector T) (l : list T) (w : W).

(** A block that differs from the block of a valid vector only in the
    states of its live objects belongs to a valid vector of the same size. *)
Lemma represents_live v l (b : block) :
  represents v l ->
  length b = length (buffer_ (data_ v)) ->
  live_range b 0 (length l) ->
  (forall j, (length l <= j)%nat -> b !! j = buffer_ (data_ v) !! j) ->
  exists l', length l' = length l /\ represents (with_buffer v b) l'.
Proof.
  intros Hrep Hlen Hlive Hout.
  pose proof (represents_length _ _ Hrep) as (Hlenb & Hle & Hsz).
  apply (live_range_holds b 0 (length l)) in Hlive as (l' & Hl' & Hh).
  exists l'. split; [done|].
  apply represents_intro; simpl.
  - rewrite Hl'. apply (rep_size _ _ Hrep).
  - split; [apply (rep_capacity _ _ Hrep)|apply (rep_bytes _ _ Hrep)].
  - lia.
  - done.
  - rewrite Hl', Hlen. intros j Hj. rewrite Hout by lia.
    apply (represents_raw _ _ _ Hrep). lia.
Qed.

(** Two blocks with the same slots are the same block. *)
Lemma block_ext (b b' : block) :
  length b' = length b -> (forall j, (j < length b)%nat -> b' !! j = b !! j) ->
  b' = b.
Proof.
  intros Hlen Heq. apply list_eq. intros j.
  destruct (decide (j < length b)%nat) as [Hj|Hj]; [by apply Heq|].
  by rewrite !lookup_ge_None_2 by lia.
Qed.

(** A throw of Reserve leaves a valid vector of the same size. *)
Lemma Reserve_threw_valid n v l w v' w' :
  represents v l -> 0 <= n /\ n * sizeof_T < size_t_modulus ->
  Reserve n v w = (Threw, v', w') ->
  exists l', length l' = length l /\ represents v' l'.
Proof.
  intros Hrep Hn H.
  pose proof (represents_length _ _ Hrep) as (Hlen & Hle & Hsz).
  pose proof (represents_holds _ _ Hrep) as Hh.
  pose proof (rep_capacity _ _ Hrep) as Hcap.
  pose proof (rep_bytes _ _ Hrep) as Hbytes.
  unfold Reserve, RawMemory_Capacity in H.
  destruct (n <=? capacity_ (data_ v)) eqn:Hc; [done|].
  apply Z.leb_gt in Hc.
  destruct (RawMemory_new n w) as [[new_data|] w1] eqn:Hnew.
  2:{ injection H as <- <-. by exists l. }
  apply RawMemory_new_spec in Hnew as ->; [|done]. simpl in H.
  destruct (CopyOrMove _ _ _ _ _ w1) as [[o [ob nb]] w2] eqn:Hm.
  destruct o as [[]| |]; simpl in H; [done| |done].
  injection H as <- <-.
  pose proof Hm as Hm'.
  eapply CopyOrMove_spec with (xs := l) in Hm
    as (Hl & Hl' & _ & Hfo & _ & _); [|done|done|].
  2:{ rewrite length_replicate. unfold GetAddress. lia. }
  eapply CopyOrMove_threw_live with (xs := l) in Hm'; [|done|done|].
  2:{ rewrite length_replicate. unfold GetAddress. lia. }
  unfold GetAddress in *.
  apply represents_live; [done|done|done|].
  intros j Hj. apply Hfo. lia.
Qed.

Lemma Resize_all_cases n v l w o v' w' :
  represents v l -> 0 <= n /\ n * sizeof_T < size_t_modulus ->
  Resize n v w = (o, v', w') ->
  match o with
  | Normal _ =>
    Size v' = n /\ Capacity v' = Z.max n (Capacity v) /\
    (n <= Size v ->
     represents v' (take (Z.to_nat n) l) /\
     w' = foldl (fun w x => dtor x w) w (drop (Z.to_nat n) l)) /\
    (Size v < n ->
     exists ys, represents v' (l ++ ys) /\
                Forall (constructs default_ctor) ys)
  | Threw =>
    Size v < n /\ ~ nothrow E /\ Size v' = Size v /\
    (exists l', length l' = length l /\ represents v' l') /\
    (migration_safe E -> represents v' l)
  | Violation => False
  end.
Proof.
  intros Hrep Hfit H.
  pose proof (represents_length _ _ Hrep) as (Hlen & Hle & Hsz).
  pose proof (represents_holds _ _ Hrep) as Hh.
  pose proof (rep_capacity _ _ Hrep) as Hcap.
  pose proof (rep_bytes _ _ Hrep) as Hbytes.
  pose proof (rep_size _ _ Hrep) as Hsize.
  assert (Hn : 0 <= n < size_t_modulus)
    by (pose proof (@sizeof_T_range _ _ E); nia).
  unfold Resize, GetAddress in H. simpl in H. unfold Size, Capacity,
    RawMemory_Capacity.
  destruct (n <? size_ v) eqn:Hlt.
  - (* the tail is destroyed *)
    apply Z.ltb_lt in Hlt. rewrite size_t_sub_small in H by lia.
    assert (Hd : holds (buffer_ (data_ v)) (Z.to_nat n) (drop (Z.to_nat n) l))
      by (by apply holds_drop).
    assert (Hdl : length (drop (Z.to_nat n) l) = Z.to_nat (size_ v - n))
      by (rewrite length_drop; lia).
    rewrite <- Hdl in H.
    destruct (destroy_n_total (length (drop (Z.to_nat n) l))
                (buffer_ (data_ v)) (Z.to_nat n) w (holds_live _ _ _ Hd))
      as (b & w1 & Hdn).
    rewrite Hdn in H. injection H as <- <- <-.
    pose proof (destroy_n_env _ _ _ _ _ _ Hd Hdn) as Hw.
    apply destroy_n_spec in Hdn as (Hl & _ & Hin & Hout).
    simpl. split_and!; [done|lia| |lia].
    intros _. split; [|done].
    apply represents_intro; simpl.
    + rewrite length_take. lia.
    + lia.
    + lia.
    + eapply holds_ext; [apply holds_take, Hh|]. rewrite length_take.
      intros j Hj. apply Hout. lia.
    + rewrite length_take. intros j Hj.
      destruct (decide (j < length l)%nat) as [Hjl|Hjl].
      * apply Hin. lia.
      * rewrite Hout by lia. apply (represents_raw _ _ _ Hrep). lia.
  - apply Z.ltb_ge in Hlt. destruct (size_ v <? n) eqn:Hgt.
    + (* the storage is reserved and the new elements are constructed *)
      apply Z.ltb_lt in Hgt.
      destruct (Reserve n v w) as [[o1 v1] w1] eqn:Hr.
      pose proof (Reserve_cases n v l w Hrep (proj1 Hn)) as [Hnop Hgrow].
      destruct o1 as [[]| |]; simpl in H.
      * assert (Hv1 : represents v1 l /\
                      capacity_ (data_ v1) = Z.max n (capacity_ (data_ v))).
        { destruct (decide (n <= Capacity v)) as [Hle'|Hgt'].
          - rewrite (Hnop Hle') in Hr. simplify_eq.
            unfold Capacity, RawMemory_Capacity in Hle'. split; [done|lia].
          - specialize (Hgrow ltac:(lia)). rewrite Hr in Hgrow.
            destruct Hgrow as (Hc1 & _ & _ & Hr1 & _).
            unfold Capacity, RawMemory_Capacity in Hc1, Hgt'.
            split; [by apply Hr1, Hfit|lia]. }
        destruct Hv1 as [Hrep1 Hcap1].
        pose proof (represents_length _ _ Hrep1) as (Hlen1 & Hle1 & Hsz1).
        pose proof (rep_capacity _ _ Hrep1) as Hcapb.
        pose proof (rep_bytes _ _ Hrep1) as Hbytesb.
        pose proof (rep_size _ _ Hrep1) as Hsize1.
        rewrite size_t_sub_small in H by lia.
        destruct (uninitialized_value_construct_n _ _ _ w1)
          as [[o2 b] w2] eqn:Hu.
        pose proof Hu as Hu'. pose proof Hu as Hu''.
        eapply uninitialized_value_construct_loop_spec in Hu
          as (Hl & Hv & Hok); [|lia|intros j Hj; lia].
        destruct o2 as [[]| |]; simpl in H; [| |done];
          injection H as <- <- <-; simpl.
        -- destruct Hok as [_ Hout]; [done|].
           apply uninitialized_value_construct_loop_values in Hu'
             as (ys & Hys & Hhys & Hall & _).
           split_and!; [done|done|lia|]. intros _.
           exists ys. split; [|done].
           apply represents_intro; simpl.
           ++ rewrite length_app. lia.
           ++ lia.
           ++ lia.
           ++ apply holds_app. split.
              ** eapply holds_ext; [apply (represents_holds _ _ Hrep1)|].
                 intros j Hj. apply Hout. lia.
              ** by replace (0 + length l)%nat
                   with (Z.to_nat (size_ v1)) by lia.
           ++ rewrite length_app. intros j Hj. rewrite Hout by lia.
              apply (represents_raw _ _ _ Hrep1). lia.
        -- apply uninitialized_value_construct_loop_threw in Hu''
             as (Hlow & _ & Hhigh); [|lia].
           assert (Hb : b = buffer_ (data_ v1)).
           { apply block_ext; [done|]. intros j Hj.
             destruct (decide (j < Z.to_nat (size_ v1))%nat) as [Hjs|Hjs];
               [by apply Hlow|].
             destruct (Hhigh j) as [Hj'|Hj']; [lia| |done].
             rewrite Hj'. symmetry.
             apply (represents_raw _ _ _ Hrep1). lia. }
           rewrite Hb, with_buffer_same.
           split_and!; [lia| |lia|by exists l|done].
           intros Hsafe.
           by eapply uninitialized_value_construct_loop_nothrow in Hu';
             [|apply Hsafe].
      * injection H as <- <- <-.
        destruct (decide (n <= Capacity v)) as [Hle'|Hgt'].
        { by rewrite (Hnop Hle') in Hr. }
        specialize (Hgrow ltac:(lia)). rewrite Hr in Hgrow.
        destruct Hgrow as (Hs1 & _ & _ & Hsame & Hthrow).
        split_and!; [lia|done|done| |].
        -- by eapply Reserve_threw_valid.
        -- intros Hsafe. by rewrite (Hsame Hsafe).
      * destruct (decide (n <= Capacity v)) as [Hle'|Hgt'].
        { by rewrite (Hnop Hle') in Hr. }
        specialize (Hgrow ltac:(lia)). rewrite Hr in Hgrow. lia.
    + (* the size is already n *)
      apply Z.ltb_ge in Hgt. injection H as <- <- <-.
      assert (n = size_ v) as -> by lia. simpl.
      split_and!; [done|lia| |lia].
      intros _. rewrite take_ge, drop_ge by lia.
      split; [by destruct v|done].
Qed.

(** A Resize(n) for which n * sizeof(T) wraps around does not return; if
    it throws, the size is what it was. *)
Lemma Resize_wrapped n v l w o v' w' :
  represents v l -> 0 <= n < size_t_modulus ->
  size_t_modulus <= n * sizeof_T ->
  Resize n v w = (o, v', w') ->
  Size v < n /\ o <> Normal tt /\
  (o = Threw -> ~ nothrow E /\ Size v' = Size v).
Proof.
  intros Hrep Hn Hwrap H.
  pose proof (rep_capacity _ _ Hrep) as Hcap.
  pose proof (rep_bytes _ _ Hrep) as Hbytes.
  pose proof (rep_size _ _ Hrep) as Hsize.
  pose proof (@sizeof_T_range _ _ E) as Hsizeof.
  assert (Hgt : Capacity v < n) by (unfold Capacity, RawMemory_Capacity; nia).
  unfold Capacity, RawMemory_Capacity in Hgt. unfold Size.
  split_and!; [lia| |].
  - intros ->.
    destruct (Resize_cases _ _ _ _ _ _ Hrep Hn H) as (l' & Hr & Hs & _).
    pose proof (rep_capacity _ _ Hr) as Hcap'.
    pose proof (rep_bytes _ _ Hr) as Hbytes'.
    unfold Size in Hs. nia.
  - intros ->. unfold Resize in H.
    rewrite (proj2 (Z.ltb_ge _ _)) in H by lia.
    rewrite (proj2 (Z.ltb_lt _ _)) in H by lia.
    destruct (Reserve n v w) as [[o1 v1] w1] eqn:Hr.
    destruct o1 as [[]| |]; simpl in H; [| |done].
    + apply Reserve_returned_block in Hr as [_ Hs1];
        [|by unfold Capacity, RawMemory_Capacity|lia].
      destruct (uninitialized_value_construct_n _ _ _ w1)
        as [[o2 b] w2] eqn:Hu.
      destruct o2 as [[]| |]; simpl in H; [done| |done].
      injection H as <- <-. split; [|done].
      intros Hsafe.
      by eapply uninitialized_value_construct_loop_nothrow in Hu;
        [|apply Hsafe].
    + injection H as <- <-.
      apply Reserve_threw in Hr as (Hs & _ & _ & _ & Hthrow). done.
Qed.

(** X5: Resize.  On a valid vector with the elements l: when Resize(n)
    returns, the size is n and the capacity is the larger of n and the
    former capacity; with n at most the size the vector holds the first n
    elements of l and the destructors of the others have run, in the order
    of the indices; with n above the size it holds l followed by values of
    T's default constructor.  It throws only when it grows (allocation,
    migration or default constructor); the size is then what it was, and so
    are the elements when the migration is safe and the n * sizeof(T) bytes
    of the storage are counted by a size_t.  Its behaviour is undefined
    only if n * sizeof(T) wraps around, and then it does not return. *)
Theorem Resize_spec n v l w :
  represents v l -> 0 <= n < size_t_modulus ->
  match Resize n v w with
  | (Normal _, v', w') =>
    n * sizeof_T < size_t_modulus /\
    Size v' = n /\ Capacity v' = Z.max n (Capacity v) /\
    (n <= Size v ->
     represents v' (take (Z.to_nat n) l) /\
     w' = foldl (fun w x => dtor x w) w (drop (Z.to_nat n) l)) /\
    (Size v < n ->
     exists ys, represents v' (l ++ ys) /\
                Forall (constructs default_ctor) ys)
  | (Threw, v', _) =>
    Size v < n /\ ~ nothrow E /\ Size v' = Size v /\
    (n * sizeof_T < size_t_modulus -> migration_safe E -> represents v' l)
  | (Violation, _, _) => size_t_modulus <= n * sizeof_T
  end.
Proof.
  intros Hrep Hn.
  destruct (Resize n v w) as [[o v'] w'] eqn:H.
  destruct (decide (n * sizeof_T < size_t_modulus)) as [Hfit|Hwrap].
  - pose proof (Resize_all_cases _ _ _ _ _ _ _ Hrep (conj (proj1 Hn) Hfit) H)
      as Hc.
    destruct o as [[]| |]; [done| |done].
    destruct Hc as (? & ? & ? & _ & ?). done.
  - assert (Hw : size_t_modulus <= n * sizeof_T) by lia.
    destruct (Resize_wrapped _ _ _ _ _ _ _ Hrep Hn Hw H) as (Hlt & Hno & Ht).
    destruct o as [[]| |]; [done| |done].
    destruct (Ht eq_refl) as [Hthrow Hs]. split_and!; [done|done|done|].
    intros Hfit. lia.
Qed.

Lemma PopBack_all_cases v l w o v' w' :
  represents v l ->
  PopBack v w = (o, v', w') ->
  match o with
  | Normal _ =>
    exists x, l !! (length l - 1)%nat = Some x /\ w' = dtor x w /\
              represents v' (take (length l - 1) l) /\
              Size v' = Size v - 1 /\ Capacity v' = Capacity v
  | Threw => False
  | Violation => l = [] /\ v' = v /\ w' = w
  end.
Proof.
  intros Hrep H.
  pose proof (represents_length _ _ Hrep) as (Hlen & Hle & Hsz).
  pose proof (represents_holds _ _ Hrep) as Hh.
  pose proof (rep_capacity _ _ Hrep) as Hcap.
  pose proof (rep_bytes _ _ Hrep) as Hbytes.
  pose proof (rep_size _ _ Hrep) as Hsize.
  destruct (decide (0 < Size v)) as [Hpos|Hzero].
  - pose proof (PopBack_cases _ _ _ _ _ _ Hrep Hpos H) as [-> Hr].
    unfold Size in Hpos. unfold PopBack, RawMemory_plus in H.
    rewrite (proj2 (Z.ltb_lt _ _)) in H by lia.
    rewrite size_t_sub_small in H by lia.
    rewrite (proj2 (Z.leb_le _ _)) in H by lia.
    replace (Z.to_nat (size_ v - 1)) with (length l - 1)%nat in H by lia.
    destruct (lookup_lt_is_Some_2 l (length l - 1)%nat) as [x Hx]; [lia|].
    pose proof (Hh _ _ Hx) as Hb. simpl in Hb.
    unfold destroy_at in H. rewrite Hb in H. injection H as <- <-.
    exists x. split_and!; [done|done|done|done|done].
  - unfold Size in Hzero. unfold PopBack in H.
    rewrite (proj2 (Z.ltb_ge _ _)) in H by lia.
    injection H as <- <- <-. split_and!; [|done|done].
    destruct l; [done|simpl in Hsize; lia].
Qed.

(** X6: PopBack.  On a valid vector that is not empty PopBack returns,
    never throws, destroys the last element and nothing else, and leaves
    the other elements, a size smaller by one and the same capacity.  On
    an empty vector the assert fails and nothing is changed. *)
Theorem PopBack_spec v l w :
  represents v l ->
  match PopBack v w with
  | (Normal _, v', w') =>
    exists x, l !! (length l - 1)%nat = Some x /\ w' = dtor x w /\
              represents v' (take (length l - 1) l) /\
              Size v' = Size v - 1 /\ Capacity v' = Capacity v
  | (Threw, _, _) => False
  | (Violation, v', w') => l = [] /\ v' = v /\ w' = w
  end.
Proof.
  intros Hrep. destruct (PopBack v w) as [[o v'] w'] eqn:H.
  apply (PopBack_all_cases _ _ _ _ _ _ Hrep H).
Qed.

(** X7: operator[].  On a valid vector with the elements l, v[i] is the
    element of l at the index i for every i below the size, and the assert
    fails for every other index, also for an index inside the capacity. *)
Theorem at_spec v l i :
  represents v l -> 0 <= i ->
  at_ v i = l !! Z.to_nat i /\
  (i < Size v -> exists x, at_ v i = Some x) /\
  (Size v <= i -> at_ v i = None).
Proof.
  intros Hrep Hi. pose proof (rep_size _ _ Hrep) as Hsize.
  rewrite (represents_at _ _ _ Hrep Hi). unfold Size.
  split_and!; [done| |].
  - intros Hlt. apply lookup_lt_is_Some_2. lia.
  - intros Hge. apply lookup_ge_None_2. lia.
Qed.

(** X8: the iterators.  On a valid vector end() is begin() + size (the
    assert of RawMemory::operator+ holds), the range [begin(), end()) is
    the elements in order, and the index that Emplace and Erase compute
    from an iterator of that range or from end() is its distance from
    begin(). *)
Theorem iterators_spec v l :
  represents v l ->
  end_ v = Some (begin_ v + length l)%nat /\
  holds (buffer_ (data_ v)) (begin_ v) l /\
  (forall i, (i <= length l)%nat ->
     index_of v (begin_ v + i)%nat = Z.of_nat i).
Proof.
  intros Hrep.
  pose proof (represents_length _ _ Hrep) as (Hlen & Hle & Hsz).
  pose proof (rep_capacity _ _ Hrep) as Hcap.
  pose proof (rep_bytes _ _ Hrep) as Hbytes.
  unfold end_, begin_, GetAddress, RawMemory_plus. simpl.
  rewrite (proj2 (Z.leb_le _ _)) by lia. rewrite Hsz.
  split_and!; [done|by apply represents_holds|].
  intros i Hi. by apply (index_of_valid _ _ _ Hrep).
Qed.

End Access.

(** ** What an exception leaves behind *)

Section Guarantees.

Context {T W : Type} {E : Element T W} {V : ValueSemantics E}.

Local Abbreviation block := (list (option T)).

Implicit Types (v other rhs : @Vector T) (l : list T) (w : W).

(** An appending body that returned has put the new element at the end. *)
Lemma append_returned a v l w v' w' :
  represents v l -> arguments_live a (length l) ->
  append a v w = (Normal tt, v', w') ->
  exists x l', constructed a l x l' /\ represents v' (l' ++ [x]).
Proof.
  intros Hrep Hlive H.
  pose proof (rep_capacity _ _ Hrep) as Hcap.
  pose proof (rep_bytes _ _ Hrep) as Hbytes.
  pose proof (rep_size _ _ Hrep) as Hsize.
  eapply append_spec in H as Hs; [|done|done|].
  - destruct Hs as [_ Hok]. by apply Hok.
  - intros Hfull. eapply append_returned_fits; [| |done|done]; [lia|].
    unfold Capacity, RawMemory_Capacity in Hfull. by rewrite Hfull.
Qed.

(** A throw of the appending body leaves a valid vector of the same size. *)
Lemma append_threw_valid a v l w v' w' :
  represents v l -> arguments_live a (length l) ->
  append a v w = (Threw, v', w') ->
  exists l', length l' = length l /\ represents v' l'.
Proof.
  intros Hrep Hlive H.
  unfold append in H.
  destruct (size_ v =? Capacity v).
  - destruct (RawMemory_new _ w) as [[new_data|] w1] eqn:Hnew.
    2:{ injection H as <- <-. by exists l. }
    destruct (RawMemory_plus new_data (size_ v)) as [p|] eqn:Hp; [|done].
    unfold RawMemory_plus in Hp.
    destruct (size_ v <=? capacity_ new_data); [|done].
    injection Hp as <-.
    destruct (_ <? _)%nat eqn:Hin; [|done]. apply Nat.ltb_lt in Hin.
    destruct (construct a _ w1) as [[[x b]| |] w2] eqn:Hx; simpl in H.
    + apply (construct_cases _ _ _ _ _ _ Hrep Hlive) in Hx
        as (l1 & _ & Hl1 & Hrep1).
      pose proof (represents_length _ _ Hrep1) as (Hlen & Hle & Hsz).
      pose proof (represents_holds _ _ Hrep1) as Hh.
      simpl in Hlen, Hle, Hsz, Hh.
      destruct (CopyOrMove _ _ _ _ _ w2) as [[o2 [ob nb1]] w3] eqn:Hm.
      destruct o2 as [[]| |]; simpl in H; [done| |done].
      injection H as <- <-.
      assert (Hroom : (0 + length l1 <=
                       length (<[Z.to_nat (size_ v) := Some x]>
                                 (buffer_ new_data)))%nat)
        by (rewrite length_insert; lia).
      pose proof Hm as Hm'.
      eapply CopyOrMove_spec with (xs := l1) in Hm
        as (Hl & Hl' & _ & Hfo & _ & _); [|done|lia|done].
      eapply CopyOrMove_threw_live with (xs := l1) in Hm'; [|done|lia|done].
      unfold GetAddress in *.
      destruct (represents_live _ _ ob Hrep1) as (l2 & Hl2 & Hr2);
        [done|done|intros j Hj; apply Hfo; lia|].
      exists l2. split; [lia|exact Hr2].
    + injection H as <- <-. by exists l.
    + done.
  - destruct (RawMemory_plus (data_ v) (size_ v)) as [p|]; [|done].
    destruct (_ <? _)%nat; [|done].
    destruct (construct a _ w) as [[[x b]| |] w1]; simpl in H;
      [done| |done].
    injection H as <- <-. by exists l.
Qed.

(** A throw of the copy assignment leaves a valid vector of the same
    size. *)
Lemma assign_copy_threw_valid rhs lr v l w v' w' :
  represents v l -> represents rhs lr ->
  assign_copy (Other rhs) v w = (Threw, v', w') ->
  exists l', length l' = length l /\ represents v' l'.
Proof.
  intros Hrep Hrhs H.
  pose proof (represents_length _ _ Hrep) as (Hlen & Hle & Hsz).
  pose proof (represents_holds _ _ Hrep) as Hh.
  pose proof (rep_capacity _ _ Hrep) as Hcap.
  pose proof (rep_bytes _ _ Hrep) as Hbytes.
  pose proof (rep_size _ _ Hrep) as Hsize.
  pose proof (represents_length _ _ Hrhs) as (Hlenr & Hler & Hszr).
  pose proof (represents_holds _ _ Hrhs) as Hhr.
  pose proof (rep_capacity _ _ Hrhs) as Hcapr.
  pose proof (rep_bytes _ _ Hrhs) as Hbytesr.
  pose proof (rep_size _ _ Hrhs) as Hsizer.
  destruct (Capacity v <? size_ rhs) eqn:Hgrow.
  - apply Z.ltb_lt in Hgrow.
    pose proof (assign_copy_cases _ _ _ _ _ _ _ _ Hrep Hrhs H) as [Hsame _].
    rewrite (Hsame Hgrow). by exists l.
  - unfold assign_copy in H. rewrite Hgrow in H.
    apply Z.ltb_ge in Hgrow. unfold Capacity, RawMemory_Capacity in Hgrow.
    unfold GetAddress in H. simpl in H.
    set (m := Z.to_nat (if size_ rhs <? size_ v then size_ rhs
                        else size_ v)) in *.
    assert (Hm : m = (length lr `min` length l)%nat)
      by (subst m; destruct (size_ rhs <? size_ v) eqn:Hlt;
          [apply Z.ltb_lt in Hlt|apply Z.ltb_ge in Hlt]; lia).
    destruct (copy_n _ _ _ _ _ w) as [[o1 b1] w1] eqn:Hc.
    eapply copy_n_spec with (xs := take m lr) in Hc
      as (Hl1 & Hv1 & Hlv1 & Hout1 & Hok1);
      [|by apply holds_take|rewrite length_take; lia
       |intros j Hj; apply (holds_live _ _ _ Hh); lia].
    assert (Hlive1 : live_range b1 0 (length l)).
    { intros j Hj. destruct (decide (j < m)%nat) as [Hjm|Hjm].
      - apply Hlv1. lia.
      - rewrite Hout1 by lia. apply (holds_live _ _ _ Hh). lia. }
    destruct o1 as [[]| |]; simpl in H; [| |done].
    + destruct (size_ rhs <? size_ v) eqn:Hlt.
      * by destruct (destroy_n b1 _ _ w1) as [[b2 w2]|].
      * apply Z.ltb_ge in Hlt.
        destruct (uninitialized_copy_n _ _ _ b1 _ w1) as [[o2 b2] w2] eqn:Hu.
        pose proof Hu as Hu'.
        eapply uninitialized_copy_loop_spec
          with (xs := drop m lr) in Hu as (Hl2 & _ & _ & _);
          [| |rewrite length_drop; rewrite size_t_sub_small by lia; lia
           |done
           |rewrite size_t_sub_small by lia; lia|intros j Hj; lia].
        2:{ replace (Z.to_nat (size_ v)) with m by lia.
            by apply holds_drop. }
        destruct o2 as [[]| |]; simpl in H; [done| |done].
        injection H as <- <-.
        apply uninitialized_copy_loop_threw in Hu'
          as (Hlow & _ & Hhigh); [|lia].
        replace (0 + m)%nat with (length l) in * by lia.
        apply represents_live; [done|congruence| |].
        -- intros j Hj. rewrite Hlow by lia. apply Hlive1. lia.
        -- intros j Hj.
           destruct (decide (j < length b1)%nat) as [Hjb|Hjb].
           ++ assert (Hraw : b1 !! j = Some None).
              { rewrite Hout1 by lia.
                apply (represents_raw _ _ _ Hrep). lia. }
              rewrite Hout1 in Hraw by lia. rewrite Hraw.
              destruct (Hhigh j) as [Hj'|Hj']; [lia|done|].
              rewrite Hj', Hout1 by lia. done.
           ++ rewrite !lookup_ge_None_2 by lia. done.
    + injection H as <- <-.
      apply represents_live; [done|done|done|].
      intros j Hj. apply Hout1. lia.
Qed.

(** A throw of Erase leaves a valid vector of the same size. *)
Lemma Erase_threw_valid pos v l w v' w' :
  represents v l -> (pos < length l)%nat ->
  Erase pos v w = (Threw, v', w') ->
  exists l', length l' = length l /\ represents v' l'.
Proof.
  intros Hrep Hpos HE.
  pose proof (represents_length _ _ Hrep) as (Hlen & Hle & Hsz).
  pose proof (represents_holds _ _ Hrep) as Hh.
  pose proof (rep_capacity _ _ Hrep) as Hcap.
  pose proof (rep_bytes _ _ Hrep) as Hbytes.
  pose proof (rep_size _ _ Hrep) as Hsize.
  unfold Erase in HE.
  rewrite (index_of_valid _ _ _ Hrep) in HE by lia.
  unfold end_, begin_, GetAddress, RawMemory_plus, RawMemory_at in HE.
  rewrite size_t_sub_small in HE by lia.
  rewrite (proj2 (Z.ltb_lt 0 (size_ v))) in HE by lia.
  rewrite (proj2 (Z.leb_le (size_ v) _)) in HE by lia.
  rewrite (proj2 (Z.ltb_lt (size_ v - 1) _)) in HE by lia.
  unfold move_range in HE.
  rewrite (proj2 (Nat.leb_le _ _)) in HE by lia.
  rewrite Nat2Z.id in HE. simpl in HE.
  replace (pos + 1)%nat with (S pos) in HE by lia.
  destruct (move_loop _ _ _ _ w) as [[o1 b1] w1] eqn:Hm.
  eapply move_loop_shift_spec with (xs := drop (S pos) l) in Hm
    as (Hl1 & Hv1 & Hlv1 & Hout1 & Hok1);
    [|by apply holds_drop|rewrite length_drop; lia
     |by apply (holds_live _ _ _ Hh); lia].
  replace (S pos + (Z.to_nat (size_ v) - S pos))%nat
    with (length l) in * by lia.
  destruct o1 as [[]| |]; simpl in HE; [| |done].
  - destruct (destroy_at b1 _ w1) as [[b2 w2]|]; done.
  - injection HE as <- <-.
    apply represents_live; [done|done| |].
    + intros j Hj. destruct (decide (j < pos)%nat) as [Hjp|Hjp].
      * rewrite Hout1 by lia. apply (holds_live _ _ _ Hh). lia.
      * apply Hlv1. lia.
    + intros j Hj. apply Hout1. lia.
Qed.

(** X9: the invariant on return.  Every member function that changes a
    vector (copy assignment, Reserve, Resize, PushBack, PopBack,
    EmplaceBack, Emplace, Erase, Insert), called on a valid vector within
    its precondition, leaves a valid vector when it returns: the size is at
    most the capacity, the slots below the size hold live objects and the
    slots from the size on are raw. *)
Theorem operation_returns_valid (op : @operation T W) v w v' w' :
  valid v -> precondition op v ->
  run op v w = (Normal tt, v', w') ->
  valid v'.
Proof. apply returning_operation_leaves_valid. Qed.

(** X10: the appends return.  When neither the allocation nor a special
    member function of T nor the constructor calls throw, any sequence of
    appends to the empty vector returns, if the bytes of the elements
    appended are at most 2^63 and each reference to an element of the
    vector is to an element that exists when the call is made; the doubling
    of the capacity cannot overflow before. *)
Theorem appends_return_normally (cs : list (@append_call T W)) w :
  nothrow E -> Forall call_nothrow cs -> calls_live cs 0 ->
  Z.of_nat (length cs) * sizeof_T <= 2 ^ 63 ->
  exists v' w', appends cs Vector_default w = (Normal tt, v', w').
Proof. apply appends_return. Qed.

(** X11: the basic guarantee.  When the copy assignment, Reserve, Resize,
    PushBack, EmplaceBack or Erase throws, or Emplace or Insert at end(),
    in a call within its precondition, the vector is left valid and with
    the size it had: every slot below the size still holds a live object
    (moved-from or assigned-to, perhaps) and nothing is alive in the spare
    capacity.  Emplace and Insert at a position before end() are the
    exception. *)
Theorem throwing_operation_leaves_valid (op : @operation T W) v w v' w' :
  valid v -> precondition op v ->
  match op with
  | OpEmplace pos _ | OpInsert pos _ | OpInsertMove pos _ =>
    Z.of_nat pos = Size v
  | _ => True
  end ->
  run op v w = (Threw, v', w') ->
  valid v' /\ Size v' = Size v.
Proof.
  intros [l Hrep] Hpre Hend H.
  pose proof (rep_size _ _ Hrep) as Hsize.
  assert (Hsz : Z.to_nat (size_ v) = length l) by lia.
  assert (forall l', length l' = length l -> represents v' l' ->
                     valid v' /\ Size v' = Size v) as Hgoal.
  { intros l' Hl' Hr. split; [by exists l'|].
    unfold Size. rewrite (rep_size _ _ Hr), Hsize. lia. }
  assert (forall a, arguments_live a (length l) ->
                    append a v w = (Threw, v', w') ->
                    valid v' /\ Size v' = Size v) as Happ.
  { intros a Hlive Ha.
    destruct (append_threw_valid _ _ _ _ _ _ Hrep Hlive Ha)
      as (l' & Hl' & Hr).
    by eapply Hgoal. }
  assert (forall a, arguments_live a (length l) ->
                    EmplaceBack a v w = (Threw, v', w') ->
                    valid v' /\ Size v' = Size v) as Hback.
  { intros a Hlive Hb. unfold EmplaceBack in Hb.
    destruct (append a v w) as [[o1 v1] w1] eqn:Ha.
    destruct o1 as [[]| |]; simpl in Hb.
    - by destruct (RawMemory_at _ _).
    - injection Hb as <- <-. by eapply Happ.
    - done. }
  assert (forall pos a, arguments_live a (length l) ->
            Z.of_nat pos = Size v ->
            Emplace pos a v w = (Threw, v', w') ->
            valid v' /\ Size v' = Size v) as Hemp.
  { intros pos a Hlive Hp He. unfold Size in Hp.
    pose proof (rep_capacity _ _ Hrep) as Hcap.
    unfold Emplace, end_, RawMemory_plus in He.
    rewrite (proj2 (Z.leb_le _ _)) in He by lia.
    rewrite (proj2 (Nat.eqb_eq _ _)) in He by lia.
    by eapply Hback. }
  destruct op as [[|rhs]|n|n|value|value| |a|pos a|pos|pos value
                 |pos value]; simpl in H, Hpre; unfold Size in Hpre;
    rewrite ?Hsz in Hpre.
  - done.
  - destruct Hpre as [lr Hrhs].
    destruct (assign_copy_threw_valid _ _ _ _ _ _ _ Hrep Hrhs H)
      as (l' & Hl' & Hr).
    by eapply Hgoal.
  - destruct (Reserve_threw_valid _ _ _ _ _ _ Hrep Hpre H) as (l' & Hl' & Hr).
    by eapply Hgoal.
  - pose proof (Resize_all_cases _ _ _ _ _ _ _ Hrep Hpre H)
      as (_ & _ & _ & (l' & Hl' & Hr) & _).
    by eapply Hgoal.
  - by eapply (Happ (Outside (copy_ctor value))).
  - by eapply Happ.
  - by pose proof (PopBack_all_cases _ _ _ _ _ _ Hrep H).
  - destruct (EmplaceBack a v w) as [[o1 v1] w1] eqn:Hb.
    destruct o1; simpl in H; try done. injection H as <- <-.
    by eapply Hback.
  - destruct (Emplace pos a v w) as [[o1 v1] w1] eqn:He.
    destruct o1; simpl in H; try done. injection H as <- <-.
    eapply Hemp; [apply Hpre|done|done].
  - destruct (Erase pos v w) as [[o1 v1] w1] eqn:He.
    destruct o1; simpl in H; try done. injection H as <- <-.
    destruct (Erase_threw_valid pos _ _ _ _ _ Hrep ltac:(lia) He)
      as (l' & Hl' & Hr).
    by eapply Hgoal.
  - unfold Insert in H.
    destruct (Emplace pos _ v w) as [[o1 v1] w1] eqn:He.
    destruct o1; simpl in H; try done. injection H as <- <-.
    by eapply (Hemp pos (Outside (copy_ctor value))).
  - unfold Insert_move in H.
    destruct (Emplace pos _ v w) as [[o1 v1] w1] eqn:He.
    destruct o1; simpl in H; try done. injection H as <- <-.
    eapply Hemp; [apply Hpre|done|done].
Qed.



(** X13: a throwing reallocating Emplace.  On a full valid vector and a
    position before end(), when the migration is safe, a throw of Emplace,
    called with arguments that are no elements of the vector, leaves the
    vector as it was, or, when it came from the migration of the elements
    from the position on, with the size and the capacity it had, the
    elements from the position on untouched and the slots before the
    position raw: their objects were destroyed as soon as they had been
    migrated. *)
Theorem Emplace_full_throw pos args v l w v' w' :
  migration_safe E ->
  represents v l -> (pos < length l)%nat -> Size v = Capacity v ->
  Emplace pos (Outside args) v w = (Threw, v', w') ->
  v' = v \/
  (Size v' = Size v /\ Capacity v' = Capacity v /\
   (forall j, (j < pos)%nat -> buffer_ (data_ v') !! j = Some None) /\
   (forall j, (pos <= j)%nat ->
              buffer_ (data_ v') !! j = buffer_ (data_ v) !! j)).
Proof.
  intros Hsafe Hrep Hpos Hfull H.
  pose proof (represents_length _ _ Hrep) as (Hlen & Hle & Hsz).
  pose proof (rep_capacity _ _ Hrep) as Hcap.
  pose proof (rep_bytes _ _ Hrep) as Hbytes.
  unfold Size in Hfull.
  unfold Emplace, end_, RawMemory_plus in H.
  rewrite (proj2 (Z.leb_le _ _)) in H by lia.
  rewrite (proj2 (Nat.eqb_neq _ _)) in H by lia.
  rewrite (proj2 (Z.eqb_eq _ _)) in H by done.
  by eapply Emplace_realloc_throw_cases.
Qed.

End Guarantees.

(** ** How the operations compose *)

Section Composition.

Context {T W : Type} {E : Element T W} {V : ValueSemantics E}.

Local Abbreviation block := (list (option T)).

Implicit Types (v other rhs : @Vector T) (l : list T) (w : W).
Implicit Types (a : @arguments T W).

(** An append that returned is its appending body. *)
Lemma do_append_returned c v w v' w' :
  do_append c v w = (Normal tt, v', w') ->
  append (call_args c) v w = (Normal tt, v', w').
Proof.
  destruct c as [value|value|a]; simpl; [done|done|].
  unfold EmplaceBack. destruct (append a v w) as [[o1 v1] w1].
  destruct o1 as [[]| |]; simpl; [|done|done].
  destruct (RawMemory_at _ _); simpl; [|done]. by intros [= <- <-].
Qed.

(** The element that a call appends to a vector with the elements [l], and
    what it leaves of [l]. *)
Lemma call_args_value c l (x : T) l' :
  constructed (call_args c) l x l' ->
  match c with
  | ByPushBack value | ByPushBackMove (OutsideObject value) =>
    x = value /\ l' = l
  | ByPushBackMove (ElementAt p) =>
    l !! p = Some x /\ exists s', l' = <[p := s']> l
  | ByEmplaceBack a => constructed a l x l'
  end.
Proof.
  destruct c as [value|[value|p]|a]; simpl; [| |done|done].
  - intros [Hx ->]. by apply constructs_copy in Hx.
  - intros [Hx ->]. by apply constructs_move in Hx.
Qed.

(** The elements that a constructor call leaves are those of [l], but for
    the one it has moved from. *)
Lemma constructed_lookup a l (x : T) l' (i : nat) :
  constructed a l x l' -> a <> MoveElement i -> l' !! i = l !! i.
Proof.
  destruct a as [args|p]; simpl; [by intros [_ ->]|].
  intros [_ [s' ->]] Hne. apply list_lookup_insert_ne. congruence.
Qed.


Lemma do_append_all_cases c v l w o v' w' :
  represents v l -> arguments_live (call_args c) (length l) ->
  do_append c v w = (o, v', w') ->
  match o with
  | Normal _ =>
    exists x l', constructed (call_args c) l x l' /\
                 represents v' (l' ++ [x]) /\
                 Size v' = Size v + 1 /\
                 at_ v' (Size v) = Some x /\
                 (forall i, 0 <= i < Size v ->
                    call_args c <> MoveElement (Z.to_nat i) ->
                    at_ v' i = at_ v i)
  | Threw => ~ (nothrow E /\ call_nothrow c)
  | Violation =>
    Size v = Capacity v /\ size_t_modulus <= 2 * Size v * sizeof_T
  end.
Proof.
  intros Hrep Hlive H.
  pose proof (do_append_cases _ _ _ _ _ _ _ Hrep Hlive H) as Hc.
  destruct o as [[]| |]; [|done|done].
  destruct Hc as (x & l' & Hx & Hr).
  pose proof (constructed_length _ _ _ _ Hx) as Hl.
  pose proof (rep_size _ _ Hrep) as Hsize.
  pose proof (rep_size _ _ Hr) as Hsize'.
  rewrite length_app in Hsize'. simpl in Hsize'.
  exists x, l'. unfold Size. split_and!; [done|done|lia| |].
  - rewrite (represents_at _ _ _ Hr) by lia.
    rewrite Hsize, Nat2Z.id, <- Hl.
    by rewrite lookup_app_r, Nat.sub_diag by lia.
  - intros i Hi Hne.
    rewrite (represents_at _ _ _ Hr), (represents_at _ _ _ Hrep) by lia.
    rewrite lookup_app_l by lia.
    by eapply constructed_lookup.
Qed.

(** The reference that EmplaceBack returns is to the new element. *)
Lemma EmplaceBack_returned a v l w it v' w' :
  represents v l -> arguments_live a (length l) ->
  EmplaceBack a v w = (Normal it, v', w') ->
  it = length l /\
  exists x l', constructed a l x l' /\ represents v' (l' ++ [x]) /\
               buffer_ (data_ v') !! it = Some (Some x).
Proof.
  intros Hrep Hlive H. unfold EmplaceBack in H.
  destruct (append a v w) as [[o1 v1] w1] eqn:Ha.
  destruct o1 as [[]| |]; simpl in H; [|done|done].
  destruct (append_returned _ _ _ _ _ _ Hrep Hlive Ha) as (x & l' & Hx & Hr).
  pose proof (constructed_length _ _ _ _ Hx) as Hl.
  pose proof (rep_capacity _ _ Hr) as Hcap.
  pose proof (rep_size _ _ Hr) as Hsize.
  rewrite length_app in Hsize. simpl in Hsize.
  unfold RawMemory_at in H. rewrite size_t_sub_small in H by lia.
  rewrite (proj2 (Z.ltb_lt _ _)) in H by lia.
  injection H as <- <- <-.
  assert (Hit : Z.to_nat (size_ v1 - 1) = length l) by lia.
  split; [done|]. exists x, l'. split_and!; [done|done|].
  rewrite Hit. apply (represents_holds _ _ Hr (length l) x).
  by rewrite <- Hl, lookup_app_r, Nat.sub_diag by lia.
Qed.

(** X14: PushBack and EmplaceBack.  On a valid vector with the elements
    l, an append that returns leaves a valid vector with the new element
    after the former ones: the size has grown by one, the new element is at
    the index of the former size, and every former element is read at its
    index as before, but for the element that was passed as the T&& to
    move from, if it is one of the vector: that one is left moved-from.
    PushBack appends the value it is given, and the reference that
    EmplaceBack returns is to the new element.  The call throws only if
    something it calls throws, and its behaviour is undefined only when
    the vector is full and the bytes of twice its size are not counted by
    a size_t. *)
Theorem append_spec_public c v l w :
  represents v l -> arguments_live (call_args c) (length l) ->
  match do_append c v w with
  | (Normal _, v', _) =>
    exists x l',
      represents v' (l' ++ [x]) /\
      match c with
      | ByPushBack value | ByPushBackMove (OutsideObject value) =>
        x = value /\ l' = l
      | ByPushBackMove (ElementAt p) =>
        l !! p = Some x /\ exists s', l' = <[p := s']> l
      | ByEmplaceBack a => constructed a l x l'
      end /\
      Size v' = Size v + 1 /\
      at_ v' (Size v) = Some x /\
      (forall i, 0 <= i < Size v ->
         call_args c <> MoveElement (Z.to_nat i) ->
         at_ v' i = at_ v i)
  | (Threw, _, _) => ~ (nothrow E /\ call_nothrow c)
  | (Violation, _, _) =>
    Size v = Capacity v /\ size_t_modulus <= 2 * Size v * sizeof_T
  end /\
  (forall a, arguments_live a (length l) ->
     match EmplaceBack a v w with
     | (Normal it, v', _) =>
       it = length l /\
       exists x l', constructed a l x l' /\ represents v' (l' ++ [x]) /\
                    buffer_ (data_ v') !! it = Some (Some x)
     | (Threw, _, _) => ~ (nothrow E /\ args_nothrow a)
     | (Violation, _, _) =>
       Size v = Capacity v /\ size_t_modulus <= 2 * Size v * sizeof_T
     end).
Proof.
  intros Hrep Hlive. split.
  - destruct (do_append c v w) as [[o v'] w'] eqn:H.
    pose proof (do_append_all_cases _ _ _ _ _ _ _ Hrep Hlive H) as Hc.
    destruct o as [[]| |]; [|done|done].
    destruct Hc as (x & l' & Hx & Hr & Hs & Hat & Hold).
    exists x, l'.
    split_and!; [done|by apply call_args_value|done|done|done].
  - intros a Ha. destruct (EmplaceBack a v w) as [[o v'] w'] eqn:H.
    destruct o as [it| |]; [by eapply EmplaceBack_returned| |].
    + apply (do_append_cases (ByEmplaceBack a) v l w Threw v' w' Hrep Ha).
      simpl. by rewrite H.
    + apply (do_append_cases (ByEmplaceBack a) v l w Violation v' w' Hrep Ha).
      simpl. by rewrite H.
Qed.

(** With spare capacity the appending body is one constructor call, with
    the new object put in the slot of index size. *)
Lemma append_room a v l w :
  represents v l -> Size v < Capacity v ->
  append a v w =
  match construct a (buffer_ (data_ v)) w with
  | (Normal (x, b), w1) =>
    (Normal tt,
     with_size (with_buffer v (<[length l := Some x]> b)) (size_ v + 1), w1)
  | (o, w1) => (propagate o, v, w1)
  end.
Proof.
  intros Hrep Hroom.
  pose proof (represents_length _ _ Hrep) as (Hlen & Hle & Hsz).
  pose proof (rep_capacity _ _ Hrep) as Hcap.
  pose proof (rep_size _ _ Hrep) as Hsize.
  unfold Size, Capacity, RawMemory_Capacity in *.
  unfold append, Capacity, RawMemory_Capacity, RawMemory_plus.
  rewrite (proj2 (Z.eqb_neq _ _)) by lia.
  rewrite (proj2 (Z.leb_le _ _)) by lia.
  rewrite (proj2 (Nat.ltb_lt _ _)) by lia.
  rewrite Hsz. rewrite size_t_add_small by lia.
  by destruct (construct a _ w) as [[[x b]| |] w1].
Qed.





(** X17: PushBack, then PopBack.  On a valid vector, after a PushBack that
    returned, PopBack returns, destroys the element that was pushed and
    leaves the elements and the size that the vector had before the
    PushBack.  The capacity is the one the PushBack left. *)
Theorem PushBack_then_PopBack value v l w v1 w1 :
  represents v l ->
  PushBack value v w = (Normal tt, v1, w1) ->
  exists v2,
    PopBack v1 w1 = (Normal tt, v2, dtor value w1) /\
    represents v2 l /\ Size v2 = Size v /\ Capacity v2 = Capacity v1.
Proof.
  intros Hrep H. unfold PushBack in H.
  destruct (append_returned (Outside (copy_ctor value)) _ _ _ _ _ Hrep I H)
    as (x & l' & [Hx ->] & Hr).
  apply constructs_copy in Hx as ->.
  destruct (PopBack v1 w1) as [[o v2] w2] eqn:Hp.
  pose proof (PopBack_all_cases _ _ _ _ _ _ Hr Hp) as Hc.
  rewrite length_app in Hc. simpl in Hc.
  replace (length l + 1 - 1)%nat with (length l) in Hc by lia.
  destruct o as [[]| |]; [|done|by destruct l; destruct Hc].
  destruct Hc as (x & Hx & -> & Hr2 & Hs & Hcap).
  rewrite lookup_app_r, Nat.sub_diag in Hx by lia. simpl in Hx.
  injection Hx as <-.
  rewrite take_app_length in Hr2.
  exists v2. split_and!; [done|done| |done].
  unfold Size. rewrite (rep_size _ _ Hr2), (rep_size _ _ Hrep). done.
Qed.



(** The capacity that an appending body leaves when it returns. *)
Lemma append_capacity_exact a v l w v' w' :
  represents v l ->
  append a v w = (Normal tt, v', w') ->
  Capacity v' =
    (if Size v <? Capacity v then Capacity v
     else if Size v =? 0 then 1 else 2 * Size v).
Proof.
  intros Hrep H.
  pose proof (rep_capacity _ _ Hrep) as Hcap.
  pose proof (rep_bytes _ _ Hrep) as Hbytes.
  pose proof (rep_size _ _ Hrep) as Hsize.
  pose proof (@sizeof_T_range _ _ E) as Hsizeof.
  unfold Size. destruct (size_ v <? Capacity v) eqn:Hroom.
  - apply Z.ltb_lt in Hroom.
    rewrite (append_room _ _ _ _ Hrep Hroom) in H.
    destruct (construct a _ w) as [[[x b]| |] w1]; [|done|done].
    by injection H as <- <-.
  - apply Z.ltb_ge in Hroom. unfold Capacity, RawMemory_Capacity in Hroom.
    assert (Hfull : size_ v = Capacity v)
      by (unfold Capacity, RawMemory_Capacity; lia).
    assert (Hfit : 2 * size_ v * sizeof_T < size_t_modulus).
    { eapply append_returned_fits; [| |done|done]; [lia|].
      unfold Capacity, RawMemory_Capacity in Hfull. by rewrite Hfull. }
    unfold append in H. rewrite (proj2 (Z.eqb_eq _ _) Hfull) in H.
    destruct (RawMemory_new _ w) as [[new_data|] w1] eqn:Hnew; [|done].
    apply RawMemory_new_capacity in Hnew. unfold RawMemory_Swap in H.
    assert (Hc : Capacity v' = capacity_ new_data)
      by (repeat case_match; simplify_eq; done).
    rewrite Hc, Hnew. destruct (size_ v =? 0); [done|].
    rewrite size_t_mul_small by nia. lia.
Qed.

(** X22: the growth policy.  An insertion that returns (PushBack,
    EmplaceBack, Emplace or Insert at any position of [begin(), end()])
    leaves the capacity as it was when the size was below it, and
    otherwise makes it 1 for the empty vector without storage and twice the
    size for any other: a call that returns has not wrapped around in
    size_ * 2. *)
Theorem growth_policy v l w :
  represents v l ->
  (forall c,
     match do_append c v w with
     | (Normal _, v', _) =>
       Capacity v' =
         (if Size v <? Capacity v then Capacity v
          else if Size v =? 0 then 1 else 2 * Size v)
     | _ => True
     end) /\
  (forall pos a, (pos <= length l)%nat ->
     match Emplace pos a v w with
     | (Normal _, v', _) =>
       Capacity v' =
         (if Size v <? Capacity v then Capacity v
          else if Size v =? 0 then 1 else 2 * Size v)
     | _ => True
     end).
Proof.
  intros Hrep.
  pose proof (represents_length _ _ Hrep) as (Hlen & Hle & Hsz).
  pose proof (rep_capacity _ _ Hrep) as Hcap.
  pose proof (rep_bytes _ _ Hrep) as Hbytes.
  pose proof (rep_size _ _ Hrep) as Hsize.
  pose proof (@sizeof_T_range _ _ E) as Hsizeof.
  assert (Hback : forall a it v' w',
            EmplaceBack a v w = (Normal it, v', w') ->
            Capacity v' =
              (if Size v <? Capacity v then Capacity v
               else if Size v =? 0 then 1 else 2 * Size v)).
  { intros a it v' w' H. unfold EmplaceBack in H.
    destruct (append a v w) as [[o1 v1] w1] eqn:Ha.
    destruct o1 as [[]| |]; simpl in H; [|done|done].
    destruct (RawMemory_at _ _); [|done]. injection H as _ <- _.
    by eapply append_capacity_exact. }
  split.
  - intros c. destruct (do_append c v w) as [[o v'] w'] eqn:H.
    destruct o as [[]| |]; [|done|done].
    apply do_append_returned in H.
    by eapply append_capacity_exact.
  - intros pos a Hpos.
    destruct (Emplace pos a v w) as [[o v'] w'] eqn:H.
    destruct o as [it| |]; [|done|done].
    unfold Emplace, end_, RawMemory_plus in H.
    rewrite (proj2 (Z.leb_le _ _)) in H by lia. rewrite Hsz in H.
    destruct (pos =? length l)%nat eqn:Hend; [by eapply Hback|].
    apply Nat.eqb_neq in Hend.
    unfold Size. destruct (size_ v =? Capacity v) eqn:Hfull.
    + apply Z.eqb_eq in Hfull.
      assert (Hs : (pos < length l)%nat) by lia.
      pose proof (Emplace_realloc_returned_fits _ _ _ _ _ _ _ _ Hrep Hfull
                    Hs H) as Hfit.
      rewrite (proj2 (Z.ltb_ge _ _)) by lia.
      rewrite (proj2 (Z.eqb_neq _ _)) by lia.
      unfold Emplace_realloc in H.
      rewrite (proj2 (Z.eqb_neq (size_ v) 0)) in H by lia.
      destruct (RawMemory_new _ w) as [[new_data|] w1] eqn:Hnew; [|done].
      apply RawMemory_new_capacity in Hnew. unfold RawMemory_Swap in H.
      assert (Hc : Capacity v' = capacity_ new_data)
        by (repeat case_match; simplify_eq; done).
      rewrite Hc, Hnew. rewrite size_t_mul_small by nia. lia.
    + apply Z.eqb_neq in Hfull. unfold Capacity, RawMemory_Capacity in *.
      rewrite (proj2 (Z.ltb_lt _ _)) by lia.
      unfold Emplace_inplace in H.
      repeat case_match; simplify_eq; done.
Qed.

End Composition.

(** ** Outside the preconditions *)

Section Bounds.

Context {T W : Type} {E : Element T W}.

Local Abbreviation block := (list (option T)).

Implicit Types (v other rhs : @Vector T) (l : list T) (w : W).

Lemma index_of_small v pos :
  Z.of_nat pos < size_t_modulus -> index_of v pos = Z.of_nat pos.
Proof.
  intros Hpos. unfold index_of, begin_, GetAddress. simpl.
  rewrite Z.sub_0_r. apply Z.mod_small. lia.
Qed.

(** X19: Erase outside [begin(), end()).  On a valid vector, Erase at
    end() or beyond is undefined behaviour, also when the vector is not
    empty and the assert holds: the range that std::move is given ends
    before it starts.  Nothing is moved or destroyed before. *)
Theorem Erase_out_of_range pos v l w :
  represents v l -> (length l <= pos)%nat ->
  Z.of_nat pos < size_t_modulus ->
  Erase pos v w = (Violation, v, w).
Proof.
  intros Hrep Hpos Hsmall.
  pose proof (represents_length _ _ Hrep) as (Hlen & Hle & Hsz).
  pose proof (rep_capacity _ _ Hrep) as Hcap.
  pose proof (rep_bytes _ _ Hrep) as Hbytes.
  pose proof (rep_size _ _ Hrep) as Hsize.
  unfold Erase. destruct (0 <? size_ v); [|done].
  rewrite index_of_small by done.
  unfold end_, begin_, GetAddress, RawMemory_plus, move_range.
  rewrite (proj2 (Z.leb_le _ _)) by lia.
  rewrite (proj2 (Nat.leb_gt _ _)) by lia.
  simpl. by rewrite with_buffer_same.
Qed.

(** X20: Emplace beyond end().  On a valid vector, Emplace (and so
    Insert) at a position beyond end() never returns: unless the
    allocation or a constructor throws first, its behaviour is undefined
    (a raw slot is read as an element, or std::move_backward is given a
    range that ends before it starts). *)
Theorem Emplace_out_of_range pos (a : @arguments T W) v l w :
  represents v l -> (length l < pos)%nat ->
  Z.of_nat pos < size_t_modulus ->
  match Emplace pos a v w with
  | (Normal _, _, _) => False
  | (Threw, _, _) => args_nothrow a -> ~ nothrow E
  | (Violation, _, _) => True
  end.
Proof.
  intros Hrep Hpos Hsmall.
  pose proof (represents_length _ _ Hrep) as (Hlen & Hle & Hsz).
  pose proof (rep_capacity _ _ Hrep) as Hcap.
  pose proof (rep_bytes _ _ Hrep) as Hbytes.
  pose proof (rep_size _ _ Hrep) as Hsize.
  destruct (Emplace pos a v w) as [[o v'] w'] eqn:H.
  unfold Emplace, end_, RawMemory_plus in H.
  rewrite (proj2 (Z.leb_le _ _)) in H by lia.
  rewrite (proj2 (Nat.eqb_neq _ _)) in H by lia.
  destruct o as [it| |]; [|intros Hargs Hsafe|done].
  - destruct (size_ v =? Capacity v) eqn:Hfull.
    + (* the prefix to migrate reaches beyond the block *)
      apply Z.eqb_eq in Hfull. unfold Capacity, RawMemory_Capacity in Hfull.
      unfold Emplace_realloc in H. rewrite index_of_small in H by done.
      destruct (RawMemory_new _ w) as [[new_data|] w1]; [|done].
      destruct (RawMemory_plus new_data _) as [p|]; [|done].
      destruct (p <? _)%nat; [|done].
      destruct (construct a _ w1) as [[[x b]| |] w2] eqn:Hx; [|done|done].
      apply construct_block in Hx as [Hlb _].
      destruct (CopyOrMove _ _ _ _ _ w2) as [[o2 [ob nb1]] w3] eqn:Hm.
      destruct o2 as [[]| |].
      * apply CopyOrMove_bounds in Hm as (_ & _ & Hb).
        unfold GetAddress in Hb. lia.
      * destruct (RawMemory_at new_data _); [|done].
        by destruct (destroy_at nb1 _ w3) as [[? ?]|].
      * done.
    + (* the range to shift ends before it starts *)
      unfold Emplace_inplace in H. rewrite index_of_small in H by done.
      destruct (construct a _ w) as [[[temp b]| |] w1]; [|done|done].
      unfold end_, RawMemory_plus in H.
      rewrite (proj2 (Z.leb_le _ _)) in H by lia.
      destruct (RawMemory_at (data_ v) _) as [lastp|]; [|done].
      destruct (_ !! lastp) as [[last|]|]; [|done|done].
      destruct (_ <? _)%nat; [|done].
      destruct (move_ctor last w1) as [[[y last']|] w2]; [|done].
      unfold move_backward, begin_, GetAddress in H.
      rewrite (proj2 (Nat.leb_gt _ _)) in H by lia.
      done.
  - destruct (size_ v =? Capacity v).
    + by eapply Emplace_realloc_nothrow.
    + by eapply Emplace_inplace_nothrow.
Qed.

(** X21: RawMemory.  RawMemory(n) has the capacity n and owns a block of
    raw slots, as many as the n * sizeof(T) bytes it asks operator new for
    hold, the product being a size_t: n slots if the product has not
    wrapped around, and fewer than n if it has.  It fails only if operator
    new does, and for n = 0 it allocates nothing and holds the null
    pointer.  Its operator[] accepts every index below the capacity and
    fails its assert for the capacity and beyond; its operator+ also
    accepts the capacity itself (the address one past n objects) and
    nothing beyond; the address they give is that of a raw slot if the
    index is below the number of slots. *)
Theorem RawMemory_spec n w :
  0 <= n ->
  match RawMemory_new n w with
  | (Some m, w') =>
    RawMemory_Capacity m = n /\
    length (buffer_ m) = Z.to_nat (size_t_mul n sizeof_T / sizeof_T) /\
    (n * sizeof_T < size_t_modulus -> length (buffer_ m) = Z.to_nat n) /\
    (size_t_modulus <= n * sizeof_T ->
     (length (buffer_ m) < Z.to_nat n)%nat) /\
    (n = 0 -> m = RawMemory_default /\ w' = w) /\
    (forall i, 0 <= i < n ->
       RawMemory_at m i = Some (Z.to_nat i) /\
       RawMemory_plus m i = Some (Z.to_nat i)) /\
    (forall p, (p < length (buffer_ m))%nat -> buffer_ m !! p = Some None) /\
    RawMemory_plus m n = Some (Z.to_nat n) /\
    RawMemory_at m n = None /\
    (forall i, n < i -> RawMemory_plus m i = None /\ RawMemory_at m i = None)
  | (None, _) =>
    n <> 0 /\ fst (operator_new (size_t_mul n sizeof_T) w) = false
  end.
Proof.
  intros Hn. pose proof (@sizeof_T_range _ _ E) as Hsizeof.
  destruct (RawMemory_new n w) as [[m|] w'] eqn:H.
  - pose proof H as H'. apply RawMemory_new_block in H' as ->; [|done].
    unfold RawMemory_plus, RawMemory_at, RawMemory_Capacity. simpl.
    rewrite Z.leb_refl, Z.ltb_irrefl, length_replicate.
    split_and!; [done|done| | | | | |done|done|].
    + intros Hfit. by rewrite slots_exact.
    + intros Hwrap. pose proof (slots_wrapped n Hn Hwrap) as Hs.
      assert (0 <= size_t_mul n sizeof_T / sizeof_T).
      { apply Z.div_pos; [|lia]. unfold size_t_mul.
        apply Z.mod_pos_bound. done. }
      lia.
    + intros ->. unfold RawMemory_new, Allocate in H. simpl in H.
      by injection H as <-.
    + intros i Hi.
      by rewrite (proj2 (Z.ltb_lt _ _)), (proj2 (Z.leb_le _ _)) by lia.
    + intros p Hp. by apply lookup_replicate_2.
    + intros i Hi.
      by rewrite (proj2 (Z.ltb_ge _ _)), (proj2 (Z.leb_gt _ _)) by lia.
  - unfold RawMemory_new, Allocate in H.
    destruct (n =? 0) eqn:Hz; simpl in H; [done|].
    apply Z.eqb_neq in Hz. split; [done|].
    by destruct (operator_new _ w) as [[] w1].
Qed.

End Bounds.

(** ** The theorems at particular inputs *)

Lemma throwing_copy_values bad : ValueSemantics (Obj.throwing_copy bad).
Proof.
  split; simpl; intros; repeat case_match; by simplify_eq.
Qed.

Lemma move_only_values bad : ValueSemantics (Obj.move_only bad).
Proof.
  split; simpl; intros; repeat case_match; by simplify_eq.
Qed.


Lemma plain_nothrow : nothrow Obj.plain.
Proof. split; simpl; intros; done. Qed.


(** The destructor of [1; 2; 3] with capacity 5 destroys 1, 2 and 3, in
    that order (the log has the latest first). *)
Lemma Vector_destroy_spec_witness :
  @represents _ _ Obj.plain (Obj.vector_of [1; 2; 3] 2) [1; 2; 3] /\
  @Vector_destroy _ _ Obj.plain (Obj.vector_of [1; 2; 3] 2) []
    = Some [3; 2; 1].
Proof.
  assert (Hrep : @represents _ _ Obj.plain
                   (Obj.vector_of [1; 2; 3] 2) [1; 2; 3])
    by (apply (vector_of_represents Obj.plain); reflexivity).
  split; [exact Hrep|].
  exact (@Vector_destroy_spec _ _ Obj.plain _ _ [] Hrep).
Defined.

(** Resize(4) on [1; 2] with capacity 2. *)
Lemma Resize_spec_witness :
  @represents _ _ Obj.plain (Obj.vector_of [1; 2] 0) [1; 2] /\
  0 <= 4 < size_t_modulus /\
  exists v' w',
    @Resize _ _ Obj.plain 4 (Obj.vector_of [1; 2] 0) [] = (Normal tt, v', w') /\
    Size v' = 4 /\
    exists ys, @represents _ _ Obj.plain v' ([1; 2] ++ ys) /\
               Forall (constructs (@default_ctor _ _ Obj.plain)) ys.
Proof.
  assert (Hrep : @represents _ _ Obj.plain (Obj.vector_of [1; 2] 0) [1; 2])
    by (apply (vector_of_represents Obj.plain); reflexivity).
  assert (Hn : 0 <= 4 < size_t_modulus) by (split; [discriminate|reflexivity]).
  split_and!; [exact Hrep|apply Hn|apply Hn|].
  pose proof (@Resize_spec _ _ Obj.plain plain_values 4
                (Obj.vector_of [1; 2] 0) [1; 2] [] Hrep Hn) as H.
  remember (@Resize _ _ Obj.plain 4 (Obj.vector_of [1; 2] 0) []) as r eqn:Hr.
  vm_compute in Hr.
  match type of Hr with _ = (_, ?v', ?w') => exists v', w' end.
  split; [exact Hr|]. rewrite Hr in H.
  destruct H as (_ & Hs & _ & _ & Hg). split; [exact Hs|].
  apply Hg. reflexivity.
Defined.

(** PopBack on [1; 2; 3] destroys 3. *)
Lemma PopBack_spec_witness :
  @represents _ _ Obj.plain (Obj.vector_of [1; 2; 3] 0) [1; 2; 3] /\
  exists v',
    @PopBack _ _ Obj.plain (Obj.vector_of [1; 2; 3] 0) []
      = (Normal tt, v', [3]) /\
    @represents _ _ Obj.plain v' [1; 2].
Proof.
  assert (Hrep : @represents _ _ Obj.plain
                   (Obj.vector_of [1; 2; 3] 0) [1; 2; 3])
    by (apply (vector_of_represents Obj.plain); reflexivity).
  split; [exact Hrep|].
  pose proof (@PopBack_spec _ _ Obj.plain (Obj.vector_of [1; 2; 3] 0)
                [1; 2; 3] [] Hrep) as H.
  remember (@PopBack _ _ Obj.plain (Obj.vector_of [1; 2; 3] 0) []) as r eqn:Hr.
  vm_compute in Hr.
  match type of Hr with _ = (_, ?v', _) => exists v' end.
  split; [exact Hr|]. rewrite Hr in H.
  destruct H as (x & _ & _ & Hv & _). exact Hv.
Defined.

(** Reading [5; 6; 7] with capacity 4 at the index 1. *)
Lemma at_spec_witness :
  @represents _ _ Obj.plain (Obj.vector_of [5; 6; 7] 1) [5; 6; 7] /\
  0 <= 1 /\
  at_ (Obj.vector_of [5; 6; 7] 1) 1 = Some 6.
Proof.
  assert (Hrep : @represents _ _ Obj.plain
                   (Obj.vector_of [5; 6; 7] 1) [5; 6; 7])
    by (apply (vector_of_represents Obj.plain); reflexivity).
  assert (Hi : 0 <= 1) by discriminate.
  split_and!; [exact Hrep|exact Hi|].
  destruct (@at_spec _ _ Obj.plain _ _ 1 Hrep Hi) as [H _]. exact H.
Defined.

(** The end of [5; 6; 7] with capacity 4. *)
Lemma iterators_spec_witness :
  @represents _ _ Obj.plain (Obj.vector_of [5; 6; 7] 1) [5; 6; 7] /\
  end_ (Obj.vector_of [5; 6; 7] 1) = Some 3%nat.
Proof.
  assert (Hrep : @represents _ _ Obj.plain
                   (Obj.vector_of [5; 6; 7] 1) [5; 6; 7])
    by (apply (vector_of_represents Obj.plain); reflexivity).
  split; [exact Hrep|].
  destruct (@iterators_spec _ _ Obj.plain _ _ Hrep) as [H _]. exact H.
Defined.

(** Insert(begin, std::move(v[2])) on [1; 2; 3] with capacity 4 is within
    its precondition and leaves a valid vector. *)
Lemma operation_returns_valid_witness :
  @valid _ _ Obj.plain (Obj.vector_of [1; 2; 3] 1) /\
  @precondition _ _ Obj.plain (OpInsertMove 0%nat (ElementAt 2))
     (Obj.vector_of [1; 2; 3] 1) /\
  exists v' w',
    @run _ _ Obj.plain (OpInsertMove 0%nat (ElementAt 2))
       (Obj.vector_of [1; 2; 3] 1) []
      = (Normal tt, v', w') /\
    buffer_ (data_ v') = [Some 3; Some 1; Some 2; Some 0] /\
    @valid _ _ Obj.plain v'.
Proof.
  assert (Hv : @valid _ _ Obj.plain (Obj.vector_of [1; 2; 3] 1)).
  { exists [1; 2; 3].
    apply (vector_of_represents Obj.plain); reflexivity. }
  assert (Hpre : @precondition _ _ Obj.plain (OpInsertMove 0%nat (ElementAt 2))
                   (Obj.vector_of [1; 2; 3] 1))
    by (split; [discriminate|simpl; lia]).
  split_and!; [exact Hv|exact Hpre|].
  pose proof (fun v' w' =>
                @operation_returns_valid _ _ Obj.plain plain_values
                  (OpInsertMove 0%nat (ElementAt 2))
                  (Obj.vector_of [1; 2; 3] 1) [] v' w'
                  Hv Hpre) as H.
  remember (@run _ _ Obj.plain (OpInsertMove 0%nat (ElementAt 2))
              (Obj.vector_of [1; 2; 3] 1) [])
    as r eqn:Hr.
  vm_compute in Hr.
  match type of Hr with _ = (_, ?v', ?w') => exists v', w' end.
  split_and!; [exact Hr|reflexivity|exact (H _ _ Hr)].
Defined.

(** Three appends of an int-like type return, the last of them
    v.PushBack(std::move(v[0])). *)
Lemma appends_return_normally_witness :
  nothrow Obj.plain /\
  Forall (@call_nothrow _ _ Obj.plain)
         [ByPushBack 1; ByEmplaceBack (Outside (Obj.make 2));
          ByPushBackMove (ElementAt 0)] /\
  @calls_live _ _ Obj.plain
     [ByPushBack 1; ByEmplaceBack (Outside (Obj.make 2));
      ByPushBackMove (ElementAt 0)] 0 /\
  Z.of_nat (length [@ByPushBack Z Obj.log 1;
                    ByEmplaceBack (Outside (Obj.make 2));
                    ByPushBackMove (ElementAt 0)])
    * @sizeof_T _ _ Obj.plain <= 2 ^ 63 /\
  exists v' w',
    @appends _ _ Obj.plain
      [ByPushBack 1; ByEmplaceBack (Outside (Obj.make 2));
       ByPushBackMove (ElementAt 0)]
      Vector_default [] = (Normal tt, v', w').
Proof.
  assert (Hall : Forall (@call_nothrow _ _ Obj.plain)
                   [ByPushBack 1; ByEmplaceBack (Outside (Obj.make 2));
                    ByPushBackMove (ElementAt 0)]).
  { repeat constructor; intros w; discriminate. }
  assert (Hlive : @calls_live _ _ Obj.plain
                    [ByPushBack 1; ByEmplaceBack (Outside (Obj.make 2));
                     ByPushBackMove (ElementAt 0)] 0)
    by (simpl; repeat split; lia).
  assert (Hlen : Z.of_nat (length [@ByPushBack Z Obj.log 1;
                                   ByEmplaceBack (Outside (Obj.make 2));
                                   ByPushBackMove (ElementAt 0)])
                 * @sizeof_T _ _ Obj.plain <= 2 ^ 63)
    by discriminate.
  split_and!; [exact plain_nothrow|exact Hall|exact Hlive|exact Hlen|].
  exact (@appends_return_normally _ _ Obj.plain plain_values _ []
           plain_nothrow Hall Hlive Hlen).
Defined.

(** Reserve(4) on [1; 2] for a move-only type whose move constructor throws
    on 2: the vector is left valid, with its size and the elements
    [0; 2]. *)
Lemma throwing_operation_leaves_valid_witness :
  @valid _ _ (Obj.move_only 2) (Obj.vector_of [1; 2] 0) /\
  @precondition _ _ (Obj.move_only 2) (OpReserve 4) (Obj.vector_of [1; 2] 0) /\
  exists v' w',
    @run _ _ (Obj.move_only 2) (OpReserve 4) (Obj.vector_of [1; 2] 0) []
      = (Threw, v', w') /\
    @valid _ _ (Obj.move_only 2) v' /\
    Size v' = Size (Obj.vector_of [1; 2] 0).
Proof.
  assert (Hv : @valid _ _ (Obj.move_only 2) (Obj.vector_of [1; 2] 0)).
  { exists [1; 2].
    apply (vector_of_represents (Obj.move_only 2)); reflexivity. }
  assert (Hpre : @precondition _ _ (Obj.move_only 2) (OpReserve 4)
                   (Obj.vector_of [1; 2] 0))
    by (split; [discriminate|reflexivity]).
  split_and!; [exact Hv|exact Hpre|].
  pose proof (fun v' w' =>
                @throwing_operation_leaves_valid _ _ (Obj.move_only 2)
                  (move_only_values 2) (OpReserve 4)
                  (Obj.vector_of [1; 2] 0) [] v' w' Hv Hpre I) as H.
  remember (@run _ _ (Obj.move_only 2) (OpReserve 4)
              (Obj.vector_of [1; 2] 0) []) as r eqn:Hr.
  vm_compute in Hr.
  match type of Hr with _ = (_, ?v', ?w') => exists v', w' end.
  split; [exact Hr|]. exact (H _ _ Hr).
Defined.


(** Emplace of 9 at the index 1 of the full vector [1; 2], for a copyable
    type whose copy constructor throws on 2: the slot 0 is left raw. *)
Lemma Emplace_full_throw_witness :
  migration_safe (Obj.throwing_copy 2) /\
  @represents _ _ (Obj.throwing_copy 2) (Obj.vector_of [1; 2] 0) [1; 2] /\
  (1 < length [1; 2])%nat /\
  Size (Obj.vector_of [1; 2] 0) = Capacity (Obj.vector_of [1; 2] 0) /\
  exists v' w',
    @Emplace _ _ (Obj.throwing_copy 2) 1%nat (Outside (Obj.make 9))
       (Obj.vector_of [1; 2] 0) [] = (Threw, v', w') /\
    Size v' = 2 /\ buffer_ (data_ v') !! 0%nat = Some None /\
    buffer_ (data_ v') !! 1%nat = Some (Some 2).
Proof.
  assert (Hrep : @represents _ _ (Obj.throwing_copy 2)
                   (Obj.vector_of [1; 2] 0) [1; 2])
    by (apply (vector_of_represents (Obj.throwing_copy 2)); reflexivity).
  assert (Hpos : (1 < length [1; 2])%nat) by (simpl; lia).
  assert (Hfull : Size (Obj.vector_of [1; 2] 0)
                  = Capacity (Obj.vector_of [1; 2] 0)) by reflexivity.
  split_and!; [exact (throwing_copy_migration_safe 2)|exact Hrep|exact Hpos
              |exact Hfull|].
  pose proof (fun v' w' =>
                @Emplace_full_throw _ _ (Obj.throwing_copy 2)
                  (throwing_copy_values 2) 1%nat (Obj.make 9)
                  (Obj.vector_of [1; 2] 0) [1; 2] [] v' w'
                  (throwing_copy_migration_safe 2) Hrep Hpos Hfull) as H.
  remember (@Emplace _ _ (Obj.throwing_copy 2) 1%nat (Outside (Obj.make 9))
              (Obj.vector_of [1; 2] 0) []) as r eqn:Hr.
  vm_compute in Hr.
  match type of Hr with _ = (_, ?v', ?w') => exists v', w' end.
  split; [exact Hr|].
  destruct (H _ _ Hr) as [Heq|(Hs & _ & Hraw & Hkept)].
  - discriminate Heq.
  - split_and!; [exact Hs|apply Hraw; constructor|].
    rewrite Hkept by (simpl; lia). reflexivity.
Defined.

(** PushBack(5) on the full vector [1; 2] gives [1; 2; 5], and
    PushBack(std::move(v[0])) gives [0; 2; 1]: the new element has the
    value 1, and the element moved from is left at the index 0. *)
Lemma append_spec_public_witness :
  @represents _ _ Obj.plain (Obj.vector_of [1; 2] 0) [1; 2] /\
  @arguments_live Z Obj.log (@call_args _ _ Obj.plain (ByPushBack 5)) (length [1; 2]) /\
  @arguments_live Z Obj.log (@call_args _ _ Obj.plain (ByPushBackMove (ElementAt 0)))
     (length [1; 2]) /\
  (exists v' w',
     @do_append _ _ Obj.plain (ByPushBack 5) (Obj.vector_of [1; 2] 0) []
       = (Normal tt, v', w') /\
     @represents _ _ Obj.plain v' [1; 2; 5] /\ at_ v' 2 = Some 5) /\
  (exists v' w',
     @do_append _ _ Obj.plain (ByPushBackMove (ElementAt 0))
        (Obj.vector_of [1; 2] 0) []
       = (Normal tt, v', w') /\
     @represents _ _ Obj.plain v' [0; 2; 1] /\ at_ v' 2 = Some 1 /\
     at_ v' 1 = at_ (Obj.vector_of [1; 2] 0) 1).
Proof.
  assert (Hrep : @represents _ _ Obj.plain (Obj.vector_of [1; 2] 0) [1; 2])
    by (apply (vector_of_represents Obj.plain); reflexivity).
  assert (Hlive : @arguments_live Z Obj.log
                    (@call_args _ _ Obj.plain (ByPushBackMove (ElementAt 0)))
                    (length [1; 2])) by (simpl; lia).
  split_and!; [exact Hrep|exact I|exact Hlive| |].
  - pose proof (@append_spec_public _ _ Obj.plain plain_values (ByPushBack 5)
                  (Obj.vector_of [1; 2] 0) [1; 2] [] Hrep I) as H.
    destruct H as [H _].
    remember (@do_append _ _ Obj.plain (ByPushBack 5)
                (Obj.vector_of [1; 2] 0) []) as r eqn:Hr.
    vm_compute in Hr.
    match type of Hr with _ = (_, ?v', ?w') => exists v', w' end.
    split; [exact Hr|]. rewrite Hr in H.
    destruct H as (x & l' & Hv & [Hx Hl] & _ & Hat & _).
    rewrite Hx, Hl in Hv. rewrite Hx in Hat. split; [exact Hv|exact Hat].
  - pose proof (@append_spec_public _ _ Obj.plain plain_values
                  (ByPushBackMove (ElementAt 0))
                  (Obj.vector_of [1; 2] 0) [1; 2] [] Hrep Hlive) as H.
    destruct H as [H _].
    remember (@do_append _ _ Obj.plain (ByPushBackMove (ElementAt 0))
                (Obj.vector_of [1; 2] 0) []) as r eqn:Hr.
    vm_compute in Hr.
    match type of Hr with _ = (_, ?v', ?w') => exists v', w' end.
    split; [exact Hr|]. rewrite Hr in H.
    destruct H as (x & l' & Hv & [Hx [s' Hl]] & _ & Hat & Hold).
    injection Hx as Hx. rewrite <- Hx in *. rewrite Hl in Hv.
    pose proof (rep_buffer _ _ Hv) as Hb. simpl in Hb.
    injection Hb as Hb. rewrite <- Hb in Hv.
    split_and!; [exact Hv|exact Hat|].
    apply (Hold 1); [split; [discriminate|reflexivity]|discriminate].
Defined.



(** PushBack(5) on the full vector [1; 2], then PopBack. *)
Lemma PushBack_then_PopBack_witness :
  @represents _ _ Obj.plain (Obj.vector_of [1; 2] 0) [1; 2] /\
  @PushBack _ _ Obj.plain 5 (Obj.vector_of [1; 2] 0) []
    = (Normal tt, Obj.vector_of [1; 2; 5] 1, [0; 0]) /\
  exists v2,
    @PopBack _ _ Obj.plain (Obj.vector_of [1; 2; 5] 1) [0; 0]
      = (Normal tt, v2, [5; 0; 0]) /\
    @represents _ _ Obj.plain v2 [1; 2] /\ Capacity v2 = 4.
Proof.
  assert (Hrep : @represents _ _ Obj.plain (Obj.vector_of [1; 2] 0) [1; 2])
    by (apply (vector_of_represents Obj.plain); reflexivity).
  assert (Hp : @PushBack _ _ Obj.plain 5 (Obj.vector_of [1; 2] 0) []
               = (Normal tt, Obj.vector_of [1; 2; 5] 1, [0; 0]))
    by (vm_compute; reflexivity).
  split_and!; [exact Hrep|exact Hp|].
  destruct (@PushBack_then_PopBack _ _ Obj.plain plain_values 5
              (Obj.vector_of [1; 2] 0) [1; 2] [] _ _ Hrep Hp)
    as (v2 & Hpop & Hv2 & _ & Hc).
  exists v2. split_and!; [exact Hpop|exact Hv2|exact Hc].
Defined.


(** Erase at end() of [1; 2]. *)
Lemma Erase_out_of_range_witness :
  @represents _ _ Obj.plain (Obj.vector_of [1; 2] 0) [1; 2] /\
  (length [1; 2] <= 2)%nat /\
  Z.of_nat 2 < size_t_modulus /\
  @Erase _ _ Obj.plain 2%nat (Obj.vector_of [1; 2] 0) []
    = (Violation, Obj.vector_of [1; 2] 0, []).
Proof.
  assert (Hrep : @represents _ _ Obj.plain (Obj.vector_of [1; 2] 0) [1; 2])
    by (apply (vector_of_represents Obj.plain); reflexivity).
  assert (Hpos : (length [1; 2] <= 2)%nat) by (simpl; lia).
  assert (Hsmall : Z.of_nat 2 < size_t_modulus) by reflexivity.
  split_and!; [exact Hrep|exact Hpos|exact Hsmall|].
  exact (@Erase_out_of_range _ _ Obj.plain 2%nat _ _ [] Hrep Hpos Hsmall).
Defined.

(** Emplace at the position 3 of [1; 2] with capacity 4. *)
Lemma Emplace_out_of_range_witness :
  @represents _ _ Obj.plain (Obj.vector_of [1; 2] 2) [1; 2] /\
  (length [1; 2] < 3)%nat /\
  Z.of_nat 3 < size_t_modulus /\
  exists v' w',
    @Emplace _ _ Obj.plain 3%nat (Outside (Obj.make 9))
       (Obj.vector_of [1; 2] 2) []
      = (Violation, v', w').
Proof.
  assert (Hrep : @represents _ _ Obj.plain (Obj.vector_of [1; 2] 2) [1; 2])
    by (apply (vector_of_represents Obj.plain); reflexivity).
  assert (Hpos : (length [1; 2] < 3)%nat) by (simpl; lia).
  assert (Hsmall : Z.of_nat 3 < size_t_modulus) by reflexivity.
  split_and!; [exact Hrep|exact Hpos|exact Hsmall|].
  pose proof (@Emplace_out_of_range _ _ Obj.plain 3%nat
                (Outside (Obj.make 9))
                (Obj.vector_of [1; 2] 2) [1; 2] [] Hrep Hpos Hsmall) as H.
  remember (@Emplace _ _ Obj.plain 3%nat (Outside (Obj.make 9))
              (Obj.vector_of [1; 2] 2) []) as r eqn:Hr.
  destruct r as [[o v'] w']. exists v', w'.
  destruct o as [it| |].
  - destruct H.
  - vm_compute in Hr. discriminate Hr.
  - reflexivity.
Defined.

(** RawMemory(3) of 8-byte objects has 3 slots, and RawMemory(2^61) has
    the capacity 2^61 and no slot at all: 2^61 * 8 is 0 in a size_t. *)
Lemma RawMemory_spec_witness :
  0 <= 3 /\ 0 <= 2 ^ 61 /\
  (exists m w',
     @RawMemory_new Z _ Obj.plain 3 [] = (Some m, w') /\
     RawMemory_Capacity m = 3 /\ length (buffer_ m) = 3%nat /\
     RawMemory_plus m 3 = Some 3%nat /\ RawMemory_at m 3 = None) /\
  (exists m w',
     @RawMemory_new Z _ Obj.plain (2 ^ 61) [] = (Some m, w') /\
     RawMemory_Capacity m = 2 ^ 61 /\ length (buffer_ m) = 0%nat).
Proof.
  assert (Hn : 0 <= 3) by discriminate.
  assert (Hbig : 0 <= 2 ^ 61) by discriminate.
  split_and!; [exact Hn|exact Hbig| |].
  - pose proof (@RawMemory_spec Z _ Obj.plain 3 [] Hn) as H.
    remember (@RawMemory_new Z _ Obj.plain 3 []) as r eqn:Hr.
    vm_compute in Hr.
    match type of Hr with _ = (Some ?m, ?w') => exists m, w' end.
    split; [exact Hr|]. rewrite Hr in H.
    destruct H as (Hc & _ & Hl & _ & _ & _ & _ & Hp & Ha & _).
    split_and!; [exact Hc|apply Hl; reflexivity|exact Hp|exact Ha].
  - pose proof (@RawMemory_spec Z _ Obj.plain (2 ^ 61) [] Hbig) as H.
    remember (@RawMemory_new Z _ Obj.plain (2 ^ 61) []) as r eqn:Hr.
    vm_compute in Hr.
    match type of Hr with _ = (Some ?m, ?w') => exists m, w' end.
    split; [exact Hr|]. rewrite Hr in H.
    destruct H as (Hc & Hl & _).
    split; [exact Hc|exact Hl].
Defined.

(** PushBack on the full vector [1; 2; 3] doubles the capacity to 6. *)
Lemma growth_policy_witness :
  @represents _ _ Obj.plain (Obj.vector_of [1; 2; 3] 0) [1; 2; 3] /\
  exists v' w',
    @do_append _ _ Obj.plain (ByPushBack 4) (Obj.vector_of [1; 2; 3] 0) []
      = (Normal tt, v', w') /\
    Capacity v' = 6.
Proof.
  assert (Hrep : @represents _ _ Obj.plain
                   (Obj.vector_of [1; 2; 3] 0) [1; 2; 3])
    by (apply (vector_of_represents Obj.plain); reflexivity).
  split; [exact Hrep|].
  pose proof (@growth_policy _ _ Obj.plain
                (Obj.vector_of [1; 2; 3] 0) [1; 2; 3] [] Hrep) as H.
  destruct H as [H _]. specialize (H (ByPushBack 4)).
  remember (@do_append _ _ Obj.plain (ByPushBack 4)
              (Obj.vector_of [1; 2; 3] 0) []) as r eqn:Hr.
  vm_compute in Hr.
  match type of Hr with _ = (_, ?v', ?w') => exists v', w' end.
  split; [exact Hr|]. rewrite Hr in H. exact H.
Defined.
